(** * A shallow embedding of [adt/mypy_plugin.py]

    The plugin teaches mypy about classes decorated with [@adt]: for every
    case variable of the class it adds a classmethod constructor and a
    lowercase accessor, and it adds one generic [match] method.  All of its
    work is mutation of the class's symbol table ([info.names]) and of the
    list of statements of the class body ([cls.defs.body]).

    The development is organised as follows.
    - [Py]: the few Python built-ins the plugin relies on ([str.lower],
      [str(int)], insertion-ordered dictionaries, exceptions).  What they
      take from the Unicode character database beyond ASCII is a parameter
      ([Unicode]): nothing below depends on what it contains.
    - [Dec]: the fragment of [decimal.Decimal] used by the version gate.
    - [Mypy]: the part of mypy's object model the plugin reads and writes,
      and the mypy helpers it calls.
    - Section [ADTPlugin]: the plugin itself, function by function, and
      [plugin]; the signature of a generated method as the specification
      describes it, computed from a [FuncDef]; auxiliary definitions; and
      then the properties with their proofs, for every Unicode database.
    - After the section: the properties applied to concrete classes. *)

From stdpp Require Import fin gmap strings pretty list.
From Stdlib Require Import Ascii ZArith QArith Qpower Lia.

Close Scope Q_scope.

(* ===================================================================== *)
(** * Python built-ins *)
(* ===================================================================== *)

Module Py.

(** The exceptions that can escape from the plugin. *)
Inductive Exception : Type :=
  | AssertionError (msg : string)
  | KeyError (key : string)
  | ValueError (msg : string)
  | InvalidOperation.

(** ** Strings

    A Python [str] is a sequence of code points.  It is represented by its
    UTF-8 encoding: a string of ASCII characters is the string of its own
    bytes, and every byte of a character beyond ASCII is above 127. *)

(** One code point with its least value in an encoding of that length;
    surrogates and values beyond U+10FFFF are no code points of UTF-8. *)
Definition code_point (least cp : N) : option N :=
  if ((least <=? cp) && (cp <=? 1114111) &&
      negb ((55296 <=? cp) && (cp <=? 57343)))%N
  then Some cp else None.

(** The payload of a continuation byte [10xxxxxx]. *)
Definition continuation (c : ascii) : option N :=
  let n := N_of_ascii c in
  if ((128 <=? n) && (n <? 192))%N then Some (n - 128)%N else None.

(** The code points of a string; [None] for bytes that encode no text. *)
Fixpoint code_points (s : string) : option (list N) :=
  match s with
  | EmptyString => Some []
  | String b0 s1 =>
      let n0 := N_of_ascii b0 in
      if (n0 <? 128)%N then cons n0 <$> code_points s1
      else if (n0 <? 192)%N then None
      else if (n0 <? 224)%N then
        match s1 with
        | String b1 s2 =>
            c1 ← continuation b1;
            cp ← code_point 128 ((n0 - 192) * 64 + c1);
            cons cp <$> code_points s2
        | _ => None
        end
      else if (n0 <? 240)%N then
        match s1 with
        | String b1 (String b2 s3) =>
            c1 ← continuation b1; c2 ← continuation b2;
            cp ← code_point 2048 (((n0 - 224) * 64 + c1) * 64 + c2);
            cons cp <$> code_points s3
        | _ => None
        end
      else if (n0 <? 248)%N then
        match s1 with
        | String b1 (String b2 (String b3 s4)) =>
            c1 ← continuation b1; c2 ← continuation b2; c3 ← continuation b3;
            cp ← code_point 65536
                   ((((n0 - 240) * 64 + c1) * 64 + c2) * 64 + c3);
            cons cp <$> code_points s4
        | _ => None
        end
      else None
  end.

(** [s.isascii()] *)
Fixpoint isascii (s : string) : bool :=
  match s with
  | EmptyString => true
  | String c s' => (N_of_ascii c <? 128)%N && isascii s'
  end.

(** [c in s] for a one-character needle. *)
Fixpoint contains (c : ascii) (s : string) : bool :=
  match s with
  | EmptyString => false
  | String c' s' => if decide (c = c') then true else contains c s'
  end.

(** What Python takes from the Unicode character database for characters
    beyond ASCII.  The database is not part of the plugin and differs
    between Python versions: it is a parameter of everything that follows.
    - [unicode_lower s] is [s.lower()] for a string [s] that has a character
      beyond ASCII;
    - [unicode_isspace ch] is [Py_UNICODE_ISSPACE(ch)] and
      [unicode_todecimal ch] is [Py_UNICODE_TODECIMAL(ch)], the value of a
      decimal digit, for a code point [ch] above 127.
    One fact about the database is relied on: the hyphen-minus [U+002D] is
    the lowercase form of no other character, so that lowercasing puts no
    dash into a string that has none. *)
Record Unicode : Type := mkUnicode {
  unicode_lower : string → string;
  unicode_isspace : N → bool;
  unicode_todecimal : N → option (fin 10);
  unicode_lower_dash s :
    contains "-" s = false → contains "-" (unicode_lower s) = false;
}.

(** A database without any cased letter, space or digit beyond ASCII.  On
    strings of ASCII characters every database gives the same results, so
    that this one serves to evaluate the plugin on such strings. *)
Definition ascii_only : Unicode :=
  mkUnicode (λ s, s) (λ _, false) (λ _, None) (λ _ H, H).

(** [str.lower] on an ASCII character: the letters [A-Z] are folded. *)
Definition lower_ascii (c : ascii) : ascii :=
  let n := nat_of_ascii c in
  if (65 <=? n)%nat && (n <=? 90)%nat then ascii_of_nat (n + 32) else c.

Fixpoint ascii_lower (s : string) : string :=
  match s with
  | EmptyString => EmptyString
  | String c s' => String (lower_ascii c) (ascii_lower s')
  end.

(** [s.lower()]: every cased character is converted to lowercase, as the
    Unicode database has it; in a string of ASCII characters these are the
    letters [A-Z]. *)
Definition lower (u : Unicode) (s : string) : string :=
  if isascii s then ascii_lower s else unicode_lower u s.

(** [str(i)] for a non-negative integer: its decimal digits. *)
Definition str (i : nat) : string := pretty i.

(** An insertion-ordered dictionary whose keys are compared with [same]:
    assigning to a key that is present replaces its value in place, a new key
    goes to the end. *)
Section dict.
Context {K V : Type} (same : K → K → bool).

Fixpoint dict_set (d : list (K * V)) (k : K) (v : V) : list (K * V) :=
  match d with
  | [] => [(k, v)]
  | (k', v') :: d' =>
      if same k' k then (k', v) :: d' else (k', v') :: dict_set d' k v
  end.

(** [{key(x): value(x) for x in xs}] *)
Definition dict_comprehension {A} (key : A → K) (value : A → V)
    (xs : list A) : list (K * V) :=
  foldl (λ d x, dict_set d (key x) (value x)) [] xs.
End dict.

End Py.
Export Py.

(* ===================================================================== *)
(** * [decimal.Decimal], as far as the version gate uses it *)
(* ===================================================================== *)

Module Dec.

(** A decimal is a signed coefficient scaled by a power of ten, an infinity
    or a NaN.  This is CPython's [decimal] (the C module [_decimal] over
    libmpdec, on a 64-bit platform).  Construction from a string is exact:
    it rounds nothing and raises [InvalidOperation] for a string that is no
    numeric string or whose value does not fit the limits of the module.
    The Python string is first brought to a C string (whitespace, also of
    other scripts, is stripped at both ends, underscores are skipped, the
    decimal digits of other scripts become ASCII digits), which is then
    parsed. *)
Inductive Decimal : Type :=
  | Finite (negative : bool) (coefficient : N) (exponent : Z)
  | Infinity (negative : bool)
  | NaN (negative signaling : bool).

(** [decimal.MAX_PREC], [decimal.MAX_EMAX] and [decimal.MIN_ETINY] *)
Definition MAX_PREC : Z := 999999999999999999.
Definition MAX_EMAX : Z := 999999999999999999.
Definition MIN_ETINY : Z := - MAX_EMAX - (MAX_PREC - 1).

(** ** From the Python string to a C string ([numeric_as_ascii]) *)

(** [Py_UNICODE_ISSPACE] *)
Definition isspace (u : Unicode) (ch : N) : bool :=
  if (ch <? 128)%N
  then ((9 <=? ch) && (ch <=? 13) || (28 <=? ch) && (ch <=? 32))%N
  else unicode_isspace u ch.

(** [Py_UNICODE_TODECIMAL] *)
Definition todecimal (u : Unicode) (ch : N) : option N :=
  if (ch <? 128)%N
  then (if (48 <=? ch) && (ch <=? 57) then Some (ch - 48) else None)%N
  else (λ d : fin 10, N.of_nat (fin_to_nat d)) <$> unicode_todecimal u ch.

Fixpoint lstrip (u : Unicode) (chs : list N) : list N :=
  match chs with
  | ch :: chs' => if isspace u ch then lstrip u chs' else chs
  | [] => []
  end.

(** Whitespace is dropped at the end and then at the start. *)
Definition strip (u : Unicode) (chs : list N) : list N :=
  lstrip u (reverse (lstrip u (reverse chs))).

(** The loop over the characters: an underscore is skipped, an ASCII
    character other than NUL is kept, any other whitespace becomes a space
    and any other decimal digit its ASCII digit; anything else makes the
    conversion fail. *)
Fixpoint convert (u : Unicode) (chs : list N) : option string :=
  match chs with
  | [] => Some EmptyString
  | ch :: chs' =>
      if (ch =? 95)%N then convert u chs'
      else if ((0 <? ch) && (ch <=? 127))%N then
        String (ascii_of_N ch) <$> convert u chs'
      else if isspace u ch then String " "%char <$> convert u chs'
      else
        d ← todecimal u ch;
        String (ascii_of_N (48 + d)) <$> convert u chs'
  end.

(** A failed conversion yields the empty string, which is no numeric
    string. *)
Definition numeric_as_ascii (u : Unicode) (chs : list N) : string :=
  default EmptyString (convert u (strip u chs)).

(** ** From the C string to the number ([mpd_qset_string]) *)

(** The value of a digit of the C string ([isdigit]); the digits of other
    scripts have become ASCII digits by now. *)
Definition digit_of (c : ascii) : option N :=
  let n := N_of_ascii c in
  if (48 <=? n)%N && (n <=? 57)%N then Some (n - 48)%N else None.

(** The longest prefix of digits: its value, its length and what follows. *)
Fixpoint digits (s : string) (acc : N) (len : nat) : N * nat * string :=
  match s with
  | String c s' =>
      match digit_of c with
      | Some d => digits s' (10 * acc + d)%N (S len)
      | None => (acc, len, s)
      end
  | EmptyString => (acc, len, s)
  end.

(** An optional sign: whether it is a minus, and what follows. *)
Definition sign (s : string) : bool * string :=
  match s with
  | String c s' =>
      if decide (c = "-"%char) then (true, s')
      else if decide (c = "+"%char) then (false, s')
      else (false, s)
  | EmptyString => (false, s)
  end.

(** The optional exponent part [E[+-]digits], up to the end of the string.
    Its value is not bounded here: the limits apply to the number as a
    whole, see [exact]. *)
Definition exponent_part (s : string) : option Z :=
  match s with
  | EmptyString => Some 0%Z
  | String c s' =>
      if decide (lower_ascii c = "e"%char) then
        let '(neg, s'') := sign s' in
        match digits s'' 0 0 with
        | (_, O, _) => None
        | (v, S _, EmptyString) =>
            Some (if neg then - Z.of_N v else Z.of_N v)%Z
        | _ => None
        end
      else None
  end.

(** The number of decimal digits of a coefficient; zero has one. *)
Definition number_of_digits (coefficient : N) : Z :=
  Z.of_nat (String.length (pretty coefficient)).

(** The number is representable as it stands in the widest context: its
    coefficient has at most [MAX_PREC] digits, its adjusted exponent is at
    most [MAX_EMAX] and its exponent at least [MIN_ETINY].  Anything else
    would have to be rounded or clamped, which the exact conversion turns
    into [InvalidOperation]. *)
Definition exact (coefficient : N) (exponent : Z) : bool :=
  ((number_of_digits coefficient <=? MAX_PREC) &&
   (exponent + number_of_digits coefficient - 1 <=? MAX_EMAX) &&
   (MIN_ETINY <=? exponent))%Z.

(** [digits [. digits] [exponent]] with at least one digit. *)
Definition numeric_value (neg : bool) (s : string) : option Decimal :=
  let '(int, int_len, s1) := digits s 0 0 in
  let '(coeff, frac_len, s2) :=
    match s1 with
    | String c s1' =>
        if decide (c = "."%char) then digits s1' int 0 else (int, O, s1)
    | EmptyString => (int, O, s1)
    end in
  if decide (int_len + frac_len = 0)%nat then None
  else
    e ← exponent_part s2;
    if (MAX_PREC <? Z.of_nat frac_len)%Z then None
    else if exact coeff (e - Z.of_nat frac_len)
    then Some (Finite neg coeff (e - Z.of_nat frac_len))
    else None.

(** [Inf], [Infinity], [NaN] and [sNaN] with optional diagnostic digits, in
    any letter case. *)
Definition special_value (neg : bool) (s : string) : option Decimal :=
  let l := ascii_lower s in
  if decide (l = "inf" ∨ l = "infinity") then Some (Infinity neg)
  else
    let '(signaling, l') :=
      match l with
      | String c l' => if decide (c = "s"%char) then (true, l') else (false, l)
      | EmptyString => (false, l)
      end in
    match l' with
    | String "n" (String "a" (String "n" diag)) =>
        match digits diag 0 0 with
        | (_, _, EmptyString) => Some (NaN neg signaling)
        | _ => None
        end
    | _ => None
    end.

(** The number a C string denotes: [None] stands for the conversion error
    or the inexact result that make [Decimal] raise [InvalidOperation]. *)
Definition of_cstring (s : string) : option Decimal :=
  let '(neg, r) := sign s in
  match special_value neg r with
  | Some d => Some d
  | None => numeric_value neg r
  end.

(** [Decimal(value)] for a string: [None] stands for [InvalidOperation]. *)
Definition of_string (u : Unicode) (value : string) : option Decimal :=
  chs ← code_points value;
  of_cstring (numeric_as_ascii u chs).

Definition signed (negative : bool) (coefficient : N) : Z :=
  if negative then (- Z.of_N coefficient)%Z else Z.of_N coefficient.

(** Three-way comparison of two numbers: both are brought to the smaller
    exponent and their integers compared; infinities lie outside. *)
Definition cmp (a b : Decimal) : comparison :=
  match a, b with
  | Finite na ca ea, Finite nb cb eb =>
      let e := Z.min ea eb in
      (signed na ca * 10 ^ (ea - e) ?= signed nb cb * 10 ^ (eb - e))%Z
  | Infinity na, Infinity nb =>
      if na then (if nb then Eq else Lt) else (if nb then Gt else Eq)
  | Infinity na, _ => if na then Lt else Gt
  | _, Infinity nb => if nb then Gt else Lt
  | _, _ => Eq
  end.

Definition is_nan (a : Decimal) : bool :=
  match a with NaN _ _ => true | _ => false end.

(** [a >= b]: an ordering comparison that involves a NaN signals
    [InvalidOperation]. *)
Definition ge (a b : Decimal) : Exception + bool :=
  if is_nan a || is_nan b then inl InvalidOperation
  else inr (match cmp a b with Lt => false | _ => true end).

(** The rational number a finite decimal denotes. *)
Definition to_Q (negative : bool) (coefficient : N) (exponent : Z) : Q :=
  (inject_Z (signed negative coefficient) * 10 ^ exponent)%Q.

End Dec.

(* ===================================================================== *)
(** * The part of mypy the plugin works on *)
(* ===================================================================== *)

Module Mypy.

(** ** [mypy.nodes] constants *)

Inductive ArgKind : Type :=
  | ARG_POS | ARG_OPT | ARG_STAR | ARG_NAMED | ARG_STAR2 | ARG_NAMED_OPT.

Inductive SymbolKind : Type := LDEF | GDEF | MDEF | UNBOUND_IMPORTED.

(** ** [mypy.types] *)

Inductive TypeOfAny : Type :=
  | unannotated | explicit | from_unimported_type | from_omitted_generics
  | from_error | special_form | from_another_any | implementation_artifact.

#[warnings="-register-all"]
Inductive Ty : Type :=
  | AnyType (type_of_any : TypeOfAny)
  | Instance (type_fullname : string) (args : list Ty)
  | TupleType (items : list Ty) (partial_fallback : Ty)
  | TypeVarType (binder : TypeVarDef)
  | CallableType (arg_types : list Ty) (arg_kinds : list ArgKind)
      (arg_names : list (option string)) (ret_type : Ty) (fallback : Ty)
      (name : option string) (variables : list TypeVarDef)
with TypeVarDef : Type :=
  | mkTypeVarDef (name fullname : string) (id : Z) (values : list Ty)
      (upper_bound : Ty).

Definition tvar_name (d : TypeVarDef) : string :=
  match d with mkTypeVarDef n _ _ _ _ => n end.
Definition tvar_fullname (d : TypeVarDef) : string :=
  match d with mkTypeVarDef _ fn _ _ _ => fn end.
Definition tvar_upper_bound (d : TypeVarDef) : Ty :=
  match d with mkTypeVarDef _ _ _ _ ub => ub end.

(** [CallableType.with_name] *)
Definition with_name (sig : Ty) (n : string) : Ty :=
  match sig with
  | CallableType ts ks ns r fb _ vs => CallableType ts ks ns r fb (Some n) vs
  | t => t
  end.

(** [signature.variables = vs] *)
Definition set_variables (sig : Ty) (vs : list TypeVarDef) : Ty :=
  match sig with
  | CallableType ts ks ns r fb n _ => CallableType ts ks ns r fb n vs
  | t => t
  end.

(** ** [mypy.nodes]

    mypy's nodes define neither [__eq__] nor [__hash__]: they are compared by
    identity.  The two kinds of node whose identity the plugin depends on
    carry it as a field: [var_oid] (a [Var] used as a dictionary key) and
    [func_oid] (a [FuncDef] passed to [list.remove]). *)

Record Var : Type := mkVar {
  var_oid : nat;
  var_name : string;          (* [Var.name()] *)
  var_type : option Ty;       (* [Var.type] *)
}.

Inductive Expression : Type :=
  | NameExpr (name : string)
  | OtherExpr.                 (* member, index, tuple, ... expressions *)

Record Argument : Type := mkArgument {
  variable : Var;
  type_annotation : option Ty;
  initializer : option Expression;
  kind : ArgKind;
}.

(** The body of a function: the plugin only ever builds
    [Block([PassStmt()])]; hand-written bodies are not inspected. *)
Inductive Block : Type := Block_PassStmt | Block_other.

Record FuncDef : Type := mkFuncDef {
  func_oid : nat;
  func_name : string;          (* [FuncDef.name()] *)
  arguments : list Argument;
  func_body : Block;
  func_info : option string;   (* full name of the class it belongs to *)
  is_class : bool;
  func_type : option Ty;       (* [FuncDef.type] *)
  _fullname : string;
  func_line : Z;
}.

Record TypeVarExpr : Type := mkTypeVarExpr {
  tve_name : string;
  tve_fullname : string;
  tve_values : list Ty;
  tve_upper_bound : Ty;
}.

Inductive SymbolNode : Type :=
  | NVar (v : Var)
  | NFuncDef (f : FuncDef)
  | NTypeVarExpr (e : TypeVarExpr)
  | NOther.                    (* TypeInfo, Decorator, MypyFile, ... *)

Record SymbolTableNode : Type := mkSymbolTableNode {
  sym_kind : SymbolKind;
  node : option SymbolNode;
  plugin_generated : bool;
}.

Inductive Statement : Type :=
  | AssignmentStmt (lvalues : list Expression)
  | SFuncDef (f : FuncDef)
  | PassStmt
  | OtherStmt.

(** ** The class under transformation

    [ClassDefContext] gives access to the [ClassDef] ([ctx.cls]), its
    [TypeInfo] ([ctx.cls.info], with [info.defn] pointing back to the
    [ClassDef]) and the semantic analyzer ([ctx.api]).  The record flattens
    this cycle: [names] is [info.names], [body] is [cls.defs.body].
    [mro_tail] holds the symbol tables of the base classes, in method
    resolution order; [next_oid] is the identity the next created object
    receives. *)
Record ClassDefContext : Type := mkContext {
  cls_name : string;                         (* [info.name()] *)
  cls_fullname : string;                     (* [info.fullname()] *)
  cls_line : Z;                              (* [info.line] *)
  type_vars : list TypeVarDef;               (* [info.defn.type_vars] *)
  tuple_type : option Ty;                    (* [info.tuple_type] *)
  mro_tail : list (gmap string SymbolTableNode);
  names : gmap string SymbolTableNode;       (* [info.names] *)
  body : list Statement;                     (* [cls.defs.body] *)
  next_oid : nat;
}.

Definition set_names (f : gmap string SymbolTableNode → gmap string SymbolTableNode)
    (c : ClassDefContext) : ClassDefContext :=
  mkContext (cls_name c) (cls_fullname c) (cls_line c) (type_vars c)
    (tuple_type c) (mro_tail c) (f (names c)) (body c) (next_oid c).

Definition set_body (f : list Statement → list Statement)
    (c : ClassDefContext) : ClassDefContext :=
  mkContext (cls_name c) (cls_fullname c) (cls_line c) (type_vars c)
    (tuple_type c) (mro_tail c) (names c) (f (body c)) (next_oid c).

Definition bump_oid (c : ClassDefContext) : ClassDefContext :=
  mkContext (cls_name c) (cls_fullname c) (cls_line c) (type_vars c)
    (tuple_type c) (mro_tail c) (names c) (body c) (S (next_oid c)).

(** ** Helpers of mypy called by the plugin *)

(** [TypeInfo.get]: the first table along the MRO that binds the name. *)
Fixpoint mro_get (mro : list (gmap string SymbolTableNode)) (n : string)
    : option SymbolTableNode :=
  match mro with
  | [] => None
  | t :: mro' =>
      match t !! n with
      | Some sym => Some sym
      | None => mro_get mro' n
      end
  end.

Definition info_get (c : ClassDefContext) (n : string) : option SymbolTableNode :=
  mro_get (names c :: mro_tail c) n.

(** [mypy.typevars.fill_typevars]: the class applied to its own type
    variables, or, for a class with a tuple type, that tuple type with the
    instance as fallback. *)
Definition fill_typevars (c : ClassDefContext) : Ty :=
  let inst := Instance (cls_fullname c) (TypeVarType <$> type_vars c) in
  match tuple_type c with
  | None => inst
  | Some (TupleType items _) => TupleType items inst
  | Some t => t
  end.

Definition is_Instance (t : Ty) : bool :=
  match t with Instance _ _ => true | _ => false end.

(** [s] without the prefix [p], when it has it. *)
Fixpoint strip_prefix (p s : string) : option string :=
  match p, s with
  | EmptyString, _ => Some s
  | String a p', String b s' =>
      if decide (a = b) then strip_prefix p' s' else None
  | String _ _, EmptyString => None
  end.

(** [api.named_type(qualified_name)]: the instance type of the class that
    the qualified name resolves to.  The plugin asks for
    ['__builtins__.function'] and ['__builtins__.object']: [__builtins__] is
    the alias under which every module sees the module [builtins], so the
    class found is [builtins.function] or [builtins.object]; neither has
    type variables. *)
Definition named_type (qualified_name : string) : Ty :=
  match strip_prefix "__builtins__." qualified_name with
  | Some n => Instance ("builtins." +:+ n) []
  | None => Instance qualified_name []
  end.

(** The full names of the fallback classes of [TypedDict]
    ([TPDICT_FB_NAMES]); the releases of mypy before it had this list knew
    the last of them only, and no other class of these names. *)
Definition TPDICT_FB_NAMES : list string :=
  ["typing._TypedDict"; "typing_extensions._TypedDict";
   "mypy_extensions._TypedDict"].

(** The class name shown in the name of a callable: the internal name
    [_TypedDict] is not exposed. *)
Definition callable_class_name (info_fullname info_name : string) : string :=
  if decide (info_fullname ∈ TPDICT_FB_NAMES) then "TypedDict" else info_name.

(** [mypy.semanal.set_callable_name(sig, fdef)] *)
Definition set_callable_name (sig : Ty) (fdef_name : string)
    (fdef_info : option (string * string)) : Ty :=
  match sig with
  | CallableType _ _ _ _ _ _ _ =>
      match fdef_info with
      | Some (info_fullname, info_name) =>
          let class_name := callable_class_name info_fullname info_name in
          with_name sig (fdef_name +:+ " of " +:+ class_name)
      | None => with_name sig fdef_name
      end
  | _ => sig
  end.

(** [mypy.util.get_unique_redefinition_name(name, existing)]: try
    [name-redefinition], then [name-redefinition2], [name-redefinition3], ...
    until one is not in [existing].  The [while] loop is run with as much
    fuel as [existing] has keys plus one, which it cannot exhaust
    (see [redefinition_loop_spec]). *)
Fixpoint redefinition_loop {V} (fuel : nat) (r_name : string)
    (existing : gmap string V) (i : nat) : string :=
  match fuel with
  | O => r_name +:+ str i
  | S fuel' =>
      if decide (is_Some (existing !! (r_name +:+ str i)))
      then redefinition_loop fuel' r_name existing (S i)
      else r_name +:+ str i
  end.

Definition get_unique_redefinition_name {V} (name : string)
    (existing : gmap string V) : string :=
  let r_name := name +:+ "-redefinition" in
  if decide (is_Some (existing !! r_name))
  then redefinition_loop (S (size existing)) r_name existing 2
  else r_name.

End Mypy.
Export Mypy.

(* ===================================================================== *)
(** * Computations that mutate the class *)
(* ===================================================================== *)

Module Computation.

(** Computations over the class context.

    Every method of the plugin reads and mutates the one [ClassDefContext]
    and either returns or raises.  A raised exception does not undo the
    mutations made before it: the context is threaded through both
    outcomes. *)

Inductive Outcome (A : Type) : Type :=
  | Return (a : A)
  | Raise (e : Exception).
Arguments Return {A} a.
Arguments Raise {A} e.

Definition M (A : Type) : Type := ClassDefContext → ClassDefContext * Outcome A.

#[global] Instance M_ret : MRet M := λ A a c, (c, Return a).
#[global] Instance M_bind : MBind M := λ A B f m c,
  match m c with
  | (c', Return a) => f a c'
  | (c', Raise e) => (c', Raise e)
  end.

Definition raise {A} (e : Exception) : M A := λ c, (c, Raise e).
Definition get : M ClassDefContext := λ c, (c, Return c).
Definition modify (f : ClassDefContext → ClassDefContext) : M unit :=
  λ c, (f c, Return tt).

(** [assert cond, msg] *)
Definition assert (cond : bool) (msg : string) : M unit :=
  if cond then mret tt else raise (AssertionError msg).

(** [for x in xs: f(x)] *)
Fixpoint for_each {A} (xs : list A) (f : A → M unit) : M unit :=
  match xs with
  | [] => mret tt
  | x :: xs' => f x ;; for_each xs' f
  end.

(** [[f(x) for x in xs]] *)
Fixpoint list_comprehension {A B} (xs : list A) (f : A → M B) : M (list B) :=
  match xs with
  | [] => mret []
  | x :: xs' => y ← f x; ys ← list_comprehension xs' f; mret (y :: ys)
  end.

End Computation.
Export Computation.

(* ===================================================================== *)
(** * The plugin *)
(* ===================================================================== *)

Section ADTPlugin.

(** The Unicode database of the Python that runs mypy. *)
Variable ucd : Unicode.

(** Object creation: the new object takes the next identity. *)
Definition new_oid : M nat :=
  c ← get; modify bump_oid ;; mret (next_oid c).

Definition new_Var (name : string) (type : option Ty) : M Var :=
  oid ← new_oid; mret (mkVar oid name type).

(** [cls.defs.body.remove(func)]: drops the first statement that is the
    object [func]; [ValueError] when there is none. *)
Definition is_object (f : FuncDef) (s : Statement) : bool :=
  match s with
  | SFuncDef g => bool_decide (func_oid g = func_oid f)
  | _ => false
  end.

Fixpoint list_remove (f : FuncDef) (l : list Statement) : option (list Statement) :=
  match l with
  | [] => None
  | s :: l' =>
      if is_object f s then Some l' else cons s <$> list_remove f l'
  end.

Definition body_remove (f : FuncDef) : M unit :=
  c ← get;
  match list_remove f (body c) with
  | Some l => modify (set_body (λ _, l))
  | None => raise (ValueError "list.remove(x): x not in list")
  end.

Definition _ADT_DECORATOR : string := "adt.decorator.adt".

(** ** [_add_method] *)

(** The loop over [args] that splits them into types, names and kinds and
    asserts that each is annotated. *)
Fixpoint split_args (args : list Argument)
    : Exception + (list Ty * list (option string) * list ArgKind) :=
  match args with
  | [] => inr ([], [], [])
  | arg :: args' =>
      match type_annotation arg with
      | None => inl (AssertionError "All arguments must be fully typed.")
      | Some t =>
          match split_args args' with
          | inl e => inl e
          | inr (ts, ns, ks) =>
              inr (t :: ts, Some (var_name (variable arg)) :: ns, kind arg :: ks)
          end
      end
  end.

Definition generated_by_plugin (sym : SymbolTableNode) : option FuncDef :=
  match node sym with
  | Some (NFuncDef f) => if plugin_generated sym then Some f else None
  | _ => None
  end.

Definition _add_method (name : string) (args : list Argument)
    (return_type : Ty) (self_type : option Ty) (tvar_def : option TypeVarDef)
    (is_classmethod : bool) : M unit :=
  info ← get;
  (* First remove any previously generated methods with the same name. *)
  match names info !! name with
  | Some sym =>
      match generated_by_plugin sym with
      | Some f => body_remove f
      | None => mret tt
      end
  | None => mret tt
  end ;;
  first ←
    (if is_classmethod then
       v ← new_Var "cls" None;
       mret (mkArgument v (Some (AnyType implementation_artifact)) None ARG_POS)
     else
       let self_type := default (fill_typevars info) self_type in
       v ← new_Var "self" None;
       mret (mkArgument v (Some self_type) None ARG_POS));
  let args := first :: args in
  let function_type := named_type "__builtins__.function" in
  match split_args args with
  | inl e => raise e
  | inr (arg_types, arg_names, arg_kinds) =>
      let signature :=
        CallableType arg_types arg_kinds arg_names return_type function_type
          None [] in
      let signature :=
        match tvar_def with
        | Some d => set_variables signature [d]
        | None => signature
        end in
      oid ← new_oid;
      let func :=
        mkFuncDef oid name args Block_PassStmt (Some (cls_fullname info))
          is_classmethod
          (Some (set_callable_name signature name
                   (Some (cls_fullname info, cls_name info))))
          (cls_fullname info +:+ "." +:+ name) (cls_line info) in
      (* Keep any existing definition under a unique name. *)
      info' ← get;
      match names info' !! name with
      | Some sym =>
          let r_name := get_unique_redefinition_name name (names info') in
          modify (set_names (λ ns, <[r_name := sym]> ns))
      | None => mret tt
      end ;;
      modify (set_body (λ b, b ++ [SFuncDef func])) ;;
      modify (set_names (λ ns,
        <[name := mkSymbolTableNode MDEF (Some (NFuncDef func)) true]> ns))
  end.

(** ** [_get_class_vars] *)

(** The inner generator: the node bound to every name assigned in the class
    body, [KeyError] for a name that no class of the MRO binds. *)
Fixpoint lvalue_nodes (c : ClassDefContext) (lvals : list Expression)
    : Exception + list (option SymbolNode) :=
  match lvals with
  | [] => inr []
  | NameExpr n :: lvals' =>
      match info_get c n with
      | None => inl (KeyError n)
      | Some sym =>
          match lvalue_nodes c lvals' with
          | inl e => inl e
          | inr ns => inr (node sym :: ns)
          end
      end
  | _ :: lvals' => lvalue_nodes c lvals'
  end.

Fixpoint body_nodes (c : ClassDefContext) (stmts : list Statement)
    : Exception + list (option SymbolNode) :=
  match stmts with
  | [] => inr []
  | AssignmentStmt lvals :: stmts' =>
      match lvalue_nodes c lvals with
      | inl e => inl e
      | inr ns =>
          match body_nodes c stmts' with
          | inl e => inl e
          | inr ns' => inr (ns ++ ns')
          end
      end
  | _ :: stmts' => body_nodes c stmts'
  end.

Definition as_Var (n : option SymbolNode) : option Var :=
  match n with Some (NVar v) => Some v | _ => None end.

Definition _get_class_vars : M (list Var) :=
  c ← get;
  match body_nodes c (body c) with
  | inl e => raise e
  | inr ns => mret (omap as_Var ns)
  end.

(** ** [_add_typevar] *)

Definition _add_typevar (tVarName : string) : M TypeVarDef :=
  typeInfo ← get;
  let tVarQualifiedName := cls_fullname typeInfo +:+ "." +:+ tVarName in
  let objectType := named_type "__builtins__.object" in
  let tVarExpr := mkTypeVarExpr tVarName tVarQualifiedName [] objectType in
  modify (set_names (λ ns,
    <[tVarName := mkSymbolTableNode MDEF (Some (NTypeVarExpr tVarExpr)) false]> ns)) ;;
  mret (mkTypeVarDef tVarName tVarQualifiedName (-1) [] objectType).

(** ** [_callable_type_for_adt_case] *)

Definition _callable_type_for_adt_case (case : Var) (resultType : TypeVarDef) : Ty :=
  let callableType :=
    CallableType [default (AnyType unannotated) (var_type case)] [ARG_POS]
      [None] (TypeVarType resultType) (named_type "__builtins__.function")
      None [] in
  set_variables callableType [resultType].

(** ** [_transform_class] *)

Definition same_Var (v w : Var) : bool := bool_decide (var_oid v = var_oid w).

(** One iteration of the loop over the cases. *)
Definition transform_case (instanceType : Ty) (case : Var) : M unit :=
  match var_type case with
  | None =>
      raise (AssertionError
               "Untyped cases are not currently supported in adt.mypy_plugin")
  | Some case_type =>
      (* Constructor method *)
      _add_method (var_name case)
        [mkArgument case (var_type case) None ARG_POS]
        instanceType None None true ;;
      (* Accessor method (lowercase) *)
      _add_method (lower ucd (var_name case)) [] case_type None None false
  end.

Definition _transform_class : M unit :=
  typeInfo ← get;
  let instanceType := fill_typevars typeInfo in
  assert (is_Instance instanceType) "" ;;
  cases ← _get_class_vars;
  for_each cases (transform_case instanceType) ;;
  matchResultType ← _add_typevar "_MatchResult";
  let caseCallables :=
    dict_comprehension same_Var id
      (λ case, _callable_type_for_adt_case case matchResultType) cases in
  (* [match] method for pattern matching (uses lowercase case names) *)
  matchArgs ← list_comprehension caseCallables (λ '(case, callableType),
    v ← new_Var (lower ucd (var_name case)) (Some callableType);
    mret (mkArgument v (Some callableType) None ARG_NAMED));
  _add_method "match" matchArgs (TypeVarType matchResultType) None
    (Some matchResultType) false.

(** ** [get_class_decorator_hook] *)

Definition get_class_decorator_hook (fullname : string) : option (M unit) :=
  if decide (fullname ≠ _ADT_DECORATOR) then None else Some _transform_class.

(** ** [plugin] *)

(** What [plugin] returns: the plugin class. *)
Inductive PluginClass : Type := ADTPluginClass.

Definition plugin (version : string) : Exception + PluginClass :=
  match Dec.of_string ucd version with
  | None => inl InvalidOperation
  | Some v =>
      match Dec.of_string ucd "0.711" with
      | None => inl InvalidOperation
      | Some floor =>
          match Dec.ge v floor with
          | inl e => inl e
          | inr true => inr ADTPluginClass
          | inr false => inl (AssertionError "")
          end
      end
  end.

(* ===================================================================== *)
(** * Generated signatures, as the specification describes them *)
(* ===================================================================== *)

(** A declared variant: a case variable with its declared type. *)
Record VariantSpec : Type := mkVariant {
  v_name : string;
  declaredType : Ty;
}.

Record ParameterSpec : Type := mkParameter {
  p_name : string;
  p_type : Ty;
  passingMode : ArgKind;
  p_default : option Expression;
}.

Record GeneratedSignature : Type := mkSignature {
  s_name : string;
  parameters : list ParameterSpec;     (* without the receiver *)
  returnType : Ty;
  isClassLevel : bool;
  typeParameters : list TypeVarDef;
}.

Definition variant_of (case : Var) : option VariantSpec :=
  t ← var_type case; Some (mkVariant (var_name case) t).

(** A parameter as the callable type of a function has it: its name, type
    and kind are the entries of [arg_names], [arg_types] and [arg_kinds]; the
    default is that of the argument at the same place. *)
Definition parameter_of (a : Argument) (t : Ty) (n : option string)
    (k : ArgKind) : option ParameterSpec :=
  name ← n; Some (mkParameter name t k (initializer a)).

(** The parameters of a function: its arguments and the three lists of its
    callable type, taken together place by place; none when the four are
    not equally long or a parameter has no name. *)
Fixpoint parameters_of (args : list Argument) (ts : list Ty)
    (ns : list (option string)) (ks : list ArgKind)
    : option (list ParameterSpec) :=
  match args, ts, ns, ks with
  | [], [], [], [] => Some []
  | a :: args', t :: ts', n :: ns', k :: ks' =>
      p ← parameter_of a t n k;
      ps ← parameters_of args' ts' ns' ks';
      Some (p :: ps)
  | _, _, _, _ => None
  end.

(** All parameters that the type of a function ([func.type], the type the
    checker uses at a call) declares, the receiver first. *)
Definition declared_parameters (f : FuncDef) : option (list ParameterSpec) :=
  match func_type f with
  | Some (CallableType ts ks ns _ _ _ _) => parameters_of (arguments f) ts ns ks
  | _ => None
  end.

(** The receiver: the first parameter. *)
Definition receiver_of (f : FuncDef) : option ParameterSpec :=
  ps ← declared_parameters f; head ps.

(** The signature a [FuncDef] of a class declares: the parameters of its
    callable type after the receiver, and the return type and the type
    variables of that type. *)
Definition signature_of (f : FuncDef) : option GeneratedSignature :=
  match func_type f with
  | Some (CallableType _ _ _ ret _ _ tvars) =>
      match declared_parameters f with
      | Some (_ :: ps) =>
          Some (mkSignature (func_name f) ps ret (is_class f) tvars)
      | _ => None
      end
  | _ => None
  end.

(** The arguments of a [FuncDef] and its callable type agree: argument by
    argument, receiver included, the callable type lists the annotation,
    the name of the variable and the kind. *)
Definition callable_agrees (f : FuncDef) : Prop :=
  ∃ ts ks ns ret fb n vs,
    func_type f = Some (CallableType ts ks ns ret fb n vs) ∧
    type_annotation <$> arguments f = Some <$> ts ∧
    (λ a, Some (var_name (variable a))) <$> arguments f = ns ∧
    kind <$> arguments f = ks.

(** The receiver of a classmethod and of an instance method. *)
Definition cls_receiver : ParameterSpec :=
  mkParameter "cls" (AnyType implementation_artifact) ARG_POS None.

Definition self_receiver (enclosingType : Ty) : ParameterSpec :=
  mkParameter "self" enclosingType ARG_POS None.

(** The three shapes of the specification. *)
Definition constructor_signature (enclosingType : Ty) (v : VariantSpec)
    : GeneratedSignature :=
  mkSignature (v_name v) [mkParameter (v_name v) (declaredType v) ARG_POS None]
    enclosingType true [].

Definition accessor_signature (v : VariantSpec) : GeneratedSignature :=
  mkSignature (lower ucd (v_name v)) [] (declaredType v) false [].

(** The type of a handler: a function from the payload to [R]. *)
Definition handler_type (R : TypeVarDef) (v : VariantSpec) : Ty :=
  CallableType [declaredType v] [ARG_POS] [None] (TypeVarType R)
    (named_type "__builtins__.function") None [R].

Definition match_signature (R : TypeVarDef) (vs : list VariantSpec)
    : GeneratedSignature :=
  mkSignature "match"
    ((λ v, mkParameter (lower ucd (v_name v)) (handler_type R v) ARG_NAMED None)
     <$> vs)
    (TypeVarType R) false [R].

(* ===================================================================== *)
(** * Auxiliary definitions

    What the statements below talk about: the pieces of one call of
    [_add_method] and of [_transform_class], the relations between the class
    before and after, and the example classes. *)
(* ===================================================================== *)

(** The floor of the version gate. *)
Definition floor : Dec.Decimal := Dec.Finite false 711 (-3).

(** A decimal that is numerically at least 0.711. *)
Definition at_least_floor (d : Dec.Decimal) : Prop :=
  match d with
  | Dec.Finite neg coeff e => (711 # 1000 <= Dec.to_Q neg coeff e)%Q
  | Dec.Infinity neg => neg = false
  | Dec.NaN _ _ => False
  end.

(** The generated function that [name] is bound to from a previous call. *)
Definition stale (c : ClassDefContext) (name : string) : option FuncDef :=
  names c !! name ≫= generated_by_plugin.

(** The class body once the stale function under [name] is removed; [None]
    when the symbol table has one that the body does not contain. *)
Definition drop_stale (name : string) (c : ClassDefContext)
    : option (list Statement) :=
  match stale c name with
  | Some f => list_remove f (body c)
  | None => Some (body c)
  end.

(** The symbol table once whatever [name] is bound to is also bound to its
    redefinition name. *)
Definition keep_existing (name : string) (ns : gmap string SymbolTableNode)
    : gmap string SymbolTableNode :=
  match ns !! name with
  | Some sym => <[get_unique_redefinition_name name ns := sym]> ns
  | None => ns
  end.

Definition generated (f : FuncDef) : SymbolTableNode :=
  mkSymbolTableNode MDEF (Some (NFuncDef f)) true.

(** The implicit first argument. *)
Definition receiver (c : ClassDefContext) (self_type : option Ty)
    (is_classmethod : bool) : Argument :=
  if is_classmethod
  then mkArgument (mkVar (next_oid c) "cls" None)
         (Some (AnyType implementation_artifact)) None ARG_POS
  else mkArgument (mkVar (next_oid c) "self" None)
         (Some (default (fill_typevars c) self_type)) None ARG_POS.

(** The function object built for a call made in context [c]. *)
Definition built_func (c : ClassDefContext) (name : string)
    (args : list Argument) (return_type : Ty) (self_type : option Ty)
    (tvar_def : option TypeVarDef) (is_classmethod : bool)
    (sig : list Ty * list (option string) * list ArgKind) : FuncDef :=
  let '(arg_types, arg_names, arg_kinds) := sig in
  mkFuncDef (S (next_oid c)) name (receiver c self_type is_classmethod :: args)
    Block_PassStmt (Some (cls_fullname c)) is_classmethod
    (Some (CallableType arg_types arg_kinds arg_names return_type
             (named_type "__builtins__.function")
             (Some (name +:+ " of " +:+
                    callable_class_name (cls_fullname c) (cls_name c)))
             (match tvar_def with Some d => [d] | None => [] end)))
    (cls_fullname c +:+ "." +:+ name) (cls_line c).

Definition add_method_outcome (name : string) (args : list Argument)
    (return_type : Ty) (self_type : option Ty) (tvar_def : option TypeVarDef)
    (is_classmethod : bool) (c : ClassDefContext)
    : ClassDefContext * Outcome unit :=
  match drop_stale name c with
  | None => (c, Raise (ValueError "list.remove(x): x not in list"))
  | Some b =>
      match split_args (receiver c self_type is_classmethod :: args) with
      | inl e => (bump_oid (set_body (λ _, b) c), Raise e)
      | inr sig =>
          let f := built_func c name args return_type self_type tvar_def
                     is_classmethod sig in
          (mkContext (cls_name c) (cls_fullname c) (cls_line c) (type_vars c)
             (tuple_type c) (mro_tail c)
             (<[name := generated f]> (keep_existing name (names c)))
             (b ++ [SFuncDef f]) (S (S (next_oid c))),
           Return tt)
      end
  end.

(** The case variables of the class, as [_get_class_vars] computes them. *)
Definition class_vars (c : ClassDefContext) : Exception + list Var :=
  match body_nodes c (body c) with
  | inl e => inl e
  | inr ns => inr (omap as_Var ns)
  end.

(** The type variable of the class's [match] method and its symbol. *)
Definition type_variable (c : ClassDefContext) (tVarName : string) : TypeVarDef :=
  mkTypeVarDef tVarName (cls_fullname c +:+ "." +:+ tVarName) (-1) []
    (named_type "__builtins__.object").

Definition type_variable_symbol (c : ClassDefContext) (tVarName : string)
    : SymbolTableNode :=
  mkSymbolTableNode MDEF
    (Some (NTypeVarExpr
             (mkTypeVarExpr tVarName (cls_fullname c +:+ "." +:+ tVarName) []
                (named_type "__builtins__.object"))))
    false.

(** The handler arguments of [match], created from identity [oid] on. *)
Fixpoint match_args (oid : nat) (d : list (Var * Ty)) : list Argument :=
  match d with
  | [] => []
  | (case, callableType) :: d' =>
      mkArgument (mkVar oid (lower ucd (var_name case)) (Some callableType))
        (Some callableType) None ARG_NAMED
      :: match_args (S oid) d'
  end.

(** The part of [_transform_class] that follows the loop over the cases. *)
Definition finish (cases : list Var) (s : ClassDefContext)
    : ClassDefContext * Outcome unit :=
  let R := type_variable s "_MatchResult" in
  let s2 := set_names (λ ns,
              <["_MatchResult" := type_variable_symbol s "_MatchResult"]> ns) s in
  let d := dict_comprehension same_Var id
             (λ case, _callable_type_for_adt_case case R) cases in
  _add_method "match" (match_args (next_oid s2) d) (TypeVarType R) None
    (Some R) false (Nat.iter (length d) bump_oid s2).

(** The class is the same: only its symbol table, its body and the identity
    counter may differ. *)
Definition same_class (c c' : ClassDefContext) : Prop :=
  cls_name c' = cls_name c ∧ cls_fullname c' = cls_fullname c ∧
  cls_line c' = cls_line c ∧ type_vars c' = type_vars c ∧
  tuple_type c' = tuple_type c ∧ mro_tail c' = mro_tail c.

(** [c'] is a later state of [c]: no name was unbound. *)
Definition extends (c c' : ClassDefContext) : Prop :=
  same_class c c' ∧ dom (names c) ⊆ dom (names c') ∧ next_oid c ≤ next_oid c'.

Definition typed (a : Argument) : Prop := is_Some (type_annotation a).

(** The state in which [match] is added: the type variable is bound and the
    handler arguments have been created. *)
Definition before_match (cases : list Var) (s : ClassDefContext) : ClassDefContext :=
  Nat.iter
    (length (dict_comprehension same_Var id
               (λ case, _callable_type_for_adt_case case
                          (type_variable s "_MatchResult")) cases))
    bump_oid
    (set_names (λ ns,
       <["_MatchResult" := type_variable_symbol s "_MatchResult"]> ns) s).

Definition int_type : Ty := Instance "builtins.int" [].
Definition str_type : Ty := Instance "builtins.str" [].
Definition bool_type : Ty := Instance "builtins.bool" [].

(** The symbol of a case variable written by the user. *)
Definition declared (v : Var) : SymbolTableNode :=
  mkSymbolTableNode MDEF (Some (NVar v)) false.

(** A class as the semantic analyzer hands it to the plugin for the first
    time: each case variable is bound in the symbol table and assigned in
    the body. *)
Definition fresh_class (fullname : string) (cases : list Var) : ClassDefContext :=
  mkContext "Expr" fullname 7 [] None []
    (list_to_map ((λ v, (var_name v, declared v)) <$> cases))
    ((λ v, AssignmentStmt [NameExpr (var_name v)]) <$> cases)
    (length cases).

(** [class Expr: pass] *)
Definition empty_class : ClassDefContext := fresh_class "m.Expr" [].

(** [class Expr: A: Case[int]; B: Case[str]; C: Case[bool]] *)
Definition abc_class : ClassDefContext :=
  fresh_class "m.Expr"
    [mkVar 0 "A" (Some int_type); mkVar 1 "B" (Some str_type);
     mkVar 2 "C" (Some bool_type)].

(** The signature and the receiver of the method the plugin has bound to
    [name]. *)
Definition generated_signature (c : ClassDefContext) (name : string)
    : option GeneratedSignature :=
  f ← stale c name; signature_of f.

Definition generated_receiver (c : ClassDefContext) (name : string)
    : option ParameterSpec :=
  f ← stale c name; receiver_of f.

(** The parameter an argument object describes by itself. *)
Definition argument_parameter (a : Argument) : option ParameterSpec :=
  t ← type_annotation a;
  Some (mkParameter (var_name (variable a)) t (kind a) (initializer a)).

(** The context left by a run. *)
Definition after (m : M unit) (c : ClassDefContext) : ClassDefContext := (m c).1.

(** The object [f] is one of the statements. *)
Definition in_body (f : FuncDef) (b : list Statement) : Prop :=
  ∃ g, SFuncDef g ∈ b ∧ func_oid g = func_oid f.

(** The symbol table and the body agree on the generated functions, as far
    as names without a dash (the names of Python identifiers) go: such a
    function is in the body, it was created before now, and two names do
    not share one function. *)
Definition consistent (c : ClassDefContext) : Prop :=
  (∀ k f, contains "-" k = false → stale c k = Some f →
     func_oid f < next_oid c ∧ in_body f (body c)) ∧
  (∀ k k' f f', contains "-" k = false → contains "-" k' = false → k ≠ k' →
     stale c k = Some f → stale c k' = Some f' → func_oid f ≠ func_oid f').

(** A class the plugin has not touched yet is consistent. *)
Definition nothing_generated (c : ClassDefContext) : Prop :=
  map_Forall (λ _ sym, plugin_generated sym = false) (names c).

(** A variant the loop accepts: typed, and named by an identifier. *)
Definition well_named (v : Var) : Prop := contains "-" (var_name v) = false.

(** [added f c c']: class [c'] is class [c] with the generated function
    [f] installed.  The function generated earlier under the same name, if
    any, is gone from the body; whatever the name was bound to is bound to
    its redefinition name; the name is bound to [f], marked as generated;
    [f] is the last statement of the body. *)
Definition added (f : FuncDef) (c c' : ClassDefContext) : Prop :=
  callable_agrees f ∧ func_body f = Block_PassStmt ∧
  names c' = <[func_name f := generated f]> (keep_existing (func_name f) (names c)) ∧
  (∃ b, drop_stale (func_name f) c = Some b ∧ body c' = b ++ [SFuncDef f]) ∧
  same_class c c'.

(** [emitted c fs c']: class [c'] is class [c] with the functions [fs]
    installed one after the other, in this order. *)
Inductive emitted : ClassDefContext → list FuncDef → ClassDefContext → Prop :=
  | emitted_nil c : emitted c [] c
  | emitted_cons c f c' fs c'' :
      added f c c' → emitted c' fs c'' → emitted c (f :: fs) c''.

(** The signatures the specification asks for, variant by variant, and the
    receivers that go with them. *)
Definition case_signatures (enclosingType : Ty) (vs : list VariantSpec)
    : list GeneratedSignature :=
  vs ≫= λ v, [constructor_signature enclosingType v; accessor_signature v].

Definition case_receivers (enclosingType : Ty) (vs : list VariantSpec)
    : list ParameterSpec :=
  vs ≫= λ _, [cls_receiver; self_receiver enclosingType].

(** A class the transformation is meant for: it has no tuple type, its case
    variables can be collected, they are typed and named by identifiers, and
    the symbol table agrees with the body on what was generated before. *)
Record ready (c : ClassDefContext) (cases : list Var) : Prop := mkReady {
  ready_instance : is_Instance (fill_typevars c) = true;
  ready_cases : class_vars c = inr cases;
  ready_typed : Forall (λ v, is_Some (var_type v)) cases;
  ready_named : Forall well_named cases;
  ready_consistent : consistent c;
}.

(** A class in which the user wrote a method [A] next to the case [A]:
    the symbol table binds [A] to the method. *)
Definition user_method : FuncDef :=
  mkFuncDef 1 "A" [mkArgument (mkVar 2 "self" None) None None ARG_POS]
    Block_other (Some "m.Expr") false None "m.Expr.A" 9.

Definition class_with_user_method : ClassDefContext :=
  mkContext "Expr" "m.Expr" 7 [] None []
    {[ "A" := mkSymbolTableNode MDEF (Some (NFuncDef user_method)) false ]}
    [AssignmentStmt [NameExpr "A"]; SFuncDef user_method] 3.

Definition untyped_message : string :=
  "Untyped cases are not currently supported in adt.mypy_plugin".

(** [class Expr: A: Case[int]; B = ...], the second case without a type. *)
Definition class_with_untyped_case : ClassDefContext :=
  fresh_class "m.Expr" [mkVar 0 "A" (Some int_type); mkVar 1 "B" None].

(** [class Expr: Ab: Case[int]; AB: Case[str]] *)
Definition class_with_folding_collision : ClassDefContext :=
  fresh_class "m.Expr"
    [mkVar 0 "Ab" (Some int_type); mkVar 1 "AB" (Some str_type)].

(* ===================================================================== *)
(** * Auxiliary definitions for the further properties *)
(* ===================================================================== *)

(** The names assigned, in order, by the plain-name targets of a list of
    assignment targets, and by the assignment statements of a body. *)
Fixpoint lvalue_names (lvals : list Expression) : list string :=
  match lvals with
  | [] => []
  | NameExpr n :: lvals' => n :: lvalue_names lvals'
  | _ :: lvals' => lvalue_names lvals'
  end.

Fixpoint assigned_names (stmts : list Statement) : list string :=
  match stmts with
  | [] => []
  | AssignmentStmt lvals :: stmts' => lvalue_names lvals ++ assigned_names stmts'
  | _ :: stmts' => assigned_names stmts'
  end.

(** The node every name of a list is bound to along the MRO; [KeyError] for
    the first name bound nowhere. *)
Fixpoint lookup_all (c : ClassDefContext) (ns : list string)
    : Exception + list (option SymbolNode) :=
  match ns with
  | [] => inr []
  | n :: ns' =>
      match info_get c n with
      | None => inl (KeyError n)
      | Some sym =>
          match lookup_all c ns' with
          | inl e => inl e
          | inr nodes => inr (node sym :: nodes)
          end
      end
  end.

(** The case variable a name is bound to along the MRO, if it is bound to
    one. *)
Definition var_bound_to (c : ClassDefContext) (n : string) : option Var :=
  info_get c n ≫= λ sym, as_Var (node sym).

(** A symbol whose node is not a variable. *)
Definition not_var (sym : SymbolTableNode) : Prop := as_Var (node sym) = None.

(** The names under which the loop over the cases installs methods. *)
Definition method_names (cases : list Var) : list string :=
  cases ≫= λ v, [var_name v; lower ucd (var_name v)].

(** The statements of a body that are not function definitions. *)
Definition is_function (s : Statement) : bool :=
  match s with SFuncDef _ => true | _ => false end.

Definition non_functions (b : list Statement) : list Statement :=
  filter (λ s, is_function s = false) b.

(** How often a character occurs in a string. *)
Fixpoint count_char (c : ascii) (s : string) : nat :=
  match s with
  | EmptyString => 0
  | String c' s' => (if decide (c = c') then 1 else 0) + count_char c s'
  end.

(** A database that knows some characters beyond ASCII as Python's does:
    [École] is lowercased to [école], the no-break space [U+00A0] is a
    space, and the fullwidth digits [U+FF10] to [U+FF19] are decimal
    digits. *)
Definition sample_lower (s : string) : string :=
  if decide (s = "École") then "école" else s.

Definition sample_todecimal (ch : N) : option (fin 10) :=
  match ch with
  | 65296%N => Some 0%fin | 65297%N => Some 1%fin | 65298%N => Some 2%fin
  | 65299%N => Some 3%fin | 65300%N => Some 4%fin | 65301%N => Some 5%fin
  | 65302%N => Some 6%fin | 65303%N => Some 7%fin | 65304%N => Some 8%fin
  | 65305%N => Some 9%fin
  | _ => None
  end.

Definition sample_unicode : Unicode :=
  mkUnicode sample_lower (λ ch, bool_decide (ch = 160%N)) sample_todecimal
    (λ s H, ltac:(unfold sample_lower; destruct (decide (s = "École"));
                  [reflexivity | exact H])).

(** [class Expr: École: Case[int]] *)
Definition class_with_accented_case : ClassDefContext :=
  fresh_class "m.Expr" [mkVar 0 "École" (Some int_type)].

(** How often a code point occurs in a text. *)
Fixpoint count_code_point (cp : N) (chs : list N) : nat :=
  match chs with
  | [] => 0
  | ch :: chs' => (if decide (cp = ch) then 1 else 0) + count_code_point cp chs'
  end.

(** A class with a tuple type, as a named tuple has. *)
Definition tuple_class : ClassDefContext :=
  mkContext "Point" "m.Point" 3 [] (Some (TupleType [int_type; int_type] int_type))
    [] {[ "A" := declared (mkVar 0 "A" (Some int_type)) ]}
    [AssignmentStmt [NameExpr "A"]] 1.

(** A class whose body assigns [A] and [B] while only [A] is bound. *)
Definition class_with_unbound_name : ClassDefContext :=
  mkContext "Expr" "m.Expr" 7 [] None []
    {[ "A" := declared (mkVar 0 "A" (Some int_type)) ]}
    [AssignmentStmt [NameExpr "A"]; AssignmentStmt [NameExpr "B"]] 1.

(** A class that inherits the case variable [A] from a base class and
    declares [B] itself, between statements of other kinds. *)
Definition class_with_inherited_case : ClassDefContext :=
  mkContext "Expr" "m.Expr" 7 [] None
    [ {[ "A" := declared (mkVar 0 "A" (Some int_type));
         "B" := declared (mkVar 5 "B" (Some bool_type)) ]} ]
    {[ "B" := declared (mkVar 1 "B" (Some str_type));
       "helper" := mkSymbolTableNode MDEF (Some NOther) false ]}
    [PassStmt; AssignmentStmt [NameExpr "A"; OtherExpr];
     AssignmentStmt [NameExpr "helper"]; OtherStmt;
     AssignmentStmt [NameExpr "B"]] 6.

(** A class whose symbol table binds [match] to a generated function that
    the body does not contain. *)
Definition lost_match : FuncDef :=
  mkFuncDef 4 "match" [] Block_PassStmt (Some "m.Expr") false None
    "m.Expr.match" 7.

Definition class_with_lost_match : ClassDefContext :=
  mkContext "Expr" "m.Expr" 7 [] None []
    {[ "match" := generated lost_match ]} [PassStmt] 5.

(** A class in which the user has bound [_MatchResult] and [match]
    himself. *)
Definition class_with_own_match_result : ClassDefContext :=
  mkContext "Expr" "m.Expr" 7 [] None []
    {[ "_MatchResult" := declared (mkVar 0 "_MatchResult" (Some int_type));
       "match" := declared (mkVar 1 "match" (Some int_type)) ]}
    [PassStmt] 2.

(** The class without cases after a method [f] has been generated for it,
    and an argument without annotation. *)
Definition class_with_generated_f : ClassDefContext :=
  after (_add_method "f" [] int_type None None false) empty_class.

Definition untyped_argument : Argument :=
  mkArgument (mkVar 9 "x" None) None None ARG_POS.

(** [settled c c' k]: in the later class [c'] the name [k] is bound as it
    is in [c], or to something that is not a variable. *)
Definition settled (c c' : ClassDefContext) (k : string) : Prop :=
  names c' !! k = names c !! k ∨
  ∃ sym, names c' !! k = Some sym ∧ not_var sym.

(** [class Expr: x: Case[int]], a case with a lowercase name. *)
Definition class_with_lowercase_case : ClassDefContext :=
  fresh_class "m.Expr" [mkVar 0 "x" (Some int_type)].

(** The case variables without their repetitions: each at its first
    occurrence, as the keys of a dictionary keep them. *)
Definition first_occurrences (cases : list Var) : list Var :=
  foldl (λ acc v, if existsb (λ k, same_Var k v) acc then acc else acc ++ [v])
    [] cases.

(** [class Expr: A: Case[int]; B: Case[str]; A: Case[int]], the case [A]
    declared twice. *)
Definition class_with_repeated_case : ClassDefContext :=
  mkContext "Expr" "m.Expr" 7 [] None []
    {[ "A" := declared (mkVar 0 "A" (Some int_type));
       "B" := declared (mkVar 1 "B" (Some str_type)) ]}
    [AssignmentStmt [NameExpr "A"]; AssignmentStmt [NameExpr "B"];
     AssignmentStmt [NameExpr "A"]] 2.


(* ===================================================================== *)
(** * Facts about strings *)
(* ===================================================================== *)

Section strings.

Lemma app_nil (t : string) : "" +:+ t = t.
Proof. reflexivity. Qed.

Lemma app_cons (c : ascii) (s t : string) :
  String c s +:+ t = String c (s +:+ t).
Proof. reflexivity. Qed.

Lemma length_app (s t : string) :
  String.length (s +:+ t) = (String.length s + String.length t)%nat.
Proof.
  induction s as [|c s IH]; [done|].
  rewrite app_cons. simpl. by rewrite IH.
Qed.

Lemma app_assoc_str (s t u : string) : (s +:+ t) +:+ u = s +:+ (t +:+ u).
Proof.
  induction s as [|c s IH]; [done|]. rewrite !app_cons. by rewrite IH.
Qed.

(** A common suffix can be cancelled. *)
Lemma app_inj_suffix (s1 s2 t : string) : s1 +:+ t = s2 +:+ t → s1 = s2.
Proof.
  revert s2. induction s1 as [|c s1 IH]; intros [|c2 s2] H;
    rewrite ?app_cons, ?app_nil in H.
  - done.
  - apply (f_equal String.length) in H. simpl in H. rewrite length_app in H. lia.
  - apply (f_equal String.length) in H. simpl in H. rewrite length_app in H. lia.
  - injection H as -> H. f_equal. by apply IH.
Qed.

Lemma contains_app (c : ascii) (s t : string) :
  contains c (s +:+ t) = contains c s || contains c t.
Proof.
  induction s as [|c' s IH]; [done|].
  rewrite app_cons. simpl. by destruct (decide (c = c')).
Qed.

Lemma lower_ascii_dash (c : ascii) :
  lower_ascii c = "-"%char ↔ c = "-"%char.
Proof.
  unfold lower_ascii.
  destruct (_ && _) eqn:E; [|done].
  apply andb_prop in E as [E1 E2].
  apply Nat.leb_le in E1. apply Nat.leb_le in E2.
  split; intros H.
  - apply (f_equal nat_of_ascii) in H.
    rewrite nat_ascii_embedding in H by lia.
    change (nat_of_ascii "-") with 45%nat in H. lia.
  - subst c. change (nat_of_ascii "-") with 45%nat in E1. lia.
Qed.

(** Folding to lower case neither introduces nor removes a dash in a string
    of ASCII characters. *)
Lemma contains_dash_ascii_lower (s : string) :
  contains "-" (ascii_lower s) = contains "-" s.
Proof.
  induction s as [|c s IH]; simpl; [done|].
  rewrite IH.
  destruct (decide ("-"%char = lower_ascii c)) as [E|E],
           (decide ("-"%char = c)) as [E'|E']; try done.
  - symmetry in E. apply (proj1 (lower_ascii_dash c)) in E. congruence.
  - subst c. exfalso. apply E. reflexivity.
Qed.

(** The lowercase form of a string without a dash has no dash. *)
Lemma contains_dash_lower (s : string) :
  contains "-" s = false → contains "-" (lower ucd s) = false.
Proof.
  intros H. unfold lower. destruct (isascii s).
  - by rewrite contains_dash_ascii_lower.
  - by apply unicode_lower_dash.
Qed.

End strings.

(* ===================================================================== *)
(** * Facts about [get_unique_redefinition_name] *)
(* ===================================================================== *)

Section redefinition.
Context {V : Type}.
Implicit Types (existing : gmap string V) (name r_name : string).

(** The candidates tried by the loop are pairwise different. *)
Lemma candidate_inj r_name i j : r_name +:+ str i = r_name +:+ str j → i = j.
Proof.
  intros H. apply (inj (String.app r_name)) in H.
  by apply (inj (pretty : nat → string)) in H.
Qed.

(** The loop stops at the first index at or after [i] whose candidate is
    free, provided it has more fuel than there are taken candidates. *)
Lemma redefinition_loop_spec fuel r_name existing i (seen : gset string) :
  seen ⊆ dom existing →
  (∀ j, i ≤ j → r_name +:+ str j ∉ seen) →
  size existing < fuel + size seen →
  ∃ j, i ≤ j ∧
    redefinition_loop fuel r_name existing i = r_name +:+ str j ∧
    existing !! (r_name +:+ str j) = None ∧
    ∀ k, i ≤ k < j → is_Some (existing !! (r_name +:+ str k)).
Proof.
  revert i seen. induction fuel as [|fuel IH]; intros i seen Hsub Hnew Hsize.
  - apply subseteq_size in Hsub. rewrite size_dom in Hsub. lia.
  - simpl. destruct (decide (is_Some (existing !! (r_name +:+ str i)))) as [Hin|Hout].
    + destruct (IH (S i) ({[ r_name +:+ str i ]} ∪ seen)) as (j & Hj & Heq & Hfree & Hmin).
      * apply union_subseteq. split; [|done].
        apply singleton_subseteq_l. by apply elem_of_dom.
      * intros j Hj [Hj'|Hj']%elem_of_union.
        -- apply elem_of_singleton in Hj'. apply candidate_inj in Hj'. lia.
        -- apply (Hnew j); [lia | done].
      * rewrite size_union; [rewrite size_singleton; lia|].
        apply disjoint_singleton_l. apply Hnew. lia.
      * exists j. split; [lia|]. split; [done|]. split; [done|].
        intros k Hk. destruct (decide (k = i)) as [->|]; [done|].
        apply Hmin. lia.
    + exists i. split; [lia|]. split; [done|]. split.
      * by apply eq_None_not_Some.
      * intros k Hk. lia.
Qed.

(** The shape and freshness of the redefinition name: [name-redefinition]
    when that is free, and otherwise [name-redefinition] followed by the
    least number from 2 on that makes it free. *)
Lemma get_unique_redefinition_name_spec name existing :
  let r := get_unique_redefinition_name name existing in
  existing !! r = None ∧
  (r = name +:+ "-redefinition" ∨
   is_Some (existing !! (name +:+ "-redefinition")) ∧
   ∃ j, 2 ≤ j ∧ r = (name +:+ "-redefinition") +:+ str j ∧
        ∀ k, 2 ≤ k < j →
          is_Some (existing !! ((name +:+ "-redefinition") +:+ str k))).
Proof.
  unfold get_unique_redefinition_name. cbv zeta.
  destruct (decide (is_Some (existing !! (name +:+ "-redefinition")))) as [Hin|Hout].
  - destruct (redefinition_loop_spec (S (size existing))
                (name +:+ "-redefinition") existing 2 ∅)
      as (j & Hj & Heq & Hfree & Hmin).
    + apply empty_subseteq.
    + intros j _. apply not_elem_of_empty.
    + rewrite size_empty. lia.
    + rewrite Heq. split; [done|]. right. split; [done|].
      exists j. done.
  - split; [by apply eq_None_not_Some | by left].
Qed.

Lemma get_unique_redefinition_name_fresh name existing :
  existing !! get_unique_redefinition_name name existing = None.
Proof. apply get_unique_redefinition_name_spec. Qed.

Lemma get_unique_redefinition_name_dash name existing :
  contains "-" (get_unique_redefinition_name name existing) = true.
Proof.
  destruct (get_unique_redefinition_name_spec name existing)
    as (_ & [-> | (_ & j & _ & -> & _)]).
  - rewrite contains_app. apply orb_true_intro. by right.
  - rewrite !contains_app. apply orb_true_intro. left.
    apply orb_true_intro. by right.
Qed.

End redefinition.

(* ===================================================================== *)
(** * What one call of [_add_method] does to the class *)
(* ===================================================================== *)

Ltac run_M :=
  unfold mbind, M_bind, mret, M_ret, get, modify, raise, new_Var, new_oid,
    body_remove, assert in *; simpl in *.

Lemma _add_method_eq name args return_type self_type tvar_def is_classmethod c :
  _add_method name args return_type self_type tvar_def is_classmethod c =
  add_method_outcome name args return_type self_type tvar_def is_classmethod c.
Proof.
  destruct c as [cn cf cl tvs tt' mro ns b oid].
  unfold _add_method, add_method_outcome, drop_stale, stale, keep_existing.
  run_M.
  destruct (ns !! name) as [sym|] eqn:Hsym; simpl;
    [destruct (generated_by_plugin sym) as [f|] eqn:Hgen; simpl;
       [run_M; destruct (list_remove f b) as [b'|] eqn:Hrem; simpl; [|done]|]|];
    destruct is_classmethod; simpl;
    (destruct (split_args args) as [e|[[ts nms] ks]]; simpl; [done|]);
    rewrite Hsym; simpl; by destruct tvar_def.
Qed.

(* ===================================================================== *)
(** * The version gate *)
(* ===================================================================== *)

Section version_gate.
Import Dec.

Lemma ten_power_pos (e : Z) : (0 < 10 ^ e)%Q.
Proof. by apply Qpower_0_lt. Qed.

(** A number at exponent [e + d] is an integer at exponent [e]. *)
Lemma to_Q_rescale neg coeff (e d : Z) :
  (0 <= d)%Z →
  (to_Q neg coeff (e + d) == inject_Z (signed neg coeff * 10 ^ d) * 10 ^ e)%Q.
Proof.
  intros Hd. unfold to_Q.
  rewrite inject_Z_mult, (Zpower_Qpower 10 d Hd).
  rewrite (Z.add_comm e d), Qpower_plus by done.
  change (inject_Z 10) with 10%Q. ring.
Qed.

(** The comparison of finite decimals is the order of the rationals they
    denote. *)
Lemma cmp_not_Lt_finite na ca ea nb cb eb :
  cmp (Finite na ca ea) (Finite nb cb eb) ≠ Lt ↔
  (to_Q nb cb eb <= to_Q na ca ea)%Q.
Proof.
  simpl. set (e := Z.min ea eb).
  replace ea with (e + (ea - e))%Z at 2 by lia.
  replace eb with (e + (eb - e))%Z at 2 by lia.
  rewrite !to_Q_rescale by lia.
  rewrite Qmult_le_r by apply ten_power_pos.
  rewrite <- Zle_Qle.
  rewrite Z.compare_lt_iff. lia.
Qed.

Lemma floor_of_string : of_string ucd "0.711" = Some floor.
Proof. by vm_compute. Qed.

Lemma floor_value : (to_Q false 711 (-3) == 711 # 1000)%Q.
Proof. reflexivity. Qed.

Lemma ge_floor d : ge d floor = inr true ↔ at_least_floor d.
Proof.
  destruct d as [neg coeff e|neg|neg sg]; unfold ge, floor.
  - change (is_nan _ || is_nan _) with false. cbv iota.
    unfold at_least_floor. rewrite <- floor_value.
    rewrite <- cmp_not_Lt_finite.
    destruct (cmp _ _); split; intros H; try done; by destruct H.
  - destruct neg; simpl; split; intros H; done.
  - simpl. split; intros H; done.
Qed.

End version_gate.

(** C7.  [plugin(version)] returns the plugin class exactly when [version]
    reads as a decimal number that is numerically at least 0.711; the
    comparison is by value, so [0.8] and [00.7110] pass while [1e-5] does
    not, although it is the larger string.  A rejected version makes
    [plugin] itself raise, so nothing is registered: ["0.700"] is rejected,
    ["0.711"] is accepted.  How a string reads is [Decimal]'s business:
    digits and spaces of other scripts are read as the Unicode database
    has them, and a number beyond the limits of [decimal], such as
    [1e1000000000000000000], does not read at all. *)
Theorem plugin_version_gate (version : string) :
  (plugin version = inr ADTPluginClass ↔
   ∃ d, Dec.of_string ucd version = Some d ∧ at_least_floor d) ∧
  (¬ (∃ d, Dec.of_string ucd version = Some d ∧ at_least_floor d) →
   ∃ e, plugin version = inl e) ∧
  plugin "0.700" = inl (AssertionError "") ∧
  plugin "0.711" = inr ADTPluginClass ∧
  plugin "0.8" = inr ADTPluginClass ∧
  plugin "00.7110" = inr ADTPluginClass ∧
  plugin "1e-5" = inl (AssertionError "") ∧
  plugin "1e1000000000000000000" = inl InvalidOperation ∧
  String.leb "0.711" "1e-5" = true.
Proof.
  assert (plugin version = inr ADTPluginClass ↔
          ∃ d, Dec.of_string ucd version = Some d ∧ at_least_floor d) as Hiff.
  { unfold plugin. rewrite floor_of_string.
    destruct (Dec.of_string ucd version) as [d|];
      [|split; [done | by intros (d & ? & _)]].
    split.
    - intros H. exists d. split; [done|]. apply ge_floor.
      destruct (Dec.ge d floor) as [e|[]]; done.
    - intros (d' & [= <-] & H). apply ge_floor in H. by rewrite H. }
  split; [done|]. split; [|by vm_compute].
  intros Hno. destruct (plugin version) as [e|[]]; [by eexists|].
  destruct Hno. by apply Hiff.
Qed.

(* ===================================================================== *)
(** * The decorator hook *)
(* ===================================================================== *)

(** C8.  [get_class_decorator_hook(fullname)] returns the class
    transformation if and only if [fullname] is exactly
    ['adt.decorator.adt'], and [None] for every other name. *)
Theorem get_class_decorator_hook_exact (fullname : string) :
  (get_class_decorator_hook fullname = Some _transform_class ↔
   fullname = "adt.decorator.adt") ∧
  (get_class_decorator_hook fullname = None ↔
   fullname ≠ "adt.decorator.adt").
Proof.
  unfold get_class_decorator_hook, _ADT_DECORATOR.
  destruct (decide (fullname ≠ "adt.decorator.adt")) as [Hne|Heq].
  - split; split; intros H; done.
  - apply dec_stable in Heq. split; split; intros H; done.
Qed.

(* ===================================================================== *)
(** * The steps of [_transform_class] *)
(* ===================================================================== *)

Lemma _get_class_vars_eq c :
  _get_class_vars c =
  (c, match class_vars c with inl e => Raise e | inr vs => Return vs end).
Proof.
  unfold _get_class_vars, class_vars. run_M.
  by destruct (body_nodes c (body c)).
Qed.

Lemma _add_typevar_eq c tVarName :
  _add_typevar tVarName c =
  (set_names (λ ns, <[tVarName := type_variable_symbol c tVarName]> ns) c,
   Return (type_variable c tVarName)).
Proof. reflexivity. Qed.

Lemma matchArgs_eq (d : list (Var * Ty)) c :
  list_comprehension d (λ '(case, callableType),
    v ← new_Var (lower ucd (var_name case)) (Some callableType);
    mret (mkArgument v (Some callableType) None ARG_NAMED)) c =
  (Nat.iter (length d) bump_oid c, Return (match_args (next_oid c) d)).
Proof.
  revert c. induction d as [|[case t] d IH]; intros c; [done|].
  simpl. run_M. rewrite IH. simpl.
  f_equal. clear IH. induction (length d) as [|n IHn]; [done|].
  simpl. by rewrite <- IHn.
Qed.

Lemma _transform_class_eq c :
  _transform_class c =
  if is_Instance (fill_typevars c) then
    match class_vars c with
    | inl e => (c, Raise e)
    | inr cases =>
        match for_each cases (transform_case (fill_typevars c)) c with
        | (s, Return _) => finish cases s
        | (s, Raise e) => (s, Raise e)
        end
    end
  else (c, Raise (AssertionError "")).
Proof.
  unfold _transform_class.
  unfold mbind at 1, M_bind at 1, get at 1. cbv beta iota.
  unfold mbind at 1, M_bind at 1, assert.
  destruct (is_Instance (fill_typevars c)); [|done].
  unfold mret at 1, M_ret at 1. cbv beta iota.
  unfold mbind at 1, M_bind at 1. rewrite _get_class_vars_eq.
  destruct (class_vars c) as [e|cases]; [done|].
  unfold mbind at 1, M_bind at 1.
  destruct (for_each cases _ c) as [s [[]|e]]; [|done].
  unfold mbind at 1, M_bind at 1. rewrite _add_typevar_eq.
  unfold mbind at 1, M_bind at 1. rewrite matchArgs_eq.
  reflexivity.
Qed.

(* ===================================================================== *)
(** * What the transformation never changes, and what only grows *)
(* ===================================================================== *)

Lemma same_class_refl c : same_class c c.
Proof. by repeat split. Qed.

Lemma same_class_trans c1 c2 c3 :
  same_class c1 c2 → same_class c2 c3 → same_class c1 c3.
Proof.
  intros (?&?&?&?&?&?) (?&?&?&?&?&?). repeat split; congruence.
Qed.

Lemma same_class_fill_typevars c c' :
  same_class c c' → fill_typevars c' = fill_typevars c.
Proof.
  intros (?&Hf&?&Hv&Ht&?). unfold fill_typevars. by rewrite Hf, Hv, Ht.
Qed.

Lemma extends_refl c : extends c c.
Proof. split; [apply same_class_refl|]. split; [done | lia]. Qed.

Lemma extends_trans c1 c2 c3 : extends c1 c2 → extends c2 c3 → extends c1 c3.
Proof.
  intros (?&?&?) (?&?&?). split; [by eapply same_class_trans|].
  split; [set_solver | lia].
Qed.

Lemma same_class_iter_bump n c : same_class c (Nat.iter n bump_oid c).
Proof.
  induction n as [|n IH]; [apply same_class_refl|].
  simpl. destruct IH as (?&?&?&?&?&?). by repeat split.
Qed.

Lemma names_iter_bump n c : names (Nat.iter n bump_oid c) = names c.
Proof. induction n as [|n IH]; [done | by simpl]. Qed.

Lemma body_iter_bump n c : body (Nat.iter n bump_oid c) = body c.
Proof. induction n as [|n IH]; [done | by simpl]. Qed.

Lemma next_oid_iter_bump n c : next_oid (Nat.iter n bump_oid c) = n + next_oid c.
Proof. induction n as [|n IH]; [done | simpl; by rewrite IH]. Qed.

Lemma keep_existing_lookup name ns k sym :
  ns !! k = Some sym → keep_existing name ns !! k = Some sym.
Proof.
  intros Hk. unfold keep_existing.
  destruct (ns !! name) as [old|] eqn:Hold; [|done].
  rewrite lookup_insert_ne; [done|].
  intros <-. by rewrite get_unique_redefinition_name_fresh in Hk.
Qed.

Lemma keep_existing_dom name ns : dom ns ⊆ dom (keep_existing name ns).
Proof.
  intros k [sym Hk]%elem_of_dom. apply elem_of_dom.
  exists sym. by apply keep_existing_lookup.
Qed.

(** A name without a dash is bound to what it was bound to. *)
Lemma keep_existing_lookup_no_dash name ns k :
  contains "-" k = false → keep_existing name ns !! k = ns !! k.
Proof.
  intros Hk. unfold keep_existing.
  destruct (ns !! name) as [old|] eqn:Hold; [|done].
  rewrite lookup_insert_ne; [done|].
  intros <-. by rewrite get_unique_redefinition_name_dash in Hk.
Qed.

Lemma split_args_typed args :
  Forall typed args → ∃ sig, split_args args = inr sig.
Proof.
  induction 1 as [|a args [t Ht] _ [[[ts ns] ks] IH]]; [by eexists|].
  simpl. rewrite Ht, IH. by eexists.
Qed.

Lemma receiver_typed c self_type is_classmethod :
  typed (receiver c self_type is_classmethod).
Proof. unfold receiver. destruct is_classmethod; by eexists. Qed.

(** A call that returns: the stale function was in the body, every argument
    was annotated, and the class is changed as follows. *)
Lemma _add_method_Return name args rt st tv ic c c' :
  _add_method name args rt st tv ic c = (c', Return tt) →
  ∃ b sig,
    drop_stale name c = Some b ∧
    split_args (receiver c st ic :: args) = inr sig ∧
    names c' = <[name := generated (built_func c name args rt st tv ic sig)]>
                 (keep_existing name (names c)) ∧
    body c' = b ++ [SFuncDef (built_func c name args rt st tv ic sig)] ∧
    next_oid c' = S (S (next_oid c)) ∧
    same_class c c'.
Proof.
  rewrite _add_method_eq. unfold add_method_outcome.
  destruct (drop_stale name c) as [b|]; [|done].
  destruct (split_args _) as [e|sig]; [done|].
  intros [= <-]. exists b, sig. repeat split; done.
Qed.

(** A call returns when the stale function, if any, is in the body and the
    arguments are annotated. *)
Lemma _add_method_returns name args rt st tv ic c :
  is_Some (drop_stale name c) → Forall typed args →
  ∃ c', _add_method name args rt st tv ic c = (c', Return tt).
Proof.
  intros [b Hb] Hargs. rewrite _add_method_eq. unfold add_method_outcome.
  rewrite Hb.
  destruct (split_args_typed (receiver c st ic :: args)) as [sig ->];
    [constructor; [apply receiver_typed | done]|].
  by eexists.
Qed.

Lemma _add_method_extends name args rt st tv ic c c' o :
  _add_method name args rt st tv ic c = (c', o) → extends c c'.
Proof.
  rewrite _add_method_eq. unfold add_method_outcome.
  destruct (drop_stale name c) as [b|]; [|intros [= <- _]; apply extends_refl].
  destruct (split_args _) as [e|sig]; intros [= <- _].
  - split; [by repeat split|]. split; [done | simpl; lia].
  - split; [by repeat split|]. simpl. split; [|lia].
    rewrite dom_insert. pose proof (keep_existing_dom name (names c)). set_solver.
Qed.

Lemma transform_case_extends I case c c' o :
  transform_case I case c = (c', o) → extends c c'.
Proof.
  unfold transform_case. destruct (var_type case) as [t|].
  - unfold mbind, M_bind.
    destruct (_add_method (var_name case) _ _ _ _ _ c) as [s [[]|e]] eqn:H1.
    + intros H2. eapply extends_trans; by eapply _add_method_extends.
    + intros [= <- _]. by eapply _add_method_extends.
  - intros [= <- _]. apply extends_refl.
Qed.

Lemma for_each_extends I cases c c' o :
  for_each cases (transform_case I) c = (c', o) → extends c c'.
Proof.
  revert c. induction cases as [|case cases IH]; intros c; simpl.
  - intros [= <- _]. apply extends_refl.
  - unfold mbind, M_bind.
    destruct (transform_case I case c) as [s [[]|e]] eqn:H1.
    + intros H2. eapply extends_trans; [by eapply transform_case_extends | by eapply IH].
    + intros [= <- _]. by eapply transform_case_extends.
Qed.

(** Unfolding a loop that returns. *)
Lemma for_each_cons_Return I case cases c c' :
  for_each (case :: cases) (transform_case I) c = (c', Return tt) →
  ∃ s, transform_case I case c = (s, Return tt) ∧
       for_each cases (transform_case I) s = (c', Return tt).
Proof.
  simpl. unfold mbind, M_bind.
  destruct (transform_case I case c) as [s [[]|e]]; [|done]. by exists s.
Qed.

(* ===================================================================== *)
(** * The last step: the type variable and [match] *)
(* ===================================================================== *)

Lemma before_match_names cases s :
  names (before_match cases s) =
  <["_MatchResult" := type_variable_symbol s "_MatchResult"]> (names s).
Proof. unfold before_match. by rewrite names_iter_bump. Qed.

Lemma before_match_body cases s : body (before_match cases s) = body s.
Proof. unfold before_match. by rewrite body_iter_bump. Qed.

Lemma before_match_same_class cases s : same_class s (before_match cases s).
Proof.
  unfold before_match. eapply same_class_trans; [|apply same_class_iter_bump].
  by repeat split.
Qed.

Lemma before_match_extends cases s : extends s (before_match cases s).
Proof.
  split; [apply before_match_same_class|]. split.
  - rewrite before_match_names, dom_insert. set_solver.
  - unfold before_match. rewrite next_oid_iter_bump. simpl. lia.
Qed.

Lemma before_match_drop_stale cases s :
  drop_stale "match" (before_match cases s) = drop_stale "match" s.
Proof.
  unfold drop_stale, stale.
  rewrite before_match_names, before_match_body.
  by rewrite lookup_insert_ne.
Qed.

Lemma finish_eq cases s :
  finish cases s =
  _add_method "match"
    (match_args (next_oid s)
       (dict_comprehension same_Var id
          (λ case, _callable_type_for_adt_case case
                     (type_variable s "_MatchResult")) cases))
    (TypeVarType (type_variable s "_MatchResult")) None
    (Some (type_variable s "_MatchResult")) false (before_match cases s).
Proof. reflexivity. Qed.

Lemma match_args_typed oid d : Forall typed (match_args oid d).
Proof.
  revert oid. induction d as [|[case t] d IH]; intros oid; simpl; [done|].
  constructor; [by eexists | apply IH].
Qed.

Lemma finish_extends cases s c' o : finish cases s = (c', o) → extends s c'.
Proof.
  rewrite finish_eq. intros H. eapply extends_trans;
    [apply before_match_extends | by eapply _add_method_extends].
Qed.

(** The transformation, when it returns, went through the loop and the last
    step. *)
Lemma _transform_class_Return c c' :
  _transform_class c = (c', Return tt) →
  ∃ cases s,
    is_Instance (fill_typevars c) = true ∧
    class_vars c = inr cases ∧
    for_each cases (transform_case (fill_typevars c)) c = (s, Return tt) ∧
    finish cases s = (c', Return tt).
Proof.
  rewrite _transform_class_eq.
  destruct (is_Instance (fill_typevars c)); [|done].
  destruct (class_vars c) as [e|cases]; [done|].
  destruct (for_each cases _ c) as [s [[]|e]] eqn:Hloop; [|done].
  intros H. by exists cases, s.
Qed.

Lemma _transform_class_extends c c' o :
  _transform_class c = (c', o) → extends c c'.
Proof.
  rewrite _transform_class_eq.
  destruct (is_Instance (fill_typevars c)); [|intros [= <- _]; apply extends_refl].
  destruct (class_vars c) as [e|cases]; [intros [= <- _]; apply extends_refl|].
  destruct (for_each cases _ c) as [s [[]|e]] eqn:Hloop.
  - intros H. eapply extends_trans; [by eapply for_each_extends | by eapply finish_extends].
  - intros [= <- _]. by eapply for_each_extends.
Qed.

(* ===================================================================== *)
(** * Running the transformation twice *)
(* ===================================================================== *)

(** C1.  Two runs in succession do not leave the symbol table as one run
    does: the second run binds at least one name that the first run left
    unbound.  The function generated for [match] by the first run is taken
    out of the class body, but its symbol stays in the table and is treated
    as an existing definition: it is bound again under a fresh
    [match-redefinition...] name, on every further run. *)
Theorem second_run_grows_symbol_table (c c1 c2 : ClassDefContext) :
  _transform_class c = (c1, Return tt) →
  _transform_class c1 = (c2, Return tt) →
  dom (names c1) ⊆ dom (names c2) ∧
  ∃ r, names c1 !! r = None ∧ names c1 !! r ≠ names c2 !! r ∧
       ∃ sym, names c2 !! r = Some sym.
Proof.
  intros H1 H2.
  split; [by apply _transform_class_extends in H2 as (_ & ? & _)|].
  (* after the first run, [match] is bound *)
  apply _transform_class_Return in H1 as (cases1 & s1 & _ & _ & _ & Hfin1).
  rewrite finish_eq in Hfin1.
  apply _add_method_Return in Hfin1 as (b1 & sig1 & _ & _ & Hnames1 & _).
  assert (is_Some (names c1 !! "match")) as Hmatch1.
  { rewrite Hnames1, lookup_insert_eq. by eexists. }
  (* it still is when the second run reaches its last step *)
  apply _transform_class_Return in H2 as (cases2 & s2 & _ & _ & Hloop2 & Hfin2).
  apply for_each_extends in Hloop2 as (_ & Hdom2 & _).
  pose proof (before_match_extends cases2 s2) as (_ & Hdom2' & _).
  rewrite finish_eq in Hfin2.
  apply _add_method_Return in Hfin2 as (b2 & sig2 & _ & _ & Hnames2 & _).
  set (ns := names (before_match cases2 s2)) in *.
  assert (dom (names c1) ⊆ dom ns) as Hsub by set_solver.
  destruct (ns !! "match") as [sym|] eqn:Hsym.
  2: { apply elem_of_dom in Hmatch1. apply Hsub in Hmatch1.
       apply elem_of_dom in Hmatch1 as [? ?]. congruence. }
  set (r := get_unique_redefinition_name "match" ns).
  assert (ns !! r = None) as Hfresh by apply get_unique_redefinition_name_fresh.
  assert (names c1 !! r = None) as Hr1.
  { apply not_elem_of_dom. intros Hin. apply Hsub in Hin.
    by apply not_elem_of_dom in Hfresh. }
  assert ("match" ≠ r) as Hne by (intros E; rewrite <- E in Hfresh; congruence).
  assert (names c2 !! r = Some sym) as Hr2.
  { rewrite Hnames2. unfold keep_existing. rewrite Hsym.
    rewrite lookup_insert_ne by done. apply lookup_insert_eq. }
  exists r. split; [done|]. split; [congruence|]. by exists sym.
Qed.

(* ===================================================================== *)
(** * When the transformation returns *)
(* ===================================================================== *)

Lemma list_remove_in_body f b : in_body f b → is_Some (list_remove f b).
Proof.
  intros (g & Hg & Hoid). induction b as [|s b IH]; [by apply elem_of_nil in Hg|].
  simpl. destruct (is_object f s) eqn:Hs; [by eexists|].
  apply elem_of_cons in Hg as [<-|Hg].
  - simpl in Hs. by rewrite bool_decide_eq_false in Hs.
  - destruct (IH Hg) as [b' ->]. by eexists.
Qed.

Lemma list_remove_other f g b b' :
  list_remove f b = Some b' → func_oid g ≠ func_oid f →
  in_body g b → in_body g b'.
Proof.
  revert b'. induction b as [|s b IH]; intros b' Hrem Hne (h & Hh & Hoid); [done|].
  simpl in Hrem. destruct (is_object f s) eqn:Hs.
  - injection Hrem as <-. apply elem_of_cons in Hh as [<-|Hh]; [|by exists h].
    simpl in Hs. rewrite bool_decide_eq_true in Hs. congruence.
  - destruct (list_remove f b) as [b''|] eqn:Hb; [|done].
    injection Hrem as <-.
    apply elem_of_cons in Hh as [<-|Hh].
    + exists h. split; [apply elem_of_cons; by left | done].
    + destruct (IH b'' eq_refl Hne) as (h' & Hh' & Hoid'); [by exists h|].
      exists h'. split; [apply elem_of_cons; by right | done].
Qed.

Lemma in_body_app_l f b b' : in_body f b → in_body f (b ++ b').
Proof. intros (g & Hg & Hoid). exists g. split; [|done]. apply elem_of_app. by left. Qed.

Lemma nothing_generated_stale c k : nothing_generated c → stale c k = None.
Proof.
  intros Hc. unfold stale. destruct (names c !! k) as [sym|] eqn:Hk; [|done].
  simpl. unfold generated_by_plugin. rewrite (Hc k sym Hk).
  by destruct (node sym) as [[]|].
Qed.

Lemma nothing_generated_consistent c : nothing_generated c → consistent c.
Proof.
  intros Hc. split.
  - intros k f _ Hk. by rewrite nothing_generated_stale in Hk.
  - intros k k' f f' _ _ _ Hk. by rewrite nothing_generated_stale in Hk.
Qed.

Lemma consistent_drop_stale c name :
  contains "-" name = false → consistent c → is_Some (drop_stale name c).
Proof.
  intros Hname [Hin _]. unfold drop_stale.
  destruct (stale c name) as [f|] eqn:Hf; [|by eexists].
  apply list_remove_in_body. by eapply Hin.
Qed.

(** A name without a dash is bound, after a returning call, to the new
    function if it is the added name and to what it was bound to if not. *)
Lemma stale_after_add name f ns c' k :
  contains "-" k = false →
  names c' = <[name := generated f]> (keep_existing name ns) →
  stale c' k = if decide (k = name) then Some f else ns !! k ≫= generated_by_plugin.
Proof.
  intros Hk Hnames. unfold stale. rewrite Hnames.
  destruct (decide (k = name)) as [->|Hne].
  - by rewrite lookup_insert_eq.
  - rewrite lookup_insert_ne by done.
    by rewrite keep_existing_lookup_no_dash.
Qed.

Lemma _add_method_consistent name args rt st tv ic c :
  contains "-" name = false → consistent c → Forall typed args →
  ∃ c', _add_method name args rt st tv ic c = (c', Return tt) ∧ consistent c'.
Proof.
  intros Hname Hc Hargs.
  destruct (_add_method_returns name args rt st tv ic c) as [c' Hrun];
    [by apply consistent_drop_stale | done |].
  exists c'. split; [done|].
  apply _add_method_Return in Hrun as (b & sig & Hb & _ & Hnames & Hbody & Hoid & _).
  set (f := built_func c name args rt st tv ic sig) in *.
  assert (func_oid f = S (next_oid c)) as Hf by (unfold f; by destruct sig as [[??]?]).
  destruct Hc as [Hin Hdiff].
  assert (∀ k g, contains "-" k = false → k ≠ name → stale c k = Some g →
                 in_body g b) as Hkept.
  { intros k g Hk Hne Hg. unfold drop_stale in Hb.
    destruct (stale c name) as [old|] eqn:Hold.
    - eapply list_remove_other; [done | by eapply (Hdiff k name) | by eapply Hin].
    - injection Hb as <-. by eapply Hin. }
  split.
  - intros k g Hk Hg. rewrite (stale_after_add name f (names c)) in Hg by done.
    rewrite Hoid, Hbody. destruct (decide (k = name)) as [->|Hne].
    + injection Hg as <-. split; [lia|].
      exists f. split; [|done]. apply elem_of_app. right. by apply list_elem_of_singleton.
    + split; [apply (Hin k g Hk) in Hg; lia|].
      apply in_body_app_l. by eapply Hkept.
  - intros k k' g g' Hk Hk' Hne Hg Hg'.
    rewrite (stale_after_add name f (names c)) in Hg by done.
    rewrite (stale_after_add name f (names c)) in Hg' by done.
    destruct (decide (k = name)) as [->|Hkn], (decide (k' = name)) as [->|Hkn'].
    + done.
    + injection Hg as <-. apply (Hin k' g' Hk') in Hg'. lia.
    + injection Hg' as <-. apply (Hin k g Hk) in Hg. lia.
    + by eapply (Hdiff k k').
Qed.

Lemma transform_case_consistent I case c :
  is_Some (var_type case) → well_named case → consistent c →
  ∃ c', transform_case I case c = (c', Return tt) ∧ consistent c'.
Proof.
  intros [t Ht] Hname Hc. unfold transform_case. rewrite Ht.
  destruct (_add_method_consistent (var_name case)
              [mkArgument case (Some t) None ARG_POS] I None None true c)
    as (s & Hs & Hcs); [done | done | repeat constructor; by eexists |].
  destruct (_add_method_consistent (lower ucd (var_name case)) [] t None None false s)
    as (c' & Hc' & Hcc'); [by apply contains_dash_lower | done | constructor |].
  exists c'. split; [|done].
  unfold mbind, M_bind. by rewrite Hs.
Qed.

Lemma for_each_consistent I cases c :
  Forall (λ v, is_Some (var_type v)) cases → Forall well_named cases →
  consistent c →
  ∃ c', for_each cases (transform_case I) c = (c', Return tt) ∧ consistent c'.
Proof.
  intros Ht. revert c. induction Ht as [|case cases Hcase _ IH]; intros c Hn Hc.
  - by exists c.
  - apply Forall_cons_1 in Hn as [Hn Hns].
    destruct (transform_case_consistent I case c) as (s & Hs & Hcs); [done..|].
    destruct (IH s Hns Hcs) as (c' & Hc' & Hcc').
    exists c'. split; [|done]. simpl. unfold mbind, M_bind. by rewrite Hs.
Qed.

Lemma before_match_consistent cases s :
  consistent s → consistent (before_match cases s).
Proof.
  intros [Hin Hdiff].
  assert (∀ k f, stale (before_match cases s) k = Some f → stale s k = Some f) as Hst.
  { intros k f. unfold stale. rewrite before_match_names.
    destruct (decide (k = "_MatchResult")) as [->|Hne].
    - by rewrite lookup_insert_eq.
    - by rewrite lookup_insert_ne. }
  split.
  - intros k f Hk Hf%Hst. rewrite before_match_body.
    destruct (Hin k f Hk Hf) as [Hlt ?]. split; [|done].
    pose proof (before_match_extends cases s) as (_ & _ & ?). lia.
  - intros k k' f f' Hk Hk' Hne Hf%Hst Hf'%Hst. by eapply (Hdiff k k').
Qed.

Lemma finish_consistent cases s :
  consistent s → ∃ c', finish cases s = (c', Return tt) ∧ consistent c'.
Proof.
  intros Hs. rewrite finish_eq.
  apply _add_method_consistent;
    [done | by apply before_match_consistent | apply match_args_typed].
Qed.

(** The transformation returns on a consistent class whose case variables
    are typed and named by identifiers, and leaves it consistent: it can be
    run again. *)
Lemma _transform_class_returns c cases :
  is_Instance (fill_typevars c) = true → class_vars c = inr cases →
  Forall (λ v, is_Some (var_type v)) cases → Forall well_named cases →
  consistent c →
  ∃ s c',
    for_each cases (transform_case (fill_typevars c)) c = (s, Return tt) ∧
    finish cases s = (c', Return tt) ∧
    _transform_class c = (c', Return tt) ∧ consistent c'.
Proof.
  intros HI Hcases Ht Hn Hc.
  destruct (for_each_consistent (fill_typevars c) cases c) as (s & Hs & Hcs); [done..|].
  destruct (finish_consistent cases s) as (c' & Hc' & Hcc'); [done|].
  exists s, c'. split; [done|]. split; [done|]. split; [|done].
  by rewrite _transform_class_eq, HI, Hcases, Hs.
Qed.

(* ===================================================================== *)
(** * The methods the transformation emits *)
(* ===================================================================== *)

Lemma emitted_app c fs c' gs c'' :
  emitted c fs c' → emitted c' gs c'' → emitted c (fs ++ gs) c''.
Proof.
  induction 1 as [|c f c1 fs c2 Hf _ IH]; intros Hgs; [done|].
  simpl. econstructor; [done | by apply IH].
Qed.

Lemma added_lookup f c c' : added f c c' → names c' !! func_name f = Some (generated f).
Proof. intros (_ & _ & -> & _). apply lookup_insert_eq. Qed.

Lemma added_last f c c' : added f c c' → last (body c') = Some (SFuncDef f).
Proof. intros (_ & _ & _ & (b & _ & Hb) & _). rewrite Hb. apply last_snoc. Qed.

(** What the loop of [_add_method] over the arguments collects: argument by
    argument the annotation, the name and the kind, so that every parameter
    of the callable type is the parameter its argument describes. *)
Lemma split_args_lists args ts ns ks :
  split_args args = inr (ts, ns, ks) →
  type_annotation <$> args = Some <$> ts ∧
  (λ a, Some (var_name (variable a))) <$> args = ns ∧
  kind <$> args = ks ∧
  ∃ ps, mapM argument_parameter args = Some ps ∧
        parameters_of args ts ns ks = Some ps.
Proof.
  revert ts ns ks. induction args as [|a args IH]; intros ts ns ks.
  - intros [= <- <- <-]. repeat split. by exists [].
  - intros H. simpl in H. destruct (type_annotation a) as [t|] eqn:Ht; [|done].
    destruct (split_args args) as [e|[[ts' ns'] ks']]; [done|].
    injection H as <- <- <-.
    destruct (IH ts' ns' ks' eq_refl) as (H1 & H2 & H3 & ps & H4 & H5).
    rewrite !fmap_cons, H1, H2, H3, Ht.
    split; [done|]. split; [done|]. split; [done|].
    exists (mkParameter (var_name (variable a)) t (kind a) (initializer a) :: ps).
    split.
    + apply mapM_Some. constructor; [|by apply mapM_Some].
      unfold argument_parameter. by rewrite Ht.
    + simpl. by rewrite H5.
Qed.

(** Conversely, the parameters pin the three lists of the callable type. *)
Lemma parameters_of_lists args ts ns ks ps :
  parameters_of args ts ns ks = Some ps →
  ts = p_type <$> ps ∧ ks = passingMode <$> ps ∧
  ns = (λ p, Some (p_name p)) <$> ps ∧ length args = length ps.
Proof.
  revert ts ns ks ps.
  induction args as [|a args IH]; intros [|t ts] [|n ns] [|k ks] ps; try done.
  - by intros [= <-].
  - simpl. destruct n as [n|]; [|done]. simpl.
    destruct (parameters_of args ts ns ks) as [ps'|] eqn:Hps; [|done].
    intros [= <-]. destruct (IH _ _ _ _ Hps) as (-> & -> & -> & Hlen).
    simpl. by rewrite Hlen.
Qed.

(** The receiver and the signature of a function pin its callable type, up
    to the fallback and the display name. *)
Lemma signature_callable f r sig :
  receiver_of f = Some r → signature_of f = Some sig →
  ∃ fb n,
    func_type f =
    Some (CallableType (p_type r :: (p_type <$> parameters sig))
            (passingMode r :: (passingMode <$> parameters sig))
            (Some (p_name r) :: ((λ p, Some (p_name p)) <$> parameters sig))
            (returnType sig) fb n (typeParameters sig)) ∧
    length (arguments f) = S (length (parameters sig)).
Proof.
  unfold receiver_of, signature_of, declared_parameters.
  destruct (func_type f) as [[| | | |ts ks ns ret fb n vs]|]; try done.
  destruct (parameters_of (arguments f) ts ns ks) as [[|p ps]|] eqn:Hps; try done.
  simpl. intros [= <-] [= <-].
  destruct (parameters_of_lists _ _ _ _ _ Hps) as (-> & -> & -> & Hlen).
  exists fb, n. by split.
Qed.

Lemma receiver_parameter c st ic :
  argument_parameter (receiver c st ic)
  = Some (if ic then cls_receiver
          else self_receiver (default (fill_typevars c) st)).
Proof. by destruct ic. Qed.

Section built_func.
Context (c : ClassDefContext) (name : string) (args : list Argument)
  (rt : Ty) (st : option Ty) (tv : option TypeVarDef) (ic : bool)
  (sig : list Ty * list (option string) * list ArgKind).
Hypothesis Hsig : split_args (receiver c st ic :: args) = inr sig.

Lemma built_func_name :
  func_name (built_func c name args rt st tv ic sig) = name.
Proof. by destruct sig as [[??]?]. Qed.

Lemma built_func_is_class :
  is_class (built_func c name args rt st tv ic sig) = ic.
Proof. by destruct sig as [[??]?]. Qed.

Lemma built_func_arguments :
  arguments (built_func c name args rt st tv ic sig) = receiver c st ic :: args.
Proof. by destruct sig as [[??]?]. Qed.

Lemma built_func_body :
  func_body (built_func c name args rt st tv ic sig) = Block_PassStmt.
Proof. by destruct sig as [[??]?]. Qed.

Lemma built_func_callable_agrees :
  callable_agrees (built_func c name args rt st tv ic sig).
Proof.
  unfold callable_agrees. destruct sig as [[ts ns] ks].
  destruct (split_args_lists _ _ _ _ Hsig) as (H1 & H2 & H3 & _).
  exists ts, ks, ns. do 4 eexists. split; [reflexivity|].
  split; [exact H1|]. split; [exact H2 | exact H3].
Qed.

Lemma built_func_parameters :
  ∃ ps, mapM argument_parameter args = Some ps ∧
    declared_parameters (built_func c name args rt st tv ic sig)
    = Some ((if ic then cls_receiver
             else self_receiver (default (fill_typevars c) st)) :: ps).
Proof.
  destruct sig as [[ts ns] ks].
  destruct (split_args_lists _ _ _ _ Hsig) as (_ & _ & _ & ps' & Hm & Hp).
  apply mapM_Some in Hm. apply Forall2_cons_inv_l in Hm as (r & ps & Hr & Hps & ->).
  exists ps. split; [by apply mapM_Some|].
  unfold declared_parameters, built_func. cbn [func_type arguments].
  rewrite Hp. rewrite receiver_parameter in Hr. by injection Hr as <-.
Qed.

Lemma built_func_receiver :
  receiver_of (built_func c name args rt st tv ic sig)
  = Some (if ic then cls_receiver
          else self_receiver (default (fill_typevars c) st)).
Proof.
  destruct built_func_parameters as (ps & _ & Hp).
  unfold receiver_of. by rewrite Hp.
Qed.

Lemma built_func_signature :
  signature_of (built_func c name args rt st tv ic sig) =
  ps ← mapM argument_parameter args;
  Some (mkSignature name ps rt ic (match tv with Some d => [d] | None => [] end)).
Proof.
  destruct built_func_parameters as (ps & Hm & Hp).
  unfold signature_of. rewrite Hp, Hm. by destruct sig as [[ts ns] ks].
Qed.

End built_func.

(** A returning call of [_add_method] adds one function, which has the
    requested name, receiver, arguments, return type and kind. *)
Lemma _add_method_added name args rt st tv ic c c' :
  _add_method name args rt st tv ic c = (c', Return tt) →
  ∃ f, added f c c' ∧
    func_name f = name ∧ is_class f = ic ∧
    arguments f = receiver c st ic :: args ∧
    receiver_of f =
      Some (if ic then cls_receiver
            else self_receiver (default (fill_typevars c) st)) ∧
    signature_of f =
      (ps ← mapM argument_parameter args;
       Some (mkSignature name ps rt ic (match tv with Some d => [d] | None => [] end))).
Proof.
  intros Hrun.
  apply _add_method_Return in Hrun as (b & sig & Hb & Hsig & Hnames & Hbody & _ & Hsame).
  exists (built_func c name args rt st tv ic sig).
  rewrite built_func_name, built_func_is_class, built_func_arguments,
    built_func_receiver, built_func_signature by done.
  split; [|done].
  split; [by apply built_func_callable_agrees|].
  split; [by apply built_func_body|].
  rewrite built_func_name by done.
  split; [done|]. split; [by exists b | done].
Qed.

(** One iteration of the loop emits the constructor and then the accessor
    of the case. *)
Lemma transform_case_emitted I case c c' :
  transform_case I case c = (c', Return tt) →
  ∃ v fc fa,
    variant_of case = Some v ∧ emitted c [fc; fa] c' ∧
    signature_of fc = Some (constructor_signature I v) ∧
    signature_of fa = Some (accessor_signature v) ∧
    receiver_of fc = Some cls_receiver ∧
    receiver_of fa = Some (self_receiver (fill_typevars c)).
Proof.
  unfold transform_case, variant_of.
  destruct (var_type case) as [t|] eqn:Ht; [|done].
  unfold mbind at 1, M_bind at 1.
  destruct (_add_method (var_name case) _ _ _ _ _ c) as [s [[]|e]] eqn:Hc; [|done].
  intros Ha.
  apply _add_method_added in Hc as (fc & Hfc & _ & _ & _ & Hrc & Hsc).
  apply _add_method_added in Ha as (fa & Hfa & _ & _ & _ & Hra & Hsa).
  exists (mkVariant (var_name case) t), fc, fa.
  split; [done|]. split; [|split; [|split; [|split]]].
  - econstructor; [done|]. econstructor; [done | constructor].
  - by rewrite Hsc.
  - by rewrite Hsa.
  - done.
  - rewrite Hra. simpl. by rewrite (same_class_fill_typevars c s) by apply Hfc.
Qed.

Lemma for_each_emitted I cases c c' :
  for_each cases (transform_case I) c = (c', Return tt) →
  ∃ vs fs,
    mapM variant_of cases = Some vs ∧ emitted c fs c' ∧
    signature_of <$> fs = Some <$> case_signatures I vs ∧
    receiver_of <$> fs = Some <$> case_receivers (fill_typevars c) vs.
Proof.
  revert c. induction cases as [|case cases IH]; intros c.
  - intros [= <-]. exists [], []. split; [done|]. split; [constructor | done].
  - intros (s & Hcase & Hrest)%for_each_cons_Return.
    apply transform_case_extends in Hcase as Hext.
    apply transform_case_emitted in Hcase
      as (v & fc & fa & Hv & Hem & Hfc & Hfa & Hrc & Hra).
    apply IH in Hrest as (vs & fs & Hvs & Hems & Hsigs & Hrecs).
    rewrite (same_class_fill_typevars c s) in Hrecs by apply Hext.
    exists (v :: vs), ([fc; fa] ++ fs).
    split; [|split; [|split]].
    + rewrite mapM_Some. constructor; [done|]. by apply mapM_Some.
    + by eapply emitted_app.
    + rewrite fmap_app, Hsigs. unfold case_signatures.
      rewrite bind_cons, fmap_app. f_equal.
      change (signature_of <$> [fc; fa]) with [signature_of fc; signature_of fa].
      by rewrite Hfc, Hfa.
    + rewrite fmap_app, Hrecs. unfold case_receivers.
      rewrite bind_cons, fmap_app. f_equal.
      change (receiver_of <$> [fc; fa]) with [receiver_of fc; receiver_of fa].
      by rewrite Hrc, Hra.
Qed.

(** ** The arguments of [match] *)

Lemma dict_set_new (d : list (Var * Ty)) k v :
  Forall (λ kv, var_oid kv.1 ≠ var_oid k) d →
  dict_set same_Var d k v = d ++ [(k, v)].
Proof.
  induction 1 as [|[k' v'] d Hk _ IH]; [done|].
  simpl. unfold same_Var at 1. rewrite bool_decide_eq_false_2 by done.
  by rewrite IH.
Qed.

(** When no case variable occurs twice, the dictionary of handler types
    lists the cases in their order. *)
Lemma dict_comprehension_NoDup (value : Var → Ty) (cases : list Var) :
  NoDup (var_oid <$> cases) →
  dict_comprehension same_Var id value cases = (λ v, (v, value v)) <$> cases.
Proof.
  unfold dict_comprehension.
  enough (∀ acc : list (Var * Ty),
            NoDup ((var_oid <$> acc.*1) ++ (var_oid <$> cases)) →
            foldl (λ d x, dict_set same_Var d (id x) (value x)) acc cases =
            acc ++ ((λ v, (v, value v)) <$> cases)) as H.
  { intros Hnd. by apply (H []). }
  induction cases as [|x cases IH]; intros acc Hnd.
  - simpl. by rewrite app_nil_r.
  - simpl. rewrite dict_set_new.
    + rewrite IH.
      * by rewrite <- app_assoc.
      * rewrite !fmap_app, <- app_assoc. simpl. exact Hnd.
    + apply NoDup_app in Hnd as (_ & Hdis & _).
      apply Forall_forall. intros [k v] Hkv Heq.
      apply (Hdis (var_oid k)).
      * apply list_elem_of_fmap. exists k. split; [done|].
        apply list_elem_of_fmap. by exists (k, v).
      * simpl in Heq. rewrite Heq. simpl. apply elem_of_cons. by left.
Qed.

Lemma match_args_parameters oid (d : list (Var * Ty)) :
  mapM argument_parameter (match_args oid d) =
  Some ((λ kv, mkParameter (lower ucd (var_name kv.1)) kv.2 ARG_NAMED None) <$> d).
Proof.
  revert oid. induction d as [|[case t] d IH]; intros oid; [done|].
  apply mapM_Some. simpl. constructor; [done|]. apply mapM_Some, IH.
Qed.

Lemma handler_type_eq R case v :
  variant_of case = Some v →
  _callable_type_for_adt_case case R = handler_type R v ∧
  var_name case = v_name v.
Proof.
  unfold variant_of. destruct (var_type case) as [t|] eqn:Ht; [|done].
  intros [= <-]. unfold _callable_type_for_adt_case. by rewrite Ht.
Qed.

(** The last step adds [match]: an instance method with one required
    keyword parameter per case, generic in and returning the type variable. *)
Lemma finish_added cases vs s c' :
  mapM variant_of cases = Some vs → NoDup (var_oid <$> cases) →
  finish cases s = (c', Return tt) →
  ∃ f, added f (before_match cases s) c' ∧
    func_name f = "match" ∧
    (∃ oid, head (arguments f) =
              Some (mkArgument (mkVar oid "self" None) (Some (fill_typevars s))
                      None ARG_POS)) ∧
    receiver_of f = Some (self_receiver (fill_typevars s)) ∧
    signature_of f = Some (match_signature (type_variable s "_MatchResult") vs).
Proof.
  intros Hvs Hnd. rewrite finish_eq.
  intros Hrun.
  apply _add_method_added in Hrun as (f & Hf & Hname & _ & Hargs & Hrecv & Hsig).
  exists f. split; [done|]. split; [done|]. split; [|split].
  - rewrite Hargs. simpl. eexists.
    by rewrite (same_class_fill_typevars s) by apply before_match_same_class.
  - rewrite Hrecv. simpl.
    by rewrite (same_class_fill_typevars s) by apply before_match_same_class.
  - rewrite Hsig, match_args_parameters. simpl. unfold match_signature.
    do 2 f_equal. rewrite dict_comprehension_NoDup by done.
    apply mapM_Some in Hvs. clear Hnd Hsig Hargs Hrecv Hf.
    induction Hvs as [|case v cases vs Hv _ IH]; [done|].
    rewrite !fmap_cons, IH. f_equal. simpl.
    apply (handler_type_eq (type_variable s "_MatchResult")) in Hv as [-> ->].
    done.
Qed.

(* ===================================================================== *)
(** * The generated methods *)
(* ===================================================================== *)

Lemma extends_type_variable c c' n :
  extends c c' → type_variable c' n = type_variable c n.
Proof. intros ((_ & Hf & _) & _). unfold type_variable. by rewrite Hf. Qed.


(** The callable type of a function with the receiver and the signature of
    [match]. *)
Lemma match_signature_callable f I R vs :
  receiver_of f = Some (self_receiver I) →
  signature_of f = Some (match_signature R vs) →
  ∃ fb n,
    func_type f =
    Some (CallableType (I :: (handler_type R <$> vs))
            (ARG_POS :: ((λ _, ARG_NAMED) <$> vs))
            (Some "self" :: ((λ v, Some (lower ucd (v_name v))) <$> vs))
            (TypeVarType R) fb n [R]).
Proof.
  intros Hr Hs. destruct (signature_callable _ _ _ Hr Hs) as (fb & n & Hf & _).
  exists fb, n. rewrite Hf. simpl. by rewrite <- !list_fmap_compose.
Qed.

(** The method bound to [match] by a returning run. *)
Lemma _transform_class_match c cases vs c' :
  class_vars c = inr cases → mapM variant_of cases = Some vs →
  NoDup (var_oid <$> cases) →
  _transform_class c = (c', Return tt) →
  ∃ f,
    names c' !! "match" = Some (generated f) ∧
    last (body c') = Some (SFuncDef f) ∧
    (∃ oid, head (arguments f) =
              Some (mkArgument (mkVar oid "self" None) (Some (fill_typevars c))
                      None ARG_POS)) ∧
    receiver_of f = Some (self_receiver (fill_typevars c)) ∧
    callable_agrees f ∧
    signature_of f = Some (match_signature (type_variable c "_MatchResult") vs).
Proof.
  intros Hcases Hvs Hnd Hrun.
  apply _transform_class_Return in Hrun as (cases' & s & _ & Hcases' & Hloop & Hfin).
  assert (cases' = cases) as -> by congruence.
  apply for_each_extends in Hloop as Hext.
  destruct (finish_added _ _ _ _ Hvs Hnd Hfin)
    as (f & Hf & Hname & Hself & Hrecv & Hsig).
  exists f.
  split; [rewrite <- Hname; by eapply added_lookup|].
  split; [by eapply added_last|].
  split; [by rewrite <- (same_class_fill_typevars c s) by apply Hext|].
  split; [by rewrite <- (same_class_fill_typevars c s) by apply Hext|].
  split; [apply Hf|].
  by rewrite <- (extends_type_variable c s).
Qed.

(** C4.  On a ready class (one without tuple type) whose case variables are
    all different, the transformation binds [match] to a generated instance
    method that is generic in the one type variable [_MatchResult] of the
    class, returns that type variable and has, after the receiver [self] of
    the enclosing type, exactly one parameter per variant, in declaration
    order: named as the lowercased variant, passed by keyword ([ARG_NAMED]),
    without a default, and typed as a function from the declared type to
    the type variable.  This is what the type of the method ([func.type],
    which the checker consults at a call) says, and its argument objects
    say the same. *)
Theorem match_method_signature (c : ClassDefContext) (cases : list Var) :
  ready c cases → NoDup (var_oid <$> cases) →
  let R := type_variable c "_MatchResult" in
  ∃ vs c' f fb n,
    mapM variant_of cases = Some vs ∧
    _transform_class c = (c', Return tt) ∧
    names c' !! "match" = Some (generated f) ∧
    last (body c') = Some (SFuncDef f) ∧
    is_class f = false ∧
    func_type f =
      Some (CallableType (fill_typevars c :: (handler_type R <$> vs))
              (ARG_POS :: ((λ _, ARG_NAMED) <$> vs))
              (Some "self" :: ((λ v, Some (lower ucd (v_name v))) <$> vs))
              (TypeVarType R) fb n [R]) ∧
    receiver_of f = Some (self_receiver (fill_typevars c)) ∧
    signature_of f = Some (match_signature R vs) ∧
    callable_agrees f.
Proof.
  intros [HI Hcases Ht Hn Hc] Hnd R.
  destruct (_transform_class_returns c cases) as (s & c' & Hloop & _ & Hrun & _);
    [done..|].
  destruct (for_each_emitted _ _ _ _ Hloop) as (vs & _ & Hvs & _).
  destruct (_transform_class_match c cases vs c')
    as (f & Hf & Hlast & _ & Hrecv & Hagree & Hsig); [done..|].
  destruct (match_signature_callable _ _ _ _ Hrecv Hsig) as (fb & n & Hty).
  exists vs, c', f, fb, n.
  split; [done|]. split; [done|]. split; [done|]. split; [done|].
  split; [|done].
  unfold signature_of in Hsig.
  destruct (func_type f) as [[]|]; try done.
  destruct (declared_parameters f) as [[|? ?]|]; try done.
  injection Hsig as _ _ _ Hcls _. done.
Qed.

(* ===================================================================== *)
(** * Definitions written by the user *)
(* ===================================================================== *)

(** C5.  When [_add_method] generates a method under a name that is bound
    to a symbol not marked as generated, the call returns and
    - that symbol is bound to the redefinition name, which was free and is
      [name-redefinition] or, when that is taken, [name-redefinition]
      followed by the least number from 2 on that makes it free;
    - the name itself is bound to the generated function;
    - every other binding is kept, and nothing is removed from the body. *)
Theorem add_method_keeps_user_definition (name : string)
    (args : list Argument) (return_type : Ty) (self_type : option Ty)
    (tvar_def : option TypeVarDef) (is_classmethod : bool)
    (c : ClassDefContext) (sym : SymbolTableNode) :
  names c !! name = Some sym → plugin_generated sym = false →
  Forall typed args →
  let r := get_unique_redefinition_name name (names c) in
  ∃ c' f,
    _add_method name args return_type self_type tvar_def is_classmethod c
      = (c', Return tt) ∧
    names c !! r = None ∧
    (r = name +:+ "-redefinition" ∨
     is_Some (names c !! (name +:+ "-redefinition")) ∧
     ∃ j, 2 ≤ j ∧ r = (name +:+ "-redefinition") +:+ str j ∧
          ∀ k, 2 ≤ k < j →
            is_Some (names c !! ((name +:+ "-redefinition") +:+ str k))) ∧
    names c' !! r = Some sym ∧
    names c' !! name = Some (generated f) ∧ func_name f = name ∧
    (∀ k s, k ≠ name → names c !! k = Some s → names c' !! k = Some s) ∧
    body c' = body c ++ [SFuncDef f].
Proof.
  intros Hsym Huser Hargs r.
  assert (stale c name = None) as Hstale.
  { unfold stale. rewrite Hsym. simpl. unfold generated_by_plugin.
    rewrite Huser. by destruct (node sym) as [[]|]. }
  assert (drop_stale name c = Some (body c)) as Hdrop
    by (unfold drop_stale; by rewrite Hstale).
  destruct (_add_method_returns name args return_type self_type tvar_def
              is_classmethod c) as [c' Hrun]; [by rewrite Hdrop | done |].
  apply _add_method_Return in Hrun as Hres.
  destruct Hres as (b & sig & Hb & Hsig & Hnames & Hbody & _).
  rewrite Hdrop in Hb. injection Hb as <-.
  destruct (get_unique_redefinition_name_spec name (names c)) as [Hfresh Hshape].
  fold r in Hfresh, Hshape.
  exists c', (built_func c name args return_type self_type tvar_def
                is_classmethod sig).
  split; [done|]. split; [done|]. split; [done|].
  assert (name ≠ r) as Hne by (intros E; rewrite <- E in Hfresh; congruence).
  split; [|split; [|split; [|split]]].
  - rewrite Hnames, lookup_insert_ne by done.
    unfold keep_existing. rewrite Hsym. apply lookup_insert_eq.
  - rewrite Hnames. apply lookup_insert_eq.
  - by apply built_func_name.
  - intros k s Hk Hks. rewrite Hnames, lookup_insert_ne by done.
    by apply keep_existing_lookup.
  - done.
Qed.

(** Over a whole run, too, no symbol is lost, whatever the outcome: a
    symbol bound before the run is bound after it, under its own name or
    under a redefinition name.  The one exception is the name
    [_MatchResult], which [_add_typevar] assigns without looking. *)
Lemma _add_method_keeps_symbols name args rt st tv ic c c' o k sym :
  _add_method name args rt st tv ic c = (c', o) →
  names c !! k = Some sym → k ≠ "_MatchResult" →
  ∃ k', k' ≠ "_MatchResult" ∧ names c' !! k' = Some sym.
Proof.
  rewrite _add_method_eq. unfold add_method_outcome. intros Hrun Hk Hne.
  destruct (drop_stale name c) as [b|]; [|injection Hrun as <- _; by exists k].
  destruct (split_args _) as [e|sig]; injection Hrun as <- _; [by exists k|].
  simpl. destruct (decide (k = name)) as [->|Hkn].
  - exists (get_unique_redefinition_name name (names c)).
    pose proof (get_unique_redefinition_name_fresh name (names c)) as Hfresh.
    pose proof (get_unique_redefinition_name_dash name (names c)) as Hdash.
    split; [intros E; by rewrite E in Hdash|].
    rewrite lookup_insert_ne by (intros E; rewrite <- E in Hfresh; congruence).
    unfold keep_existing. rewrite Hk. apply lookup_insert_eq.
  - exists k. split; [done|].
    rewrite lookup_insert_ne by done. by apply keep_existing_lookup.
Qed.

Lemma for_each_keeps_symbols I cases c c' o k sym :
  for_each cases (transform_case I) c = (c', o) →
  names c !! k = Some sym → k ≠ "_MatchResult" →
  ∃ k', k' ≠ "_MatchResult" ∧ names c' !! k' = Some sym.
Proof.
  revert c k. induction cases as [|case cases IH]; intros c k; simpl.
  - intros [= <- _] Hk Hne. by exists k.
  - unfold mbind, M_bind, transform_case.
    destruct (var_type case) as [t|]; [|intros [= <- _] Hk Hne; by exists k].
    unfold mbind, M_bind.
    destruct (_add_method (var_name case) _ _ _ _ _ c) as [s1 [[]|e]] eqn:H1.
    + destruct (_add_method (lower ucd (var_name case)) _ _ _ _ _ s1) as [s2 [[]|e]] eqn:H2.
      * intros Hrest Hk Hne.
        destruct (_add_method_keeps_symbols _ _ _ _ _ _ _ _ _ _ _ H1 Hk Hne)
          as (k1 & Hne1 & Hk1).
        destruct (_add_method_keeps_symbols _ _ _ _ _ _ _ _ _ _ _ H2 Hk1 Hne1)
          as (k2 & Hne2 & Hk2).
        by eapply IH.
      * intros [= <- _] Hk Hne.
        destruct (_add_method_keeps_symbols _ _ _ _ _ _ _ _ _ _ _ H1 Hk Hne)
          as (k1 & Hne1 & Hk1).
        by eapply _add_method_keeps_symbols.
    + intros [= <- _] Hk Hne. by eapply _add_method_keeps_symbols.
Qed.

Lemma _transform_class_keeps_symbols c c' o k sym :
  _transform_class c = (c', o) →
  names c !! k = Some sym → k ≠ "_MatchResult" →
  ∃ k', k' ≠ "_MatchResult" ∧ names c' !! k' = Some sym.
Proof.
  rewrite _transform_class_eq. intros Hrun Hk Hne.
  destruct (is_Instance (fill_typevars c)); [|injection Hrun as <- _; by exists k].
  destruct (class_vars c) as [e|cases]; [injection Hrun as <- _; by exists k|].
  destruct (for_each cases _ c) as [s [[]|e]] eqn:Hloop.
  - destruct (for_each_keeps_symbols _ _ _ _ _ _ _ Hloop Hk Hne) as (k1 & Hne1 & Hk1).
    rewrite finish_eq in Hrun.
    eapply _add_method_keeps_symbols; [done | | done].
    by rewrite before_match_names, lookup_insert_ne.
  - injection Hrun as <- _. by eapply for_each_keeps_symbols.
Qed.

(* ===================================================================== *)
(** * The type variable of [match] *)
(* ===================================================================== *)

(** Whatever the cases, a returning run binds [match] to a method that is
    generic in, and returns, the type variable of the class. *)
Lemma _transform_class_match_generic c c' :
  _transform_class c = (c', Return tt) →
  ∃ ps,
    generated_signature c' "match" =
    Some (mkSignature "match" ps
            (TypeVarType (type_variable c "_MatchResult")) false
            [type_variable c "_MatchResult"]).
Proof.
  intros Hrun.
  apply _transform_class_Return in Hrun as (cases & s & _ & _ & Hloop & Hfin).
  apply for_each_extends in Hloop as Hext.
  rewrite finish_eq in Hfin.
  apply _add_method_added in Hfin as (f & Hf & Hname & _ & _ & _ & Hsig).
  rewrite match_args_parameters in Hsig. simpl in Hsig.
  rewrite (extends_type_variable c s) in Hsig by done.
  eexists. unfold generated_signature, stale.
  rewrite <- Hname at 1. rewrite (added_lookup _ _ _ Hf). simpl. exact Hsig.
Qed.

(** C9.  The type variable that [_add_typevar] creates for [_MatchResult]
    is named [_MatchResult] in every class, and its full name is the full
    name of the class followed by [._MatchResult]: for two classes with
    different full names the type variables have different full names, and
    so have the type variables of the two generated [match] methods. *)
Theorem match_result_type_variables_differ (c1 c2 : ClassDefContext) :
  cls_fullname c1 ≠ cls_fullname c2 →
  (∃ s1 s2 R1 R2,
     _add_typevar "_MatchResult" c1 = (s1, Return R1) ∧
     _add_typevar "_MatchResult" c2 = (s2, Return R2) ∧
     tvar_name R1 = "_MatchResult" ∧ tvar_name R2 = "_MatchResult" ∧
     tvar_fullname R1 = cls_fullname c1 +:+ "._MatchResult" ∧
     tvar_fullname R2 = cls_fullname c2 +:+ "._MatchResult" ∧
     tvar_fullname R1 ≠ tvar_fullname R2) ∧
  (∀ c1' c2',
     _transform_class c1 = (c1', Return tt) →
     _transform_class c2 = (c2', Return tt) →
     ∃ sig1 sig2 R1 R2,
       generated_signature c1' "match" = Some sig1 ∧
       generated_signature c2' "match" = Some sig2 ∧
       typeParameters sig1 = [R1] ∧ returnType sig1 = TypeVarType R1 ∧
       typeParameters sig2 = [R2] ∧ returnType sig2 = TypeVarType R2 ∧
       tvar_name R1 = tvar_name R2 ∧ tvar_fullname R1 ≠ tvar_fullname R2).
Proof.
  intros Hne.
  assert (cls_fullname c1 +:+ "._MatchResult" ≠ cls_fullname c2 +:+ "._MatchResult")
    as Hfull by (intros E; by apply app_inj_suffix in E).
  split.
  - rewrite !_add_typevar_eq. do 4 eexists. by repeat split.
  - intros c1' c2' H1 H2.
    apply _transform_class_match_generic in H1 as [ps1 H1].
    apply _transform_class_match_generic in H2 as [ps2 H2].
    do 4 eexists.
    split; [exact H1|]. split; [exact H2|]. simpl.
    split; [reflexivity|]. split; [reflexivity|].
    split; [reflexivity|]. split; [reflexivity|]. by split.
Qed.

(* ===================================================================== *)
(** * A class without cases *)
(* ===================================================================== *)

(** C10.  A class without case variables is transformed all the same (as
    long as it has no tuple type and a [match] generated earlier is still
    in the body): the run returns, [_MatchResult] is bound to the type
    variable, [match] is bound to a generated instance method whose only
    argument is [self], whose type takes nothing but [self] and is generic
    in and returns the type variable, and the symbol table has changed. *)
Theorem transform_class_without_cases (c : ClassDefContext) :
  is_Instance (fill_typevars c) = true → class_vars c = inr [] →
  is_Some (drop_stale "match" c) →
  let R := type_variable c "_MatchResult" in
  ∃ c' f fb n,
    _transform_class c = (c', Return tt) ∧
    names c' !! "_MatchResult" = Some (type_variable_symbol c "_MatchResult") ∧
    names c' !! "match" = Some (generated f) ∧
    is_class f = false ∧
    arguments f = [mkArgument (mkVar (next_oid c) "self" None)
                     (Some (fill_typevars c)) None ARG_POS] ∧
    func_type f =
      Some (CallableType [fill_typevars c] [ARG_POS] [Some "self"]
              (TypeVarType R) fb n [R]) ∧
    receiver_of f = Some (self_receiver (fill_typevars c)) ∧
    signature_of f = Some (match_signature R []) ∧
    last (body c') = Some (SFuncDef f) ∧
    names c' ≠ names c.
Proof.
  intros HI Hcases Hdrop R.
  destruct (_add_method_returns "match" (match_args (next_oid c) [])
              (TypeVarType (type_variable c "_MatchResult")) None
              (Some (type_variable c "_MatchResult")) false (before_match [] c))
    as [c' Hrun]; [by rewrite before_match_drop_stale | constructor |].
  assert (_transform_class c = (c', Return tt)) as Hfin.
  { rewrite _transform_class_eq, HI, Hcases. simpl. by rewrite finish_eq. }
  apply _add_method_added in Hrun as (f & Hf & Hname & Hcls & Hargs & Hrecv & Hsig).
  assert (receiver_of f = Some (self_receiver (fill_typevars c))) as Hrecv'
    by exact Hrecv.
  assert (signature_of f = Some (match_signature R [])) as Hsig' by exact Hsig.
  destruct (match_signature_callable _ _ _ _ Hrecv' Hsig') as (fb & n & Hty).
  exists c', f, fb, n.
  pose proof Hf as (_ & _ & Hnames & _).
  rewrite Hname, before_match_names in Hnames.
  split; [done|].
  split; [|split; [|split; [|split; [|split; [|split; [|split; [|split]]]]]]].
  - rewrite Hnames, lookup_insert_ne by done.
    apply keep_existing_lookup, lookup_insert_eq.
  - rewrite Hnames. apply lookup_insert_eq.
  - exact Hcls.
  - exact Hargs.
  - exact Hty.
  - exact Hrecv'.
  - exact Hsig'.
  - by eapply added_last.
  - intros Heq. destruct (names c !! "match") as [sym|] eqn:Hsym.
    + set (ns := <["_MatchResult" := type_variable_symbol c "_MatchResult"]> (names c)) in *.
      assert (ns !! "match" = Some sym) as Hsym' by (unfold ns; by rewrite lookup_insert_ne).
      pose proof (get_unique_redefinition_name_fresh "match" ns) as Hfresh.
      set (r := get_unique_redefinition_name "match" ns) in *.
      assert ("match" ≠ r) as Hne by (intros E; rewrite <- E in Hfresh; congruence).
      assert (names c' !! r = Some sym) as Hr.
      { rewrite Hnames, lookup_insert_ne by done.
        unfold keep_existing. rewrite Hsym'. apply lookup_insert_eq. }
      rewrite Heq in Hr.
      assert (ns !! r = Some sym); [|congruence].
      unfold ns. destruct (decide ("_MatchResult" = r)) as [E|E].
      * exfalso. pose proof (get_unique_redefinition_name_dash "match" ns) as Hd.
        fold r in Hd. by rewrite <- E in Hd.
      * by rewrite lookup_insert_ne.
    + rewrite <- Heq, Hnames, lookup_insert_eq in Hsym. done.
Qed.

(* ===================================================================== *)
(** * A case without a type *)
(* ===================================================================== *)

Lemma for_each_app I (xs ys : list Var) c :
  for_each (xs ++ ys) (transform_case I) c =
  match for_each xs (transform_case I) c with
  | (s, Return _) => for_each ys (transform_case I) s
  | (s, Raise e) => (s, Raise e)
  end.
Proof.
  revert c. induction xs as [|x xs IH]; intros c; [done|].
  simpl. unfold mbind, M_bind.
  destruct (transform_case I x c) as [s [[]|e]]; [apply IH | done].
Qed.

(** The loop stops at the first untyped case, in the state the cases before
    it have led to. *)
Lemma for_each_untyped I pre v post c s :
  var_type v = None →
  for_each pre (transform_case I) c = (s, Return tt) →
  for_each (pre ++ v :: post) (transform_case I) c
    = (s, Raise (AssertionError untyped_message)).
Proof.
  intros Hv Hpre. rewrite for_each_app, Hpre. simpl.
  unfold mbind, M_bind, transform_case. by rewrite Hv.
Qed.

Lemma for_each_raises I pre v post c :
  var_type v = None →
  ∃ s e, for_each (pre ++ v :: post) (transform_case I) c = (s, Raise e).
Proof.
  intros Hv. destruct (for_each pre (transform_case I) c) as [s [[]|e]] eqn:Hpre.
  - exists s. eexists. by apply for_each_untyped.
  - exists s, e. by rewrite for_each_app, Hpre.
Qed.

(** The run on [class_with_untyped_case] raises, but only after the
    constructor and the accessor of [A] have been installed: the symbol
    table is not what it was before the attempt. *)
Lemma untyped_case_partial_install :
  let c := class_with_untyped_case in
  let c' := after _transform_class c in
  class_vars c = inr [mkVar 0 "A" (Some int_type); mkVar 1 "B" None] ∧
  _transform_class c = (c', Raise (AssertionError untyped_message)) ∧
  names c !! "a" = None ∧
  generated_signature c' "a" = Some (accessor_signature (mkVariant "A" int_type)) ∧
  generated_signature c' "A" =
    Some (constructor_signature (Instance "m.Expr" []) (mkVariant "A" int_type)) ∧
  dom (names c) = {[ "A"; "B" ]} ∧
  dom (names c') = {[ "A"; "B"; "a"; "A-redefinition" ]} ∧
  names c' ≠ names c.
Proof.
  split; [by vm_compute|]. split; [by vm_compute|]. split; [by vm_compute|].
  split; [by vm_compute|]. split; [by vm_compute|].
  split; [apply (bool_decide_unpack _); by vm_compute|].
  split; [apply (bool_decide_unpack _); by vm_compute|].
  intros E. apply (f_equal (λ ns : gmap string SymbolTableNode, ns !! "a")) in E.
  vm_compute in E. done.
Qed.

(** C2, as the code has it.  A class with an untyped case is not
    transformed: the run raises.  A class with a tuple type is refused by
    the first assertion, unchanged.  Otherwise the assertion on the type of
    a case is made case by case, inside the loop: unless the loop fails on
    an earlier case already (and stops there), the run stops on reaching
    the untyped case.  The constructors and accessors of the cases declared
    before it are installed by then and stay, while nothing is installed
    for the untyped case or any later one, and neither [_MatchResult] nor
    [match] is.  In particular the class is left untouched when the first
    case is the untyped one. *)
Theorem untyped_case_aborts (c : ClassDefContext) (pre post : list Var) (v : Var) :
  class_vars c = inr (pre ++ v :: post) → var_type v = None →
  (∃ c' e, _transform_class c = (c', Raise e)) ∧
  (is_Instance (fill_typevars c) = false →
   _transform_class c = (c, Raise (AssertionError ""))) ∧
  (is_Instance (fill_typevars c) = true →
   (∀ s e, for_each pre (transform_case (fill_typevars c)) c = (s, Raise e) →
      _transform_class c = (s, Raise e)) ∧
   (∀ s, for_each pre (transform_case (fill_typevars c)) c = (s, Return tt) →
      _transform_class c = (s, Raise (AssertionError untyped_message)) ∧
      ∃ vs fs,
        mapM variant_of pre = Some vs ∧ emitted c fs s ∧
        signature_of <$> fs = Some <$> case_signatures (fill_typevars c) vs ∧
        receiver_of <$> fs = Some <$> case_receivers (fill_typevars c) vs) ∧
   (pre = [] →
    _transform_class c = (c, Raise (AssertionError untyped_message)))).
Proof.
  intros Hcases Hv.
  split; [|split].
  - rewrite _transform_class_eq, Hcases.
    destruct (is_Instance (fill_typevars c)); [|by do 2 eexists].
    destruct (for_each_raises (fill_typevars c) pre v post c Hv) as (s & e & ->).
    by exists s, e.
  - intros HI. by rewrite _transform_class_eq, HI.
  - intros HI.
    assert (∀ s, for_each pre (transform_case (fill_typevars c)) c = (s, Return tt) →
            _transform_class c = (s, Raise (AssertionError untyped_message)))
      as Hstop.
    { intros s Hpre. rewrite _transform_class_eq, HI, Hcases.
      by rewrite (for_each_untyped _ pre v post c s). }
    split; [|split].
    + intros s e Hpre.
      by rewrite _transform_class_eq, HI, Hcases, for_each_app, Hpre.
    + intros s Hpre. split; [by apply Hstop|]. by apply for_each_emitted.
    + intros ->. by apply Hstop.
Qed.

(* ===================================================================== *)
(** * Two cases that fold to one name *)
(* ===================================================================== *)

(** The run on [class_with_folding_collision] returns.  The accessor of
    [AB] takes the name [ab]; the accessor of [Ab] is out of the body and
    bound to [ab-redefinition]; [match] has two handlers called [ab]. *)
Lemma folding_collision_accepted :
  let c := class_with_folding_collision in
  let c' := after _transform_class c in
  class_vars c = inr [mkVar 0 "Ab" (Some int_type); mkVar 1 "AB" (Some str_type)] ∧
  lower ucd "Ab" = lower ucd "AB" ∧
  _transform_class c = (c', Return tt) ∧
  (¬ ∃ c'' e, _transform_class c = (c'', Raise e)) ∧
  generated_signature c' "ab" = Some (accessor_signature (mkVariant "AB" str_type)) ∧
  generated_signature c' "ab-redefinition"
    = Some (accessor_signature (mkVariant "Ab" int_type)) ∧
  (λ sig, p_name <$> parameters sig) <$> generated_signature c' "match"
    = Some ["ab"; "ab"] ∧
  (λ st, match st with SFuncDef f => Some (func_name f) | _ => None end) <$> body c'
    = [None; None; Some "Ab"; Some "AB"; Some "ab"; Some "match"].
Proof.
  split; [by vm_compute|]. split; [by vm_compute|].
  assert (_transform_class class_with_folding_collision
          = (after _transform_class class_with_folding_collision, Return tt)) as Hrun
    by (by vm_compute).
  split; [done|]. split.
  - intros (c'' & e & Hraise). congruence.
  - vm_compute. repeat split; reflexivity.
Qed.

(** C6, as the code has it.  Two cases whose names fold to the same
    lowercase name do not make the transformation fail: on a ready class it
    returns as for any other names, and the type of [match] has a handler
    parameter for each of the two cases, both under the one folded name. *)
Theorem folding_collision_not_detected (c : ClassDefContext)
    (cases : list Var) (i j : nat) (v w : Var) :
  ready c cases → NoDup (var_oid <$> cases) →
  i < j → cases !! i = Some v → cases !! j = Some w →
  lower ucd (var_name v) = lower ucd (var_name w) →
  ∃ c' sig pv pw,
    _transform_class c = (c', Return tt) ∧
    generated_signature c' "match" = Some sig ∧
    parameters sig !! i = Some pv ∧ parameters sig !! j = Some pw ∧
    p_name pv = lower ucd (var_name v) ∧ p_name pw = lower ucd (var_name v) ∧
    passingMode pv = ARG_NAMED ∧ passingMode pw = ARG_NAMED.
Proof.
  intros [HI Hcases Ht Hn Hc] Hnd Hij Hv Hw Hfold.
  destruct (_transform_class_returns c cases) as (s & c' & Hloop & _ & Hrun & _);
    [done..|].
  destruct (for_each_emitted _ _ _ _ Hloop) as (vs & _ & Hvs & _).
  destruct (_transform_class_match c cases vs c')
    as (f & Hf & _ & _ & _ & _ & Hsig); [done..|].
  apply mapM_Some in Hvs.
  destruct (Forall2_lookup_l _ _ _ _ _ Hvs Hv) as (sv & Hsv & Hvar_v).
  destruct (Forall2_lookup_l _ _ _ _ _ Hvs Hw) as (sw & Hsw & Hvar_w).
  apply (handler_type_eq (type_variable c "_MatchResult")) in Hvar_v as [_ Hnv].
  apply (handler_type_eq (type_variable c "_MatchResult")) in Hvar_w as [_ Hnw].
  exists c'. eexists. do 2 eexists.
  split; [done|].
  split; [unfold generated_signature, stale; rewrite Hf; simpl; exact Hsig|].
  simpl. rewrite !list_lookup_fmap, Hsv, Hsw. simpl.
  split; [done|]. split; [done|].
  rewrite <- Hnv, <- Hnw. by rewrite Hfold.
Qed.

(* ===================================================================== *)
(** * Further properties: collecting the case variables *)
(* ===================================================================== *)

Lemma lookup_all_app c ns ms :
  lookup_all c (ns ++ ms) =
  match lookup_all c ns with
  | inl e => inl e
  | inr xs =>
      match lookup_all c ms with
      | inl e => inl e
      | inr ys => inr (xs ++ ys)
      end
  end.
Proof.
  induction ns as [|n ns IH]; simpl.
  - by destruct (lookup_all c ms).
  - destruct (info_get c n) as [sym|]; [|done]. rewrite IH.
    destruct (lookup_all c ns) as [e|xs]; [done|].
    by destruct (lookup_all c ms).
Qed.

Lemma lvalue_nodes_lookup_all c lvals :
  lvalue_nodes c lvals = lookup_all c (lvalue_names lvals).
Proof.
  induction lvals as [|[n|] lvals IH]; simpl; [done | | done].
  destruct (info_get c n); [|done]. by rewrite IH.
Qed.

Lemma body_nodes_lookup_all c stmts :
  body_nodes c stmts = lookup_all c (assigned_names stmts).
Proof.
  induction stmts as [|[lvals|f| |] stmts IH]; simpl; try done.
  by rewrite lookup_all_app, lvalue_nodes_lookup_all, IH.
Qed.

Lemma lookup_all_bound c ns :
  Forall (λ n, is_Some (info_get c n)) ns →
  ∃ nodes, lookup_all c ns = inr nodes ∧
           omap as_Var nodes = omap (var_bound_to c) ns.
Proof.
  induction 1 as [|n ns [sym Hn] _ (nodes & Hnodes & Hvars)]; [by exists []|].
  exists (node sym :: nodes). split; [simpl; by rewrite Hn, Hnodes|].
  change (omap as_Var (node sym :: nodes))
    with (match as_Var (node sym) with
          | Some v => v :: omap as_Var nodes
          | None => omap as_Var nodes
          end).
  change (omap (var_bound_to c) (n :: ns))
    with (match var_bound_to c n with
          | Some v => v :: omap (var_bound_to c) ns
          | None => omap (var_bound_to c) ns
          end).
  unfold var_bound_to at 1. rewrite Hn, Hvars. done.
Qed.

Lemma lookup_all_unbound c pre n post :
  Forall (λ n, is_Some (info_get c n)) pre → info_get c n = None →
  lookup_all c (pre ++ n :: post) = inl (KeyError n).
Proof.
  intros Hpre Hn. rewrite lookup_all_app.
  destruct (lookup_all_bound c pre Hpre) as (nodes & -> & _).
  simpl. by rewrite Hn.
Qed.

Lemma get_class_vars_collects_aux c :
  Forall (λ n, is_Some (info_get c n)) (assigned_names (body c)) →
  _get_class_vars c
  = (c, Return (omap (var_bound_to c) (assigned_names (body c)))).
Proof.
  intros Hbound. rewrite _get_class_vars_eq. unfold class_vars.
  rewrite body_nodes_lookup_all.
  destruct (lookup_all_bound c _ Hbound) as (nodes & Hnodes & Hvars).
  rewrite Hnodes. cbv beta iota. by rewrite Hvars.
Qed.

(** [_get_class_vars] returns, in the order of the assignments, the
    variables that the plain names assigned in the class body are bound to
    along the MRO.  Statements other than assignments, targets other than
    plain names and names bound to something else than a variable are
    passed over, and the class is not changed. *)
Theorem get_class_vars_collects (c : ClassDefContext) :
  Forall (λ n, is_Some (info_get c n)) (assigned_names (body c)) →
  _get_class_vars c
  = (c, Return (omap (var_bound_to c) (assigned_names (body c)))).
Proof.
  apply get_class_vars_collects_aux.
Qed.

(** A plain name assigned in the class body that no class of the MRO binds
    makes [_get_class_vars] raise [KeyError] for that name (the first such
    name), without changing the class.  With it the transformation raises
    that [KeyError], unless the class has a tuple type: then the first
    assertion fails before the variables are collected.  The class is left
    as it was in either case. *)
Theorem unbound_assigned_name_raises (c : ClassDefContext)
    (pre post : list string) (n : string) :
  assigned_names (body c) = pre ++ n :: post →
  Forall (λ n, is_Some (info_get c n)) pre → info_get c n = None →
  _get_class_vars c = (c, Raise (KeyError n)) ∧
  (is_Instance (fill_typevars c) = true →
   _transform_class c = (c, Raise (KeyError n))) ∧
  (is_Instance (fill_typevars c) = false →
   _transform_class c = (c, Raise (AssertionError ""))).
Proof.
  intros Hnames Hpre Hn.
  assert (class_vars c = inl (KeyError n)) as Hvars.
  { unfold class_vars. rewrite body_nodes_lookup_all, Hnames.
    by rewrite lookup_all_unbound. }
  split; [|split].
  - by rewrite _get_class_vars_eq, Hvars.
  - intros HI. by rewrite _transform_class_eq, HI, Hvars.
  - intros HI. by rewrite _transform_class_eq, HI.
Qed.

(** A class with a tuple type is refused by the first assertion of
    [_transform_class], before anything is changed. *)
Theorem tuple_class_rejected (c : ClassDefContext) (items : list Ty) (fallback : Ty) :
  tuple_type c = Some (TupleType items fallback) →
  _transform_class c = (c, Raise (AssertionError "")).
Proof.
  intros Ht. rewrite _transform_class_eq. unfold fill_typevars. by rewrite Ht.
Qed.

(* ===================================================================== *)
(** * Further properties: the failures of [_add_method] *)
(* ===================================================================== *)

Lemma list_remove_Some_in_body f b b' : list_remove f b = Some b' → in_body f b.
Proof.
  revert b'. induction b as [|s b IH]; intros b'; simpl; [done|].
  destruct (is_object f s) eqn:Hs.
  - intros _. destruct s as [|g| |]; try done.
    exists g. split; [apply elem_of_cons; by left|].
    simpl in Hs. by rewrite bool_decide_eq_true in Hs.
  - destruct (list_remove f b) as [b''|]; [|done]. intros _.
    destruct (IH b'' eq_refl) as (g & Hg & Hoid).
    exists g. split; [apply elem_of_cons; by right | done].
Qed.

(** When the name is bound to a generated function that is not a statement
    of the class body, [_add_method] raises the [ValueError] of
    [list.remove] and leaves the class as it was. *)
Theorem add_method_stale_function_missing (name : string)
    (args : list Argument) (return_type : Ty) (self_type : option Ty)
    (tvar_def : option TypeVarDef) (is_classmethod : bool)
    (c : ClassDefContext) (f : FuncDef) :
  stale c name = Some f → ¬ in_body f (body c) →
  _add_method name args return_type self_type tvar_def is_classmethod c
  = (c, Raise (ValueError "list.remove(x): x not in list")).
Proof.
  intros Hstale Hout. rewrite _add_method_eq. unfold add_method_outcome, drop_stale.
  rewrite Hstale. destruct (list_remove f (body c)) as [b|] eqn:Hrem; [|done].
  destruct Hout. by eapply list_remove_Some_in_body.
Qed.

Lemma split_args_untyped args :
  Exists (λ a, type_annotation a = None) args →
  split_args args = inl (AssertionError "All arguments must be fully typed.").
Proof.
  induction args as [|a args IH]; intros Hex; [by apply Exists_nil in Hex|].
  simpl. destruct (type_annotation a) as [t|] eqn:Ha; [|done].
  apply Exists_cons in Hex as [Hex|Hex]; [congruence|].
  by rewrite (IH Hex).
Qed.

(** An argument without annotation makes [_add_method] raise the assertion
    error.  The symbol table is untouched then, but the function generated
    earlier under the name has already been taken out of the class body. *)
Theorem add_method_untyped_argument (name : string)
    (args : list Argument) (return_type : Ty) (self_type : option Ty)
    (tvar_def : option TypeVarDef) (is_classmethod : bool)
    (c : ClassDefContext) (b : list Statement) :
  drop_stale name c = Some b →
  Exists (λ a, type_annotation a = None) args →
  ∃ c',
    _add_method name args return_type self_type tvar_def is_classmethod c
    = (c', Raise (AssertionError "All arguments must be fully typed.")) ∧
    names c' = names c ∧ body c' = b.
Proof.
  intros Hb Hex. rewrite _add_method_eq. unfold add_method_outcome. rewrite Hb.
  assert (split_args (receiver c self_type is_classmethod :: args)
          = inl (AssertionError "All arguments must be fully typed.")) as ->.
  { apply split_args_untyped. by apply Exists_cons_tl. }
  by eexists.
Qed.

(* ===================================================================== *)
(** * Further properties: how the symbol table grows *)
(* ===================================================================== *)

Lemma size_keep_existing_insert name sym (ns : gmap string SymbolTableNode) :
  size (<[name := sym]> (keep_existing name ns)) = S (size ns).
Proof.
  unfold keep_existing. destruct (ns !! name) as [old|] eqn:Hold.
  - pose proof (get_unique_redefinition_name_fresh name ns) as Hfresh.
    rewrite map_size_insert_Some.
    + by rewrite map_size_insert_None.
    + rewrite lookup_insert_ne; [by eexists|].
      intros E. rewrite E in Hfresh. congruence.
  - by rewrite map_size_insert_None.
Qed.

(** Every returning call of [_add_method] binds exactly one name more than
    were bound: the name itself when it was free, its redefinition name
    when it was not. *)
Theorem add_method_binds_one_more_name (name : string)
    (args : list Argument) (return_type : Ty) (self_type : option Ty)
    (tvar_def : option TypeVarDef) (is_classmethod : bool)
    (c c' : ClassDefContext) :
  _add_method name args return_type self_type tvar_def is_classmethod c
    = (c', Return tt) →
  size (names c') = S (size (names c)) ∧
  dom (names c') =
    {[ name ]} ∪ dom (names c) ∪
    match names c !! name with
    | Some _ => {[ get_unique_redefinition_name name (names c) ]}
    | None => ∅
    end.
Proof.
  intros Hrun.
  apply _add_method_Return in Hrun as (b & sig & _ & _ & Hnames & _).
  rewrite Hnames. split; [apply size_keep_existing_insert|].
  rewrite dom_insert_L. unfold keep_existing.
  destruct (names c !! name) as [old|].
  - rewrite dom_insert_L.
    rewrite (comm_L (∪) _ (dom (names c))), (assoc_L (∪)). done.
  - by rewrite (right_id_L ∅ (∪)).
Qed.

Lemma for_each_size I cases c s :
  for_each cases (transform_case I) c = (s, Return tt) →
  size (names s) = size (names c) + 2 * length cases.
Proof.
  revert c. induction cases as [|case cases IH]; intros c.
  - intros [= <-]. simpl. lia.
  - intros Hrun. apply for_each_cons_Return in Hrun as (s1 & Hcase & Hrest).
    apply IH in Hrest. rewrite Hrest. clear IH Hrest.
    unfold transform_case in Hcase.
    destruct (var_type case) as [t|]; [|done].
    unfold mbind, M_bind in Hcase.
    destruct (_add_method (var_name case) _ _ _ _ _ c) as [s0 [[]|e]] eqn:H0; [|done].
    apply _add_method_Return in H0 as (b0 & sig0 & _ & _ & Hn0 & _).
    apply _add_method_Return in Hcase as (b1 & sig1 & _ & _ & Hn1 & _).
    rewrite Hn1, size_keep_existing_insert, Hn0, size_keep_existing_insert.
    simpl. lia.
Qed.

(** A returning run binds two names more per case variable, one for
    [match], and one for [_MatchResult] unless that is bound already when
    the loop is over; it binds exactly [2 * cases + 1] names more when
    [_MatchResult] was bound before the run, as it is on every run after
    the first. *)
Theorem transform_class_growth (c c' : ClassDefContext) (cases : list Var) :
  class_vars c = inr cases →
  _transform_class c = (c', Return tt) →
  size (names c) + 2 * length cases + 1 ≤ size (names c')
    ≤ size (names c) + 2 * length cases + 2 ∧
  (is_Some (names c !! "_MatchResult") →
   size (names c') = size (names c) + 2 * length cases + 1).
Proof.
  intros Hcases Hrun.
  apply _transform_class_Return in Hrun as (cases' & s & _ & Hcases' & Hloop & Hfin).
  assert (cases' = cases) as -> by congruence.
  pose proof (for_each_size _ _ _ _ Hloop) as Hsize.
  apply for_each_extends in Hloop as (_ & Hdom & _).
  rewrite finish_eq in Hfin.
  apply _add_method_Return in Hfin as (bm & sigm & _ & _ & Hnames & _).
  rewrite Hnames, size_keep_existing_insert, before_match_names.
  destruct (names s !! "_MatchResult") as [old|] eqn:Hold.
  - rewrite map_size_insert_Some by by eexists. split; lia.
  - rewrite map_size_insert_None by done. split; [lia|].
    intros Hin%elem_of_dom. apply Hdom in Hin.
    apply elem_of_dom in Hin as [? ?]. congruence.
Qed.

(** After a returning run [_MatchResult] is bound to the type variable of
    the class, as a symbol that is not marked as generated, whatever it was
    bound to before or during the run: [_add_typevar] assigns without
    looking. *)
Theorem match_result_always_rebound (c c' : ClassDefContext) :
  _transform_class c = (c', Return tt) →
  names c' !! "_MatchResult" = Some (type_variable_symbol c "_MatchResult") ∧
  plugin_generated (type_variable_symbol c "_MatchResult") = false.
Proof.
  intros Hrun. split; [|done].
  apply _transform_class_Return in Hrun as (cases & s & _ & _ & Hloop & Hfin).
  apply for_each_extends in Hloop as ((_ & Hfull & _) & _).
  rewrite finish_eq in Hfin.
  apply _add_method_Return in Hfin as (bm & sigm & _ & _ & Hnames & _).
  rewrite Hnames, lookup_insert_ne by done.
  apply keep_existing_lookup. rewrite before_match_names, lookup_insert_eq.
  unfold type_variable_symbol. by rewrite Hfull.
Qed.

(* ===================================================================== *)
(** * Further properties: what the transformation leaves alone *)
(* ===================================================================== *)

Lemma non_functions_app b b' :
  non_functions (b ++ b') = non_functions b ++ non_functions b'.
Proof. apply filter_app. Qed.

Lemma list_remove_non_functions f b b' :
  list_remove f b = Some b' → non_functions b' = non_functions b.
Proof.
  revert b'. induction b as [|s b IH]; intros b'; simpl; [done|].
  destruct (is_object f s) eqn:Hs.
  - intros [= <-]. destruct s; try done.
  - destruct (list_remove f b) as [b''|]; [|done]. intros [= <-].
    unfold non_functions. rewrite !filter_cons.
    fold (non_functions b'') (non_functions b). by rewrite (IH b'' eq_refl).
Qed.

Lemma assigned_names_non_functions b :
  assigned_names (non_functions b) = assigned_names b.
Proof.
  induction b as [|s b IH]; [done|].
  unfold non_functions. rewrite filter_cons. fold (non_functions b).
  destruct s; simpl; by rewrite ?IH.
Qed.

Lemma _add_method_non_functions name args rt st tv ic c c' o :
  _add_method name args rt st tv ic c = (c', o) →
  non_functions (body c') = non_functions (body c).
Proof.
  rewrite _add_method_eq. unfold add_method_outcome, drop_stale.
  intros Hrun.
  assert (∀ b, match stale c name with
               | Some f => list_remove f (body c)
               | None => Some (body c)
               end = Some b → non_functions b = non_functions (body c)) as Hb.
  { intros b. destruct (stale c name) as [f|].
    - apply list_remove_non_functions.
    - by intros [= <-]. }
  destruct (match stale c name with Some _ => _ | None => _ end) as [b|];
    [|by injection Hrun as <- _].
  destruct (split_args _) as [e|sig]; injection Hrun as <- _; simpl.
  - by apply Hb.
  - rewrite non_functions_app, (Hb b eq_refl). simpl. apply app_nil_r.
Qed.

Lemma for_each_non_functions I cases c c' o :
  for_each cases (transform_case I) c = (c', o) →
  non_functions (body c') = non_functions (body c).
Proof.
  revert c. induction cases as [|case cases IH]; intros c; simpl.
  - by intros [= <- _].
  - unfold mbind, M_bind, transform_case.
    destruct (var_type case) as [t|]; [|by intros [= <- _]].
    unfold mbind, M_bind.
    destruct (_add_method (var_name case) _ _ _ _ _ c) as [s1 [[]|e]] eqn:H1.
    + destruct (_add_method (lower ucd (var_name case)) _ _ _ _ _ s1) as [s2 [[]|e]] eqn:H2.
      * intros Hrest. rewrite (IH _ Hrest).
        rewrite (_add_method_non_functions _ _ _ _ _ _ _ _ _ H2).
        by rewrite (_add_method_non_functions _ _ _ _ _ _ _ _ _ H1).
      * intros [= <- _].
        rewrite (_add_method_non_functions _ _ _ _ _ _ _ _ _ H2).
        by rewrite (_add_method_non_functions _ _ _ _ _ _ _ _ _ H1).
    + intros [= <- _]. by rewrite (_add_method_non_functions _ _ _ _ _ _ _ _ _ H1).
Qed.

Lemma _transform_class_non_functions c c' o :
  _transform_class c = (c', o) →
  non_functions (body c') = non_functions (body c).
Proof.
  rewrite _transform_class_eq.
  destruct (is_Instance (fill_typevars c)); [|by intros [= <- _]].
  destruct (class_vars c) as [e|cases]; [by intros [= <- _]|].
  destruct (for_each cases _ c) as [s [[]|e]] eqn:Hloop.
  - rewrite finish_eq. intros Hfin.
    rewrite (_add_method_non_functions _ _ _ _ _ _ _ _ _ Hfin).
    rewrite before_match_body. by eapply for_each_non_functions.
  - intros [= <- _]. by eapply for_each_non_functions.
Qed.

(** Whatever its outcome, a run neither removes, adds nor reorders a
    statement of the class body that is not a function definition; in
    particular the assignments that declare the cases stay as they are. *)
Theorem transform_class_keeps_statements (c c' : ClassDefContext) (o : Outcome unit) :
  _transform_class c = (c', o) →
  non_functions (body c') = non_functions (body c) ∧
  assigned_names (body c') = assigned_names (body c).
Proof.
  intros Hrun. apply _transform_class_non_functions in Hrun as Hnf.
  split; [done|].
  by rewrite <- (assigned_names_non_functions (body c')), Hnf,
    assigned_names_non_functions.
Qed.

(** Whatever its outcome, a run leaves the name, the full name, the line,
    the type variables, the tuple type and the base classes of the class as
    they are, unbinds no name, and loses no symbol: what a name other than
    [_MatchResult] was bound to is bound to some such name afterwards. *)
Theorem transform_class_never_unbinds (c c' : ClassDefContext) (o : Outcome unit) :
  _transform_class c = (c', o) →
  same_class c c' ∧
  dom (names c) ⊆ dom (names c') ∧
  ∀ k sym, names c !! k = Some sym → k ≠ "_MatchResult" →
    ∃ k', k' ≠ "_MatchResult" ∧ names c' !! k' = Some sym.
Proof.
  intros Hrun. pose proof (_transform_class_extends _ _ _ Hrun) as (Hsame & Hdom & _).
  split; [done|]. split; [done|].
  intros k sym Hk Hne. by eapply _transform_class_keeps_symbols.
Qed.

(* ===================================================================== *)
(** * The symbol table after the run *)
(* ===================================================================== *)

Lemma signature_of_name f sig : signature_of f = Some sig → s_name sig = func_name f.
Proof.
  unfold signature_of. destruct (func_type f) as [[]|]; try done.
  destruct (declared_parameters f) as [[|? ?]|]; try done. by intros [= <-].
Qed.

Lemma _add_method_lookup_other name args rt st tv ic c c' k sym :
  _add_method name args rt st tv ic c = (c', Return tt) →
  k ≠ name → names c !! k = Some sym → names c' !! k = Some sym.
Proof.
  intros Hrun Hne Hk.
  apply _add_method_Return in Hrun as (b & sig & _ & _ & Hnames & _).
  rewrite Hnames, lookup_insert_ne by done. by apply keep_existing_lookup.
Qed.

Lemma transform_case_lookup_other I case c c' k sym :
  transform_case I case c = (c', Return tt) →
  k ≠ var_name case → k ≠ lower ucd (var_name case) →
  names c !! k = Some sym → names c' !! k = Some sym.
Proof.
  unfold transform_case. destruct (var_type case) as [t|]; [|done].
  unfold mbind, M_bind.
  destruct (_add_method (var_name case) _ _ _ _ _ c) as [s [[]|e]] eqn:H1; [|done].
  intros H2 Hne1 Hne2 Hk.
  eapply _add_method_lookup_other; [done | done |].
  by eapply _add_method_lookup_other.
Qed.

Lemma method_names_cons case cases :
  method_names (case :: cases)
  = var_name case :: lower ucd (var_name case) :: method_names cases.
Proof. reflexivity. Qed.

Lemma for_each_lookup_other I cases c s k sym :
  for_each cases (transform_case I) c = (s, Return tt) →
  k ∉ method_names cases →
  names c !! k = Some sym → names s !! k = Some sym.
Proof.
  revert c. induction cases as [|case cases IH]; intros c.
  - by intros [= <-].
  - intros Hrun Hout Hk.
    apply for_each_cons_Return in Hrun as (s1 & Hcase & Hrest).
    rewrite method_names_cons in Hout.
    apply not_elem_of_cons in Hout as [Hne1 Hout].
    apply not_elem_of_cons in Hout as [Hne2 Hout].
    eapply IH; [done | done |]. by eapply transform_case_lookup_other.
Qed.

(** What one iteration binds the two names to. *)
Lemma transform_case_lookup I case t c c' :
  var_type case = Some t →
  transform_case I case c = (c', Return tt) →
  ∃ fc fa,
    signature_of fc = Some (constructor_signature I (mkVariant (var_name case) t)) ∧
    signature_of fa = Some (accessor_signature (mkVariant (var_name case) t)) ∧
    names c' !! lower ucd (var_name case) = Some (generated fa) ∧
    (lower ucd (var_name case) ≠ var_name case →
     names c' !! var_name case = Some (generated fc)) ∧
    (lower ucd (var_name case) = var_name case →
     ∃ r, contains "-" r = true ∧ names c' !! r = Some (generated fc)) ∧
    receiver_of fc = Some cls_receiver ∧
    receiver_of fa = Some (self_receiver (fill_typevars c)).
Proof.
  intros Ht Hrun.
  destruct (transform_case_emitted _ _ _ _ Hrun)
    as (v & fc & fa & Hv & Hem & Hfc & Hfa & Hrc & Hra).
  unfold variant_of in Hv. rewrite Ht in Hv. injection Hv as <-.
  inversion Hem as [|? ? s1 ? ? Hadd_c Hem']; subst.
  inversion Hem' as [|? ? s2 ? ? Hadd_a Hem'']; subst.
  inversion Hem''; subst.
  pose proof (signature_of_name _ _ Hfc) as Hnc.
  pose proof (signature_of_name _ _ Hfa) as Hna.
  simpl in Hnc, Hna.
  pose proof (added_lookup _ _ _ Hadd_c) as Hlc.
  pose proof (added_lookup _ _ _ Hadd_a) as Hla.
  rewrite <- Hnc in Hlc. rewrite <- Hna in Hla.
  destruct Hadd_a as (_ & _ & Hnames & _). rewrite <- Hna in Hnames.
  exists fc, fa. split; [done|]. split; [done|]. split; [done|].
  split; [|split; [|done]].
  - intros Hne. rewrite Hnames, lookup_insert_ne by done.
    by apply keep_existing_lookup.
  - intros Heq. rewrite Heq in Hnames.
    exists (get_unique_redefinition_name (var_name case) (names s1)).
    split; [apply get_unique_redefinition_name_dash|].
    pose proof (get_unique_redefinition_name_fresh (var_name case) (names s1)) as Hfresh.
    rewrite Hnames, lookup_insert_ne by (intros E; rewrite <- E in Hfresh; congruence).
    unfold keep_existing. rewrite Hlc. apply lookup_insert_eq.
Qed.

Lemma generated_signature_lookup c k f :
  names c !! k = Some (generated f) → generated_signature c k = signature_of f.
Proof. intros Hk. unfold generated_signature, stale. by rewrite Hk. Qed.

Lemma generated_receiver_lookup c k f :
  names c !! k = Some (generated f) → generated_receiver c k = receiver_of f.
Proof. intros Hk. unfold generated_receiver, stale. by rewrite Hk. Qed.

Lemma for_each_final I cases c s :
  for_each cases (transform_case I) c = (s, Return tt) →
  NoDup (method_names cases) →
  ∀ v t, v ∈ cases → var_type v = Some t →
    ∃ fc fa,
      signature_of fc = Some (constructor_signature I (mkVariant (var_name v) t)) ∧
      signature_of fa = Some (accessor_signature (mkVariant (var_name v) t)) ∧
      names s !! var_name v = Some (generated fc) ∧
      names s !! lower ucd (var_name v) = Some (generated fa) ∧
      receiver_of fc = Some cls_receiver ∧
      receiver_of fa = Some (self_receiver (fill_typevars c)).
Proof.
  revert c. induction cases as [|case cases IH]; intros c Hrun Hnd v t Hv Ht.
  - by apply elem_of_nil in Hv.
  - apply for_each_cons_Return in Hrun as (s1 & Hcase & Hrest).
    apply transform_case_extends in Hcase as Hext.
    rewrite method_names_cons in Hnd.
    apply NoDup_cons in Hnd as [Hout1 Hnd].
    apply NoDup_cons in Hnd as [Hout2 Hnd].
    apply elem_of_cons in Hv as [->|Hv].
    2: { destruct (IH s1 Hrest Hnd v t Hv Ht)
           as (fc & fa & ? & ? & ? & ? & ? & Hra).
         rewrite (same_class_fill_typevars c s1) in Hra by apply Hext.
         by exists fc, fa. }
    destruct (transform_case_lookup _ _ _ _ _ Ht Hcase)
      as (fc & fa & Hfc & Hfa & Hla & Hlc & _ & Hrc & Hra).
    apply not_elem_of_cons in Hout1 as [Hne Hout1].
    exists fc, fa. split; [done|]. split; [done|]. split; [|split; [|done]].
    + eapply for_each_lookup_other; [done | done |]. by apply Hlc.
    + by eapply for_each_lookup_other.
Qed.

Lemma finish_lookup_other cases s c' k sym :
  finish cases s = (c', Return tt) →
  k ≠ "match" → k ≠ "_MatchResult" →
  names s !! k = Some sym → names c' !! k = Some sym.
Proof.
  rewrite finish_eq. intros Hrun Hne1 Hne2 Hk.
  eapply _add_method_lookup_other; [done | done |].
  by rewrite before_match_names, lookup_insert_ne.
Qed.

Lemma method_names_elem v cases :
  v ∈ cases →
  var_name v ∈ method_names cases ∧ lower ucd (var_name v) ∈ method_names cases.
Proof.
  induction cases as [|case cases IH]; intros Hv; [by apply elem_of_nil in Hv|].
  rewrite method_names_cons.
  apply elem_of_cons in Hv as [->|Hv].
  - split; [apply elem_of_cons; by left|].
    apply elem_of_cons; right. apply elem_of_cons; by left.
  - destruct (IH Hv). split; do 2 (apply elem_of_cons; right); done.
Qed.

(** When the method names are pairwise different, the class the run leaves
    binds the name of every case to its constructor and the lowercase name
    to its accessor. *)
Lemma _transform_class_final c cases s c' :
  for_each cases (transform_case (fill_typevars c)) c = (s, Return tt) →
  finish cases s = (c', Return tt) →
  NoDup (method_names cases ++ ["_MatchResult"; "match"]) →
  ∀ v t, v ∈ cases → var_type v = Some t →
    generated_signature c' (var_name v)
      = Some (constructor_signature (fill_typevars c) (mkVariant (var_name v) t)) ∧
    generated_receiver c' (var_name v) = Some cls_receiver ∧
    generated_signature c' (lower ucd (var_name v))
      = Some (accessor_signature (mkVariant (var_name v) t)) ∧
    generated_receiver c' (lower ucd (var_name v))
      = Some (self_receiver (fill_typevars c)).
Proof.
  intros Hloop Hfin Hnd v t Hv Hvt.
  apply NoDup_app in Hnd as (Hnd & Hdis & _).
  destruct (for_each_final _ _ _ _ Hloop Hnd v t Hv Hvt)
    as (fc & fa & Hfc & Hfa & Hlc & Hla & Hrc & Hra).
  assert (∀ k, k ∈ method_names cases → k ≠ "match" ∧ k ≠ "_MatchResult") as Hne.
  { intros k Hk. split; intros ->; apply (Hdis _ Hk).
    - apply elem_of_cons; right. apply elem_of_cons; by left.
    - apply elem_of_cons; by left. }
  destruct (method_names_elem v cases Hv) as [Hin1 Hin2].
  destruct (Hne _ Hin1) as [? ?]. destruct (Hne _ Hin2) as [? ?].
  assert (names c' !! var_name v = Some (generated fc)) as Hc
    by (by eapply finish_lookup_other).
  assert (names c' !! lower ucd (var_name v) = Some (generated fa)) as Ha
    by (by eapply finish_lookup_other).
  rewrite (generated_signature_lookup c' _ fc Hc),
    (generated_receiver_lookup c' _ fc Hc),
    (generated_signature_lookup c' _ fa Ha),
    (generated_receiver_lookup c' _ fa Ha).
  done.
Qed.


(** On a ready class whose method names (the names of the cases, their
    lowercase forms, [_MatchResult] and [match]) are pairwise different,
    the run returns and leaves every case name bound to the constructor of
    the case, a classmethod with the receiver [cls], and every lowercase
    name bound to its accessor, an instance method with the receiver
    [self]. *)
Theorem constructors_and_accessors_bound (c : ClassDefContext) (cases : list Var) :
  ready c cases →
  NoDup (method_names cases ++ ["_MatchResult"; "match"]) →
  ∃ c',
    _transform_class c = (c', Return tt) ∧
    ∀ v t, v ∈ cases → var_type v = Some t →
      generated_signature c' (var_name v)
        = Some (constructor_signature (fill_typevars c) (mkVariant (var_name v) t)) ∧
      generated_receiver c' (var_name v) = Some cls_receiver ∧
      generated_signature c' (lower ucd (var_name v))
        = Some (accessor_signature (mkVariant (var_name v) t)) ∧
      generated_receiver c' (lower ucd (var_name v))
        = Some (self_receiver (fill_typevars c)).
Proof.
  intros [HI Hcases Ht Hn Hc] Hnd.
  destruct (_transform_class_returns c cases) as (s & c' & Hloop & Hfin & Hrun & _);
    [done..|].
  exists c'. split; [done|]. by apply (_transform_class_final c cases s c').
Qed.

(** A case whose name is lowercase already gets no constructor under its
    name: the iteration installs the constructor and then, under the same
    name, the accessor, which takes the name while the constructor is left
    under a redefinition name only. *)
Theorem lowercase_case_loses_constructor (instanceType : Ty) (case : Var)
    (t : Ty) (c c' : ClassDefContext) :
  var_type case = Some t →
  lower ucd (var_name case) = var_name case →
  transform_case instanceType case c = (c', Return tt) →
  generated_signature c' (var_name case)
    = Some (accessor_signature (mkVariant (var_name case) t)) ∧
  generated_receiver c' (var_name case)
    = Some (self_receiver (fill_typevars c)) ∧
  ∃ r, contains "-" r = true ∧
       generated_signature c' r
         = Some (constructor_signature instanceType (mkVariant (var_name case) t)) ∧
       generated_receiver c' r = Some cls_receiver.
Proof.
  intros Ht Hlow Hrun.
  destruct (transform_case_lookup _ _ _ _ _ Ht Hrun)
    as (fc & fa & Hfc & Hfa & Hla & _ & Hr & Hrc & Hra).
  destruct (Hr Hlow) as (r & Hdash & Hlr).
  rewrite Hlow in Hla. split; [|split].
  - by rewrite (generated_signature_lookup c' _ fa).
  - by rewrite (generated_receiver_lookup c' _ fa).
  - exists r. split; [done|].
    by rewrite (generated_signature_lookup c' _ fc),
      (generated_receiver_lookup c' _ fc).
Qed.

(* ===================================================================== *)
(** * Further properties: the second run *)
(* ===================================================================== *)

Lemma settled_refl c k : settled c c k.
Proof. by left. Qed.

Lemma settled_trans c1 c2 c3 k : settled c1 c2 k → settled c2 c3 k → settled c1 c3 k.
Proof.
  intros H12 [H23|H23]; [|by right].
  destruct H12 as [H12|(sym & Hsym & Hnv)].
  - left. congruence.
  - right. exists sym. split; [congruence | done].
Qed.

Lemma settled_not_var c c' k sym :
  settled c c' k → names c !! k = Some sym → not_var sym →
  ∃ sym', names c' !! k = Some sym' ∧ not_var sym'.
Proof.
  intros [Heq|Hnv] Hk Hsym; [|done]. exists sym. split; [congruence | done].
Qed.

Lemma _add_method_settled name args rt st tv ic c c' o k :
  contains "-" k = false →
  _add_method name args rt st tv ic c = (c', o) → settled c c' k.
Proof.
  intros Hk. rewrite _add_method_eq. unfold add_method_outcome.
  destruct (drop_stale name c) as [b|]; [|intros [= <- _]; by left].
  destruct (split_args _) as [e|sig]; intros [= <- _]; [by left|].
  unfold settled. simpl. destruct (decide (k = name)) as [->|Hne].
  - right. eexists. split; [apply lookup_insert_eq | done].
  - left. rewrite lookup_insert_ne by done.
    by apply keep_existing_lookup_no_dash.
Qed.

Lemma for_each_settled I cases c c' o k :
  contains "-" k = false →
  for_each cases (transform_case I) c = (c', o) → settled c c' k.
Proof.
  intros Hk. revert c. induction cases as [|case cases IH]; intros c; simpl.
  - intros [= <- _]. apply settled_refl.
  - unfold mbind, M_bind, transform_case.
    destruct (var_type case) as [t|]; [|intros [= <- _]; apply settled_refl].
    unfold mbind, M_bind.
    destruct (_add_method (var_name case) _ _ _ _ _ c) as [s1 [[]|e]] eqn:H1.
    + destruct (_add_method (lower ucd (var_name case)) _ _ _ _ _ s1) as [s2 [[]|e]] eqn:H2.
      * intros Hrest.
        eapply settled_trans; [by eapply _add_method_settled|].
        eapply settled_trans; [by eapply _add_method_settled | by apply IH].
      * intros [= <- _].
        eapply settled_trans; by eapply _add_method_settled.
    + intros [= <- _]. by eapply _add_method_settled.
Qed.

Lemma finish_settled cases s c' o k :
  contains "-" k = false → finish cases s = (c', o) → settled s c' k.
Proof.
  intros Hk. rewrite finish_eq. intros Hrun.
  eapply settled_trans; [|by eapply _add_method_settled].
  unfold settled. rewrite before_match_names.
  destruct (decide (k = "_MatchResult")) as [->|Hne].
  - right. eexists. split; [apply lookup_insert_eq | done].
  - left. by rewrite lookup_insert_ne.
Qed.

(** When the loop is over, the name of every case is bound to something
    that is not a variable. *)
Lemma for_each_written I cases c s :
  for_each cases (transform_case I) c = (s, Return tt) →
  Forall well_named cases →
  ∀ v, v ∈ cases → ∃ sym, names s !! var_name v = Some sym ∧ not_var sym.
Proof.
  revert c. induction cases as [|case cases IH]; intros c Hrun Hn v Hv.
  - by apply elem_of_nil in Hv.
  - apply for_each_cons_Return in Hrun as (s1 & Hcase & Hrest).
    apply Forall_cons_1 in Hn as [Hn Hns].
    apply elem_of_cons in Hv as [->|Hv]; [|by eapply IH].
    assert (∃ sym1, names s1 !! var_name case = Some sym1 ∧ not_var sym1)
      as (sym1 & Hs1 & Hnv1).
    { destruct (var_type case) as [t|] eqn:Ht;
        [|unfold transform_case in Hcase; by rewrite Ht in Hcase].
      destruct (transform_case_lookup _ _ _ _ _ Ht Hcase)
        as (fc & fa & _ & _ & Hla & Hlc & _).
      destruct (decide (lower ucd (var_name case) = var_name case)) as [Heq|Hne].
      - rewrite Heq in Hla. by eexists.
      - specialize (Hlc Hne). by eexists. }
    eapply settled_not_var; [by eapply for_each_settled | done | done].
Qed.

Lemma lookup_all_inr_bound c ns nodes :
  lookup_all c ns = inr nodes → Forall (λ n, is_Some (info_get c n)) ns.
Proof.
  revert nodes. induction ns as [|n ns IH]; intros nodes; [by constructor|].
  simpl. destruct (info_get c n) as [sym|] eqn:Hn; [|done].
  destruct (lookup_all c ns) as [e|nodes']; [done|]. intros _.
  constructor; [cbv beta; rewrite Hn; by eexists | exact (IH nodes' eq_refl)].
Qed.

(** What [class_vars] returns when it returns. *)
Lemma class_vars_inr c cases :
  class_vars c = inr cases →
  Forall (λ n, is_Some (info_get c n)) (assigned_names (body c)) ∧
  cases = omap (var_bound_to c) (assigned_names (body c)).
Proof.
  unfold class_vars. rewrite body_nodes_lookup_all.
  destruct (lookup_all c (assigned_names (body c))) as [e|nodes] eqn:Hnodes; [done|].
  intros [= <-]. pose proof (lookup_all_inr_bound _ _ _ Hnodes) as Hbound.
  split; [done|].
  destruct (lookup_all_bound c _ Hbound) as (nodes' & Hnodes' & Hvars).
  congruence.
Qed.

Lemma info_get_names c n :
  info_get c n =
  match names c !! n with
  | Some sym => Some sym
  | None => mro_get (mro_tail c) n
  end.
Proof. reflexivity. Qed.

(** After a returning run on a ready class, no name assigned in the body is
    bound to a variable any more. *)
Lemma assigned_names_not_var c cases s c' :
  ready c cases →
  Forall (λ n, contains "-" n = false) (assigned_names (body c)) →
  (∀ n v, n ∈ assigned_names (body c) → var_bound_to c n = Some v →
          var_name v = n) →
  for_each cases (transform_case (fill_typevars c)) c = (s, Return tt) →
  finish cases s = (c', Return tt) →
  Forall (λ n, is_Some (info_get c' n) ∧ var_bound_to c' n = None)
    (assigned_names (body c)).
Proof.
  intros [HI Hcases Ht Hn Hc] Hdash Hagree Hloop Hfin.
  destruct (class_vars_inr _ _ Hcases) as [Hbound ->].
  assert (mro_tail c' = mro_tail c) as Hmro.
  { apply for_each_extends in Hloop as ((_&_&_&_&_&H1) & _).
    apply finish_extends in Hfin as ((_&_&_&_&_&H2) & _). congruence. }
  apply Forall_forall. intros n Hin.
  pose proof (proj1 (Forall_forall _ _) Hdash n Hin) as Hn_dash.
  pose proof (proj1 (Forall_forall _ _) Hbound n Hin) as [sym Hsym].
  simpl in Hn_dash.
  assert (settled c c' n) as Hsettled.
  { eapply settled_trans; [by eapply for_each_settled | by eapply finish_settled]. }
  enough (∃ sym', names c' !! n = Some sym' ∧ not_var sym' ∨
                  names c' !! n = None ∧ mro_get (mro_tail c) n = Some sym' ∧
                  not_var sym') as (sym' & [[Hk Hnv]|(Hk & Hm & Hnv)]).
  { unfold var_bound_to. rewrite info_get_names, Hk. simpl. by split; [eexists|]. }
  { unfold var_bound_to. rewrite info_get_names, Hk, Hmro, Hm. simpl.
    by split; [eexists|]. }
  destruct (var_bound_to c n) as [v|] eqn:Hv.
  - (* bound to a case variable: its name has been assigned by the loop *)
    assert (v ∈ omap (var_bound_to c) (assigned_names (body c))) as Hvin.
    { apply list_elem_of_omap. by exists n. }
    pose proof (Hagree n v Hin Hv) as Hname.
    destruct (for_each_written _ _ _ _ Hloop Hn v Hvin) as (sym1 & Hs1 & Hnv1).
    rewrite Hname in Hs1.
    destruct (settled_not_var s c' n sym1) as (sym' & Hk & Hnv);
      [by eapply finish_settled | done | done |].
    exists sym'. by left.
  - (* bound to something else: either untouched or assigned by the run *)
    assert (not_var sym) as Hnv.
    { unfold var_bound_to in Hv. rewrite Hsym in Hv. exact Hv. }
    destruct Hsettled as [Heq|(sym' & Hk & Hnv')]; [|exists sym'; by left].
    rewrite info_get_names in Hsym. rewrite <- Heq in Hsym.
    destruct (names c' !! n) as [sym'|] eqn:Hk.
    + injection Hsym as ->. exists sym. by left.
    + exists sym. by right.
Qed.

Lemma omap_all_None {A B} (f : A → option B) (l : list A) :
  Forall (λ x, f x = None) l → omap f l = [].
Proof.
  induction 1 as [|x l Hx _ IH]; [done|].
  change (omap f (x :: l))
    with (match f x with Some y => y :: omap f l | None => omap f l end).
  by rewrite Hx.
Qed.

(** The second run of the transformation finds no case variable.  On a
    ready class whose assigned names are identifiers and are bound to
    variables of the same name, the first run binds the name of every case
    to a generated method, so that [_get_class_vars] collects nothing from
    the transformed class; a second run then returns as well and
    regenerates [match] without any handler parameter. *)
Theorem second_run_finds_no_cases (c : ClassDefContext) (cases : list Var) :
  ready c cases →
  Forall (λ n, contains "-" n = false) (assigned_names (body c)) →
  (∀ n v, n ∈ assigned_names (body c) → var_bound_to c n = Some v →
          var_name v = n) →
  ∃ c' c'',
    _transform_class c = (c', Return tt) ∧
    _get_class_vars c' = (c', Return []) ∧
    _transform_class c' = (c'', Return tt) ∧
    generated_signature c'' "match"
      = Some (match_signature (type_variable c "_MatchResult") []).
Proof.
  intros Hready Hdash Hagree.
  pose proof Hready as [HI Hcases Ht Hn Hc].
  destruct (_transform_class_returns c cases)
    as (s & c' & Hloop & Hfin & Hrun & Hc'); [done..|].
  pose proof (assigned_names_not_var _ _ _ _ Hready Hdash Hagree Hloop Hfin) as Hnv.
  pose proof (_transform_class_extends _ _ _ Hrun) as Hext.
  assert (assigned_names (body c') = assigned_names (body c)) as Hnames.
  { apply _transform_class_non_functions in Hrun.
    by rewrite <- (assigned_names_non_functions (body c')), Hrun,
      assigned_names_non_functions. }
  assert (_get_class_vars c' = (c', Return [])) as Hvars.
  { rewrite get_class_vars_collects_aux; [|rewrite Hnames].
    - rewrite Hnames. do 2 f_equal. apply omap_all_None.
      eapply Forall_impl; [exact Hnv | by intros n [_ ?]].
    - eapply Forall_impl; [exact Hnv | by intros n [? _]]. }
  assert (class_vars c' = inr []) as Hcases'.
  { rewrite _get_class_vars_eq in Hvars.
    destruct (class_vars c') as [e|vs]; [done|]. by injection Hvars as ->. }
  assert (is_Instance (fill_typevars c') = true) as HI'
    by (by rewrite (same_class_fill_typevars c c') by apply Hext).
  destruct (_transform_class_returns c' [])
    as (s2 & c'' & _ & _ & Hrun2 & _); [done | done | constructor | constructor | done |].
  destruct (_transform_class_match c' [] [] c'') as (f & Hf & _ & _ & _ & _ & Hsig);
    [done | done | constructor | done |].
  exists c', c''. split; [done|]. split; [done|]. split; [done|].
  rewrite (generated_signature_lookup c'' _ f) by done.
  by rewrite <- (extends_type_variable c c').
Qed.

(* ===================================================================== *)
(** * Further properties: the version gate *)
(* ===================================================================== *)

Lemma plugin_accepts version :
  plugin version = inr ADTPluginClass ↔
  ∃ d, Dec.of_string ucd version = Some d ∧ Dec.ge d floor = inr true.
Proof.
  unfold plugin. rewrite floor_of_string.
  destruct (Dec.of_string ucd version) as [d|]; [|split; [done | by intros (d & ? & _)]].
  split.
  - intros H. exists d. split; [done|].
    destruct (Dec.ge d floor) as [e|[]]; done.
  - intros (d' & [= <-] & ->). done.
Qed.

(** How [plugin] fails.  It raises [InvalidOperation] exactly for the
    version strings that [Decimal] does not read (no numeric string, or a
    value beyond the limits of [decimal]) or reads as a NaN, and the
    assertion error exactly for those that read as a number (or an
    infinity) below 0.711; it raises nothing else. *)
Theorem plugin_failures (version : string) :
  (plugin version = inl InvalidOperation ↔
   Dec.of_string ucd version = None ∨
   ∃ neg sg, Dec.of_string ucd version = Some (Dec.NaN neg sg)) ∧
  (plugin version = inl (AssertionError "") ↔
   ∃ d, Dec.of_string ucd version = Some d ∧ Dec.is_nan d = false ∧
        ¬ at_least_floor d) ∧
  (∀ e, plugin version = inl e → e = InvalidOperation ∨ e = AssertionError "").
Proof.
  unfold plugin. rewrite floor_of_string.
  destruct (Dec.of_string ucd version) as [d|].
  2: { split; [|split].
       - split; [by left | done].
       - split; [done | by intros (d & ? & _)].
       - intros e [= <-]. by left. }
  pose proof (ge_floor d) as Hge.
  destruct d as [neg coeff e|neg|neg sg].
  - unfold Dec.ge in *. change (Dec.is_nan _ || Dec.is_nan _) with false in *.
    cbv iota in *.
    destruct (match Dec.cmp (Dec.Finite neg coeff e) floor with
              | Lt => false | _ => true end) eqn:Hcmp.
    + split; [|split].
      * split; [done | by intros [?|(? & ? & ?)]].
      * split; [done|]. intros (d & [= <-] & _ & Hno). destruct Hno. by apply Hge.
      * done.
    + split; [|split].
      * split; [done | by intros [?|(? & ? & ?)]].
      * split; [|done]. intros _. eexists. split; [done|]. split; [done|].
        intros Hat. apply Hge in Hat. done.
      * intros e' [= <-]. by right.
  - destruct neg; simpl in *.
    + split; [|split].
      * split; [done | by intros [?|(? & ? & ?)]].
      * split; [|done]. intros _. eexists. split; [done|]. split; [done|]. done.
      * intros e' [= <-]. by right.
    + split; [|split].
      * split; [done | by intros [?|(? & ? & ?)]].
      * split; [done|]. intros (d & [= <-] & _ & Hno). by destruct Hno.
      * done.
  - simpl. split; [|split].
    + split; [intros _; right; by do 2 eexists | done].
    + split; [done|]. by intros (d & [= <-] & ? & _).
    + intros e' [= <-]. by left.
Qed.

(** The gate is monotone in the value of the version: a version that reads
    as a number at least as large as an accepted one is accepted, however
    the two are written. *)
Theorem plugin_monotone (v w : string) (nv nw : bool) (cv cw : N) (ev ew : Z) :
  Dec.of_string ucd v = Some (Dec.Finite nv cv ev) →
  Dec.of_string ucd w = Some (Dec.Finite nw cw ew) →
  (Dec.to_Q nv cv ev <= Dec.to_Q nw cw ew)%Q →
  plugin v = inr ADTPluginClass → plugin w = inr ADTPluginClass.
Proof.
  intros Hv Hw Hle Hacc.
  apply plugin_accepts in Hacc as (d & Hd & Hge).
  rewrite Hv in Hd. injection Hd as <-.
  apply ge_floor in Hge. simpl in Hge.
  apply plugin_accepts. eexists. split; [exact Hw|].
  apply ge_floor. simpl. by eapply Qle_trans.
Qed.

(** ** Version strings with more than one dot *)

Lemma N_of_ascii_dot (a : ascii) : "."%char = a ↔ N_of_ascii a = 46%N.
Proof.
  split; [by intros <-|]. intros H.
  rewrite <- (ascii_N_embedding a), H. reflexivity.
Qed.

Lemma ascii_of_N_dot (n : N) : (n < 256)%N → "."%char = ascii_of_N n ↔ n = 46%N.
Proof.
  intros Hn. split; [|by intros ->]. intros H.
  apply (f_equal N_of_ascii) in H. rewrite N_ascii_embedding in H by done.
  by rewrite <- H.
Qed.

Lemma count_code_point_app cp l1 l2 :
  count_code_point cp (l1 ++ l2) = count_code_point cp l1 + count_code_point cp l2.
Proof. induction l1 as [|ch l1 IH]; simpl; [done|]. rewrite IH. lia. Qed.

Lemma count_code_point_reverse cp l :
  count_code_point cp (reverse l) = count_code_point cp l.
Proof.
  induction l as [|ch l IH]; [done|].
  rewrite reverse_cons, count_code_point_app, IH. simpl. lia.
Qed.

Lemma continuation_not_dot b c1 : continuation b = Some c1 → "."%char ≠ b.
Proof. intros H <-. by vm_compute in H. Qed.

Lemma code_point_least least cp cp' :
  code_point least cp = Some cp' → (least ≤ cp')%N.
Proof.
  unfold code_point. destruct (_ && _) eqn:E; [|done]. intros [= <-].
  apply andb_prop in E as [E _]. apply andb_prop in E as [E _].
  by apply N.leb_le.
Qed.

(** The dots of a string are the code points [U+002E] of its text: no byte
    of a longer encoding is a dot. *)
Lemma count_dot_code_points s chs :
  code_points s = Some chs → count_char "." s = count_code_point 46 chs.
Proof.
  remember (String.length s) as n eqn:Hn. revert s chs Hn.
  induction n as [n IH] using lt_wf_ind. intros s chs Hn.
  destruct s as [|b0 s1]; [by intros [= <-]|].
  assert (∀ s' chs', String.length s' < n → code_points s' = Some chs' →
            count_char "." s' = count_code_point 46 chs') as IH'.
  { intros s' chs' Hlt. by apply (IH (String.length s')). }
  clear IH. simpl in Hn.
  change (code_points (String b0 s1)) with
    (let n0 := N_of_ascii b0 in
     if (n0 <? 128)%N then cons n0 <$> code_points s1
     else if (n0 <? 192)%N then None
     else if (n0 <? 224)%N then
       match s1 with
       | String b1 s2 =>
           c1 ← continuation b1;
           cp ← code_point 128 ((n0 - 192) * 64 + c1);
           cons cp <$> code_points s2
       | _ => None
       end
     else if (n0 <? 240)%N then
       match s1 with
       | String b1 (String b2 s3) =>
           c1 ← continuation b1; c2 ← continuation b2;
           cp ← code_point 2048 (((n0 - 224) * 64 + c1) * 64 + c2);
           cons cp <$> code_points s3
       | _ => None
       end
     else if (n0 <? 248)%N then
       match s1 with
       | String b1 (String b2 (String b3 s4)) =>
           c1 ← continuation b1; c2 ← continuation b2; c3 ← continuation b3;
           cp ← code_point 65536
                  ((((n0 - 240) * 64 + c1) * 64 + c2) * 64 + c3);
           cons cp <$> code_points s4
       | _ => None
       end
     else None).
  cbv zeta.
  destruct (N_of_ascii b0 <? 128)%N eqn:H0.
  { destruct (code_points s1) as [chs1|] eqn:H1; [|done]. intros [= <-].
    simpl. rewrite (IH' s1 chs1) by (done || lia).
    destruct (decide ("."%char = b0)) as [E|E],
             (decide (46%N = N_of_ascii b0)) as [E'|E']; try done.
    - apply N_of_ascii_dot in E. congruence.
    - symmetry in E'. apply N_of_ascii_dot in E'. done. }
  assert ("."%char ≠ b0) as Hb0 by (intros <-; by vm_compute in H0).
  assert (∀ least cp cp' rest, (128 ≤ least)%N →
            code_point least cp = Some cp' →
            count_code_point 46 (cp' :: rest) = count_code_point 46 rest) as Hcp.
  { intros least cp cp' rest Hl Hc. apply code_point_least in Hc. simpl.
    destruct (decide (46%N = cp')) as [<-|]; [lia | done]. }
  destruct (N_of_ascii b0 <? 192)%N; [done|].
  destruct (N_of_ascii b0 <? 224)%N.
  { destruct s1 as [|b1 s2]; [done|].
    destruct (continuation b1) as [c1|] eqn:Hc1; [|done]. simpl.
    destruct (code_point 128 _) as [cp|] eqn:Hcp1; [|done]. simpl.
    destruct (code_points s2) as [chs2|] eqn:H2; [|done]. intros [= <-].
    rewrite (Hcp _ _ _ _ (N.le_refl _) Hcp1).
    rewrite <- (IH' s2 chs2) by (done || simpl in Hn; lia).
    apply continuation_not_dot in Hc1. simpl.
    by rewrite !decide_False by done. }
  destruct (N_of_ascii b0 <? 240)%N.
  { destruct s1 as [|b1 [|b2 s3]]; [done | done |].
    destruct (continuation b1) as [c1|] eqn:Hc1; [|done]. simpl.
    destruct (continuation b2) as [c2|] eqn:Hc2; [|done]. simpl.
    destruct (code_point 2048 _) as [cp|] eqn:Hcp1; [|done]. simpl.
    destruct (code_points s3) as [chs3|] eqn:H3; [|done]. intros [= <-].
    rewrite (Hcp 2048%N _ _ _ ltac:(lia) Hcp1).
    rewrite <- (IH' s3 chs3) by (done || simpl in Hn; lia).
    apply continuation_not_dot in Hc1. apply continuation_not_dot in Hc2.
    simpl. by rewrite !decide_False by done. }
  destruct (N_of_ascii b0 <? 248)%N; [|done].
  destruct s1 as [|b1 [|b2 [|b3 s4]]]; [done | done | done |].
  destruct (continuation b1) as [c1|] eqn:Hc1; [|done]. simpl.
  destruct (continuation b2) as [c2|] eqn:Hc2; [|done]. simpl.
  destruct (continuation b3) as [c3|] eqn:Hc3; [|done]. simpl.
  destruct (code_point 65536 _) as [cp|] eqn:Hcp1; [|done]. simpl.
  destruct (code_points s4) as [chs4|] eqn:H4; [|done]. intros [= <-].
  rewrite (Hcp 65536%N _ _ _ ltac:(lia) Hcp1).
  rewrite <- (IH' s4 chs4) by (done || simpl in Hn; lia).
  apply continuation_not_dot in Hc1. apply continuation_not_dot in Hc2.
  apply continuation_not_dot in Hc3.
  simpl. by rewrite !decide_False by done.
Qed.

Lemma isspace_not_dot ch : Dec.isspace ucd ch = true → ch ≠ 46%N.
Proof. intros H ->. by vm_compute in H. Qed.

Lemma count_dot_lstrip chs :
  count_code_point 46 (Dec.lstrip ucd chs) = count_code_point 46 chs.
Proof.
  induction chs as [|ch chs IH]; simpl; [done|].
  destruct (Dec.isspace ucd ch) eqn:Hch; [|done].
  apply isspace_not_dot in Hch. rewrite IH.
  by rewrite decide_False by done.
Qed.

Lemma count_dot_strip chs :
  count_code_point 46 (Dec.strip ucd chs) = count_code_point 46 chs.
Proof.
  unfold Dec.strip.
  by rewrite count_dot_lstrip, count_code_point_reverse, count_dot_lstrip,
    count_code_point_reverse.
Qed.

Lemma todecimal_digit ch d : Dec.todecimal ucd ch = Some d → (d < 10)%N.
Proof.
  unfold Dec.todecimal. destruct (ch <? 128)%N.
  - destruct (_ && _) eqn:E; [|done]. intros [= <-].
    apply andb_prop in E as [E1 E2].
    apply N.leb_le in E1. apply N.leb_le in E2. lia.
  - destruct (unicode_todecimal ucd ch) as [f|]; [|done]. intros [= <-].
    pose proof (fin_to_nat_lt f). lia.
Qed.

(** The conversion to ASCII neither adds nor drops a dot. *)
Lemma count_dot_convert chs a :
  Dec.convert ucd chs = Some a → count_char "." a = count_code_point 46 chs.
Proof.
  revert a. induction chs as [|ch chs IH]; intros a; simpl; [by intros [= <-]|].
  destruct (ch =? 95)%N eqn:H95.
  { apply N.eqb_eq in H95 as ->. intros Ha. by rewrite (IH a Ha). }
  destruct ((0 <? ch) && (ch <=? 127))%N eqn:Hkept.
  { apply andb_prop in Hkept as [_ Hle]. apply N.leb_le in Hle.
    destruct (Dec.convert ucd chs) as [a'|]; [|done]. intros [= <-]. simpl.
    rewrite (IH a' eq_refl).
    destruct (decide ("."%char = ascii_of_N ch)) as [E|E],
             (decide (46%N = ch)) as [E'|E']; try done.
    - apply ascii_of_N_dot in E; [congruence | lia].
    - subst ch. done. }
  assert (46%N ≠ ch) as Hch.
  { intros <-. by vm_compute in Hkept. }
  rewrite (decide_False _ _ Hch).
  destruct (Dec.isspace ucd ch).
  { destruct (Dec.convert ucd chs) as [a'|]; [|done]. intros [= <-]. simpl.
    by rewrite (IH a' eq_refl). }
  destruct (Dec.todecimal ucd ch) as [d|] eqn:Hd; [|done]. simpl.
  apply todecimal_digit in Hd.
  destruct (Dec.convert ucd chs) as [a'|]; [|done]. intros [= <-]. simpl.
  rewrite (IH a' eq_refl).
  destruct (decide ("."%char = ascii_of_N (48 + d))) as [E|E]; [|done].
  apply ascii_of_N_dot in E; lia.
Qed.

Lemma count_dot_sign s neg s' :
  Dec.sign s = (neg, s') → count_char "." s' = count_char "." s.
Proof.
  destruct s as [|a s]; simpl; [by intros [= _ <-]|].
  destruct (decide (a = "-"%char)) as [->|]; [by intros [= _ <-]|].
  destruct (decide (a = "+"%char)) as [->|]; by intros [= _ <-].
Qed.

Lemma count_dot_digits s acc len v len' rest :
  Dec.digits s acc len = (v, len', rest) →
  count_char "." rest = count_char "." s.
Proof.
  revert acc len. induction s as [|a s IH]; intros acc len; simpl.
  - by intros [= _ _ <-].
  - destruct (Dec.digit_of a) as [d|] eqn:Ha; [|by intros [= _ _ <-]].
    intros Hrest. rewrite (IH _ _ Hrest).
    destruct (decide ("."%char = a)) as [<-|]; [done | done].
Qed.

Lemma count_dot_exponent_part s e :
  Dec.exponent_part s = Some e → count_char "." s = 0.
Proof.
  destruct s as [|a s]; [done|]. simpl.
  destruct (decide (lower_ascii a = "e"%char)) as [Ha|]; [|done].
  destruct (Dec.sign s) as [neg s'] eqn:Hsign.
  destruct (Dec.digits s' 0 0) as [[v len] rest] eqn:Hdigits.
  destruct len as [|len]; [done|]. destruct rest; [|done]. intros _.
  apply count_dot_digits in Hdigits. apply count_dot_sign in Hsign.
  rewrite <- Hsign, <- Hdigits.
  destruct (decide ("."%char = a)) as [<-|]; [done | done].
Qed.

Lemma count_dot_numeric_value neg s d :
  Dec.numeric_value neg s = Some d → count_char "." s ≤ 1.
Proof.
  unfold Dec.numeric_value.
  destruct (Dec.digits s 0 0) as [[int int_len] s1] eqn:Hint.
  apply count_dot_digits in Hint. rewrite <- Hint.
  destruct s1 as [|a s1].
  - intros _. simpl. lia.
  - destruct (decide (a = "."%char)) as [->|Hne].
    + destruct (Dec.digits s1 int 0) as [[coeff frac_len] s2] eqn:Hfrac.
      apply count_dot_digits in Hfrac.
      destruct (decide (int_len + frac_len = 0)); [done|].
      destruct (Dec.exponent_part s2) as [e|] eqn:He; [|done].
      apply count_dot_exponent_part in He. intros _. simpl. lia.
    + destruct (decide (int_len + 0 = 0)); [done|].
      destruct (Dec.exponent_part (String a s1)) as [e|] eqn:He; [|done].
      apply count_dot_exponent_part in He. intros _. lia.
Qed.

Lemma lower_ascii_dot (a : ascii) : lower_ascii a = "."%char → a = "."%char.
Proof.
  unfold lower_ascii.
  destruct (_ && _) eqn:E; [|done].
  apply andb_prop in E as [E1 E2].
  apply Nat.leb_le in E1. apply Nat.leb_le in E2.
  intros H. apply (f_equal nat_of_ascii) in H.
  rewrite nat_ascii_embedding in H by lia.
  change (nat_of_ascii ".") with 46%nat in H. lia.
Qed.

Lemma count_dot_ascii_lower s : count_char "." (ascii_lower s) = count_char "." s.
Proof.
  induction s as [|a s IH]; simpl; [done|]. rewrite IH.
  destruct (decide ("."%char = lower_ascii a)) as [E|E],
           (decide ("."%char = a)) as [E'|E']; try done.
  - symmetry in E. apply lower_ascii_dot in E. congruence.
  - subst a. exfalso. apply E. reflexivity.
Qed.

Lemma count_dot_special_value neg s d :
  Dec.special_value neg s = Some d → count_char "." s = 0.
Proof.
  unfold Dec.special_value. rewrite <- (count_dot_ascii_lower s).
  generalize (ascii_lower s). clear s. intros l.
  destruct (decide (l = "inf" ∨ l = "infinity")) as [[->| ->]|_]; [done | done |].
  assert (∀ l', match l' with
                | String "n" (String "a" (String "n" diag)) =>
                    match Dec.digits diag 0 0 with
                    | (_, _, EmptyString) => Some (Dec.NaN neg true)
                    | _ => None
                    end
                | _ => None
                end = Some (Dec.NaN neg true) → count_char "." l' = 0) as Hnan.
  { intros l' H.
    destruct l' as [|a1 [|a2 [|a3 diag]]]; try done;
      try (repeat case_match; done).
    destruct (Dec.digits diag 0 0) as [[v len] rest] eqn:Hdigits.
    assert (rest = EmptyString) as -> by (repeat case_match; done).
    apply count_dot_digits in Hdigits.
    assert (a1 = "n"%char ∧ a2 = "a"%char ∧ a3 = "n"%char) as (-> & -> & ->)
      by (repeat case_match; done).
    simpl. simpl in Hdigits. lia. }
  intros H.
  destruct l as [|a l]; [done|].
  destruct (decide (a = "s"%char)) as [->|Hne].
  - assert (count_char "." l = 0) as Hl.
    { apply Hnan. repeat case_match; try done. }
    simpl. lia.
  - apply Hnan. repeat case_match; try done.
Qed.

Lemma of_cstring_dots a d : Dec.of_cstring a = Some d → count_char "." a ≤ 1.
Proof.
  unfold Dec.of_cstring. destruct (Dec.sign a) as [neg r] eqn:Hsign.
  apply count_dot_sign in Hsign. rewrite <- Hsign.
  destruct (Dec.special_value neg r) as [d'|] eqn:Hsp.
  - intros _. apply count_dot_special_value in Hsp. lia.
  - apply count_dot_numeric_value.
Qed.

Lemma of_string_dots version d :
  Dec.of_string ucd version = Some d → count_char "." version ≤ 1.
Proof.
  unfold Dec.of_string.
  destruct (code_points version) as [chs|] eqn:Hchs; [|done]. simpl.
  unfold Dec.numeric_as_ascii.
  destruct (Dec.convert ucd (Dec.strip ucd chs)) as [a|] eqn:Ha; simpl;
    [|intros H; by vm_compute in H].
  intros Hd%of_cstring_dots.
  by rewrite (count_dot_code_points _ _ Hchs), <- (count_dot_strip chs),
    <- (count_dot_convert _ _ Ha).
Qed.

(** A version string with two or more dots, such as a three-part version
    number, is no numeric string: [plugin] raises [InvalidOperation] for
    it, whatever the numbers in it are. *)
Theorem plugin_rejects_dotted_versions (version : string) :
  2 ≤ count_char "." version →
  Dec.of_string ucd version = None ∧ plugin version = inl InvalidOperation.
Proof.
  intros Hdots.
  assert (Dec.of_string ucd version = None) as Hnone.
  { destruct (Dec.of_string ucd version) as [d|] eqn:Hd; [|done].
    apply of_string_dots in Hd. lia. }
  split; [done|]. unfold plugin. by rewrite Hnone.
Qed.

(* ===================================================================== *)
(** * Further properties: regenerating a method *)
(* ===================================================================== *)

Lemma list_remove_spec f b b' :
  list_remove f b = Some b' →
  ∃ b1 g b2,
    b = b1 ++ SFuncDef g :: b2 ∧ func_oid g = func_oid f ∧
    Forall (λ s, is_object f s = false) b1 ∧ b' = b1 ++ b2.
Proof.
  revert b'. induction b as [|s b IH]; intros b'; simpl; [done|].
  destruct (is_object f s) eqn:Hs.
  - intros [= <-]. destruct s as [|g| |]; try done.
    exists [], g, b. split; [done|]. split; [|by split].
    simpl in Hs. by rewrite bool_decide_eq_true in Hs.
  - destruct (list_remove f b) as [b''|]; [|done]. intros [= <-].
    destruct (IH b'' eq_refl) as (b1 & g & b2 & -> & Hoid & Hb1 & ->).
    exists (s :: b1), g, b2. split; [done|]. split; [done|].
    split; [by constructor | done].
Qed.

(** When the name is bound to a generated function, a returning call of
    [_add_method] replaces that function in the class body: the first
    statement that is this function object is taken out, the new function
    is put at the end, every other statement keeps its place, and the body
    is as long as before. *)
Theorem add_method_replaces_stale_function (name : string)
    (args : list Argument) (return_type : Ty) (self_type : option Ty)
    (tvar_def : option TypeVarDef) (is_classmethod : bool)
    (c c' : ClassDefContext) (f : FuncDef) :
  stale c name = Some f →
  _add_method name args return_type self_type tvar_def is_classmethod c
    = (c', Return tt) →
  ∃ b1 g b2 f',
    body c = b1 ++ SFuncDef g :: b2 ∧ func_oid g = func_oid f ∧
    Forall (λ s, is_object f s = false) b1 ∧
    body c' = b1 ++ b2 ++ [SFuncDef f'] ∧
    names c' !! name = Some (generated f') ∧
    length (body c') = length (body c).
Proof.
  intros Hstale Hrun.
  apply _add_method_Return in Hrun as (b & sig & Hb & _ & Hnames & Hbody & _).
  unfold drop_stale in Hb. rewrite Hstale in Hb.
  apply list_remove_spec in Hb as (b1 & g & b2 & Hc & Hoid & Hb1 & ->).
  exists b1, g, b2. eexists.
  split; [done|]. split; [done|]. split; [done|].
  split; [by rewrite Hbody, <- app_assoc|].
  split; [rewrite Hnames; apply lookup_insert_eq|].
  rewrite Hbody, Hc, !List.length_app. simpl. lia.
Qed.

(** A returning run on a ready class leaves the symbol table and the body
    in agreement again: every generated function bound to an identifier is
    a statement of the body, none of them is bound to two identifiers, and
    all were created before the next object will be. *)
Theorem transform_class_keeps_consistency (c : ClassDefContext) (cases : list Var) :
  ready c cases →
  ∃ c', _transform_class c = (c', Return tt) ∧ consistent c' ∧
        ∀ k f, contains "-" k = false → stale c' k = Some f →
               in_body f (body c').
Proof.
  intros [HI Hcases Ht Hn Hc].
  destruct (_transform_class_returns c cases) as (s & c' & _ & _ & Hrun & Hc');
    [done..|].
  exists c'. split; [done|]. split; [done|].
  intros k f Hk Hf. by eapply (proj1 Hc').
Qed.

(* ===================================================================== *)
(** * Further properties: a case declared more than once *)
(* ===================================================================== *)

Lemma dict_set_seen (value : Var → Ty) (ks : list Var) (v : Var) :
  (∀ k, k ∈ ks → var_oid k = var_oid v → k = v) →
  dict_set same_Var ((λ k, (k, value k)) <$> ks) v (value v)
  = (λ k, (k, value k)) <$>
      (if existsb (λ k, same_Var k v) ks then ks else ks ++ [v]).
Proof.
  induction ks as [|k ks IH]; intros Hsame; [done|].
  rewrite fmap_cons. simpl.
  destruct (same_Var k v) eqn:Hk; simpl.
  - unfold same_Var in Hk. rewrite bool_decide_eq_true in Hk.
    rewrite (Hsame k) by (done || apply elem_of_cons; by left). done.
  - rewrite IH by (intros k' Hk'; apply Hsame; apply elem_of_cons; by right).
    by destruct (existsb _ ks).
Qed.

Lemma first_occurrences_subseteq cases acc v :
  v ∈ foldl (λ acc v, if existsb (λ k, same_Var k v) acc then acc else acc ++ [v])
        acc cases →
  v ∈ acc ∨ v ∈ cases.
Proof.
  revert acc. induction cases as [|x cases IH]; intros acc; simpl; [by left|].
  intros Hv. apply IH in Hv as [Hv|Hv]; [|right; apply elem_of_cons; by right].
  destruct (existsb _ acc); [by left|].
  apply elem_of_app in Hv as [Hv|Hv]; [by left|].
  apply list_elem_of_singleton in Hv as ->. right. apply elem_of_cons. by left.
Qed.

(** When case variables of one identity are one variable, the dictionary of
    handler types has the first occurrences of the cases as its keys. *)
Lemma dict_comprehension_first_occurrences (value : Var → Ty) (cases : list Var) :
  (∀ v w, v ∈ cases → w ∈ cases → var_oid v = var_oid w → v = w) →
  dict_comprehension same_Var id value cases
  = (λ v, (v, value v)) <$> first_occurrences cases.
Proof.
  unfold dict_comprehension, first_occurrences. intros Hsame.
  enough (∀ acc : list Var,
            (∀ v w, v ∈ acc ++ cases → w ∈ acc ++ cases →
                    var_oid v = var_oid w → v = w) →
            foldl (λ d x, dict_set same_Var d (id x) (value x))
              ((λ v, (v, value v)) <$> acc) cases
            = (λ v, (v, value v)) <$>
                foldl (λ acc v, if existsb (λ k, same_Var k v) acc
                                then acc else acc ++ [v]) acc cases) as H.
  { apply (H []). exact Hsame. }
  clear Hsame. induction cases as [|x cases IH]; intros acc Hsame; [done|].
  simpl. rewrite dict_set_seen.
  - apply IH. intros v w Hv Hw. apply Hsame.
    + destruct (existsb _ acc).
      * apply elem_of_app in Hv as [?|?]; apply elem_of_app; [by left|].
        right. apply elem_of_cons. by right.
      * rewrite <- app_assoc in Hv. exact Hv.
    + destruct (existsb _ acc).
      * apply elem_of_app in Hw as [?|?]; apply elem_of_app; [by left|].
        right. apply elem_of_cons. by right.
      * rewrite <- app_assoc in Hw. exact Hw.
  - intros k Hk. apply Hsame.
    + apply elem_of_app. by left.
    + apply elem_of_app. right. apply elem_of_cons. by left.
Qed.

(** [match] has one handler parameter per case variable, not per
    declaration.  On a ready class in which case variables of one identity
    are one variable, the run returns and [match] is an instance method
    with the receiver [self] whose parameters after it are the handlers of
    the first occurrences of the case variables: when a case is assigned
    more than once in the class body, its constructor and accessor are
    generated once per assignment, but [match] gets a single handler for
    it, at the place of its first declaration. *)
Theorem match_handlers_of_repeated_cases (c : ClassDefContext) (cases : list Var) :
  ready c cases →
  (∀ v w, v ∈ cases → w ∈ cases → var_oid v = var_oid w → v = w) →
  ∃ vs c',
    mapM variant_of (first_occurrences cases) = Some vs ∧
    _transform_class c = (c', Return tt) ∧
    generated_signature c' "match"
      = Some (match_signature (type_variable c "_MatchResult") vs) ∧
    generated_receiver c' "match" = Some (self_receiver (fill_typevars c)).
Proof.
  intros [HI Hcases Ht Hn Hc] Hsame.
  destruct (_transform_class_returns c cases) as (s & c' & Hloop & Hfin & Hrun & _);
    [done..|].
  apply for_each_extends in Hloop as Hext.
  (* the first occurrences are typed *)
  assert (∃ vs, mapM variant_of (first_occurrences cases) = Some vs) as [vs Hvs].
  { assert (Forall (λ v, is_Some (variant_of v)) (first_occurrences cases)) as Hall.
    { apply Forall_forall. intros v Hv.
      apply first_occurrences_subseteq in Hv as [Hv|Hv]; [by apply elem_of_nil in Hv|].
      destruct (proj1 (Forall_forall _ _) Ht v Hv) as [t Hvt].
      unfold variant_of. rewrite Hvt. by eexists. }
    induction Hall as [|v l [x Hx] _ [xs IH]]; [by exists []|].
    exists (x :: xs). apply mapM_Some. constructor; [done | by apply mapM_Some]. }
  exists vs, c'. split; [done|]. split; [done|].
  rewrite finish_eq in Hfin.
  apply _add_method_added in Hfin as (f & Hf & Hname & _ & _ & Hrecv & Hsig).
  assert (names c' !! "match" = Some (generated f)) as Hmatch
    by (rewrite <- Hname; by eapply added_lookup).
  rewrite (generated_signature_lookup c' _ f Hmatch),
    (generated_receiver_lookup c' _ f Hmatch).
  split.
  2: { rewrite Hrecv. simpl.
       rewrite (same_class_fill_typevars s) by apply before_match_same_class.
       by rewrite (same_class_fill_typevars c s) by apply Hext. }
  rewrite Hsig, match_args_parameters. simpl. unfold match_signature.
  rewrite (extends_type_variable c s) by done.
  do 2 f_equal. rewrite dict_comprehension_first_occurrences by done.
  apply mapM_Some in Hvs. clear -Hvs.
  induction Hvs as [|case v l vs Hv _ IH]; [done|].
  rewrite !fmap_cons, IH. f_equal. simpl.
  apply (handler_type_eq (type_variable c "_MatchResult")) in Hv as [-> ->].
  done.
Qed.

End ADTPlugin.

(* ===================================================================== *)
(** * The properties on concrete classes

    The classes and the version strings below are written with ASCII
    characters only.  On such strings no Unicode database is consulted,
    whichever it is; the plugin is evaluated with [ascii_only]. *)
(* ===================================================================== *)

Lemma second_run_grows_symbol_table_witness :
  let c1 := after (_transform_class ascii_only) empty_class in
  let c2 := after (_transform_class ascii_only) c1 in
  dom (names c1) ⊆ dom (names c2) ∧
  ∃ r, names c1 !! r = None ∧ names c1 !! r ≠ names c2 !! r ∧
       ∃ sym, names c2 !! r = Some sym.
Proof.
  apply (second_run_grows_symbol_table ascii_only empty_class); vm_compute; reflexivity.
Defined.

(** On the class without cases the first run binds [_MatchResult] and
    [match]; the second run binds [match-redefinition] as well. *)
Example second_run_on_empty_class :
  let c1 := after (_transform_class ascii_only) empty_class in
  let c2 := after (_transform_class ascii_only) c1 in
  _transform_class ascii_only empty_class = (c1, Return tt) ∧
  _transform_class ascii_only c1 = (c2, Return tt) ∧
  (map_to_list (names c1)).*1 = ["_MatchResult"; "match"] ∧
  (map_to_list (names c2)).*1 = ["_MatchResult"; "match-redefinition"; "match"] ∧
  names c2 !! "match-redefinition" = names c1 !! "match".
Proof. by vm_compute. Qed.

(** On a class with cases the second run no longer finds them: the names of
    the case variables are bound to the generated constructors by then, so
    [_get_class_vars] returns nothing and [match] is regenerated without a
    handler. *)
Example second_run_on_abc_class :
  let c1 := after (_transform_class ascii_only) abc_class in
  let c2 := after (_transform_class ascii_only) c1 in
  _transform_class ascii_only abc_class = (c1, Return tt) ∧
  _transform_class ascii_only c1 = (c2, Return tt) ∧
  (parameters <$> generated_signature c1 "match")
    = Some ((λ v, mkParameter (lower ascii_only (v_name v))
                    (handler_type (type_variable abc_class "_MatchResult") v)
                    ARG_NAMED None)
            <$> [mkVariant "A" int_type; mkVariant "B" str_type;
                 mkVariant "C" bool_type]) ∧
  (parameters <$> generated_signature c2 "match")
    = Some [] ∧
  class_vars c1 = inr [].
Proof. by vm_compute. Qed.

(** On a concrete class that the plugin has not touched, readiness is
    settled by evaluation. *)
Ltac ready_by_computation :=
  split;
  [ reflexivity
  | reflexivity
  | repeat constructor; by eexists
  | repeat constructor
  | apply nothing_generated_consistent; unfold nothing_generated;
    apply (bool_decide_unpack _); by vm_compute ].


(** For the class [A: int, B: str, C: bool] the symbol table ends up with
    the constructors under [A], [B], [C] and the accessors under [a], [b],
    [c]; the type of the constructor [A] is [def (cls: Any, A: int) -> Expr]
    and that of the accessor [a] is [def (self: Expr) -> int]. *)
Example abc_class_methods :
  let c' := after (_transform_class ascii_only) abc_class in
  let I := Instance "m.Expr" [] in
  _transform_class ascii_only abc_class = (c', Return tt) ∧
  generated_signature c' "A" = Some (constructor_signature I (mkVariant "A" int_type)) ∧
  generated_signature c' "a" = Some (accessor_signature ascii_only (mkVariant "A" int_type)) ∧
  generated_signature c' "B" = Some (constructor_signature I (mkVariant "B" str_type)) ∧
  generated_signature c' "b" = Some (accessor_signature ascii_only (mkVariant "B" str_type)) ∧
  generated_signature c' "C" = Some (constructor_signature I (mkVariant "C" bool_type)) ∧
  generated_signature c' "c" = Some (accessor_signature ascii_only (mkVariant "C" bool_type)) ∧
  (func_type <$> stale c' "A") =
    Some (Some (CallableType [AnyType implementation_artifact; int_type]
                  [ARG_POS; ARG_POS] [Some "cls"; Some "A"] I
                  (Instance "builtins.function" []) (Some "A of Expr") [])) ∧
  (func_type <$> stale c' "a") =
    Some (Some (CallableType [I] [ARG_POS] [Some "self"] int_type
                  (Instance "builtins.function" []) (Some "a of Expr") [])) ∧
  (λ st, match st with SFuncDef f => Some (func_name f) | _ => None end) <$> body c'
    = [None; None; None; Some "A"; Some "a"; Some "B"; Some "b"; Some "C";
       Some "c"; Some "match"].
Proof. by vm_compute. Qed.

Lemma match_method_signature_witness :
  let c := abc_class in
  let cases := [mkVar 0 "A" (Some int_type); mkVar 1 "B" (Some str_type);
                mkVar 2 "C" (Some bool_type)] in
  let R := type_variable c "_MatchResult" in
  ∃ vs c' f fb n,
    mapM variant_of cases = Some vs ∧
    _transform_class ascii_only c = (c', Return tt) ∧
    names c' !! "match" = Some (generated f) ∧
    last (body c') = Some (SFuncDef f) ∧
    is_class f = false ∧
    func_type f =
      Some (CallableType (fill_typevars c :: (handler_type R <$> vs))
              (ARG_POS :: ((λ _, ARG_NAMED) <$> vs))
              (Some "self" :: ((λ v, Some (lower ascii_only (v_name v))) <$> vs))
              (TypeVarType R) fb n [R]) ∧
    receiver_of f = Some (self_receiver (fill_typevars c)) ∧
    signature_of f = Some (match_signature ascii_only R vs) ∧
    callable_agrees f.
Proof.
  intros c cases R.
  apply (match_method_signature ascii_only abc_class cases).
  - ready_by_computation.
  - apply (bool_decide_unpack _). by vm_compute.
Defined.

(** For the class [A: int, B: str, C: bool], [match] takes the handlers
    [a], [b], [c], in this order, after [self]. *)
Example abc_class_match :
  let c' := after (_transform_class ascii_only) abc_class in
  let R := type_variable abc_class "_MatchResult" in
  generated_signature c' "match" =
    Some (match_signature ascii_only R
            [mkVariant "A" int_type; mkVariant "B" str_type;
             mkVariant "C" bool_type]) ∧
  (λ sig, p_name <$> parameters sig) <$> generated_signature c' "match"
    = Some ["a"; "b"; "c"] ∧
  (stale c' "match" ≫= func_type) =
    Some (CallableType
            [Instance "m.Expr" [];
             handler_type R (mkVariant "A" int_type);
             handler_type R (mkVariant "B" str_type);
             handler_type R (mkVariant "C" bool_type)]
            [ARG_POS; ARG_NAMED; ARG_NAMED; ARG_NAMED]
            [Some "self"; Some "a"; Some "b"; Some "c"]
            (TypeVarType R) (Instance "builtins.function" [])
            (Some "match of Expr") [R]).
Proof. by vm_compute. Qed.

Lemma add_method_keeps_user_definition_witness :
  let c := class_with_user_method in
  let sym := mkSymbolTableNode MDEF (Some (NFuncDef user_method)) false in
  let r := get_unique_redefinition_name "A" (names c) in
  ∃ c' f,
    _add_method "A" [mkArgument (mkVar 0 "A" (Some int_type)) (Some int_type) None ARG_POS]
      (Instance "m.Expr" []) None None true c = (c', Return tt) ∧
    names c !! r = None ∧
    (r = "A" +:+ "-redefinition" ∨
     is_Some (names c !! ("A" +:+ "-redefinition")) ∧
     ∃ j, 2 ≤ j ∧ r = ("A" +:+ "-redefinition") +:+ str j ∧
          ∀ k, 2 ≤ k < j →
            is_Some (names c !! (("A" +:+ "-redefinition") +:+ str k))) ∧
    names c' !! r = Some sym ∧
    names c' !! "A" = Some (generated f) ∧ func_name f = "A" ∧
    (∀ k s, k ≠ "A" → names c !! k = Some s → names c' !! k = Some s) ∧
    body c' = body c ++ [SFuncDef f].
Proof.
  apply (add_method_keeps_user_definition "A").
  - reflexivity.
  - reflexivity.
  - repeat constructor. by eexists.
Defined.

(** There, the user's method ends up under [A-redefinition]. *)
Example user_method_renamed :
  let c' := after (_add_method "A"
                     [mkArgument (mkVar 0 "A" (Some int_type)) (Some int_type) None ARG_POS]
                     (Instance "m.Expr" []) None None true)
              class_with_user_method in
  get_unique_redefinition_name "A" (names class_with_user_method) = "A-redefinition" ∧
  names c' !! "A-redefinition" =
    Some (mkSymbolTableNode MDEF (Some (NFuncDef user_method)) false) ∧
  (stale c' "A" ≫= signature_of) =
    Some (constructor_signature (Instance "m.Expr" []) (mkVariant "A" int_type)) ∧
  body c' !! 1 = Some (SFuncDef user_method).
Proof. by vm_compute. Qed.

Lemma match_result_type_variables_differ_witness :
  let c1 := fresh_class "m.Expr" [] in
  let c2 := fresh_class "m.Shape" [] in
  (∃ s1 s2 R1 R2,
     _add_typevar "_MatchResult" c1 = (s1, Return R1) ∧
     _add_typevar "_MatchResult" c2 = (s2, Return R2) ∧
     tvar_name R1 = "_MatchResult" ∧ tvar_name R2 = "_MatchResult" ∧
     tvar_fullname R1 = cls_fullname c1 +:+ "._MatchResult" ∧
     tvar_fullname R2 = cls_fullname c2 +:+ "._MatchResult" ∧
     tvar_fullname R1 ≠ tvar_fullname R2) ∧
  (∀ c1' c2',
     _transform_class ascii_only c1 = (c1', Return tt) →
     _transform_class ascii_only c2 = (c2', Return tt) →
     ∃ sig1 sig2 R1 R2,
       generated_signature c1' "match" = Some sig1 ∧
       generated_signature c2' "match" = Some sig2 ∧
       typeParameters sig1 = [R1] ∧ returnType sig1 = TypeVarType R1 ∧
       typeParameters sig2 = [R2] ∧ returnType sig2 = TypeVarType R2 ∧
       tvar_name R1 = tvar_name R2 ∧ tvar_fullname R1 ≠ tvar_fullname R2).
Proof.
  apply (match_result_type_variables_differ ascii_only (fresh_class "m.Expr" [])
           (fresh_class "m.Shape" [])).
  simpl. apply (bool_decide_unpack _). by vm_compute.
Defined.

Lemma transform_class_without_cases_witness :
  let c := empty_class in
  let R := type_variable c "_MatchResult" in
  ∃ c' f fb n,
    _transform_class ascii_only c = (c', Return tt) ∧
    names c' !! "_MatchResult" = Some (type_variable_symbol c "_MatchResult") ∧
    names c' !! "match" = Some (generated f) ∧
    is_class f = false ∧
    arguments f = [mkArgument (mkVar (next_oid c) "self" None)
                     (Some (fill_typevars c)) None ARG_POS] ∧
    func_type f =
      Some (CallableType [fill_typevars c] [ARG_POS] [Some "self"]
              (TypeVarType R) fb n [R]) ∧
    receiver_of f = Some (self_receiver (fill_typevars c)) ∧
    signature_of f = Some (match_signature ascii_only R []) ∧
    last (body c') = Some (SFuncDef f) ∧
    names c' ≠ names c.
Proof.
  intros c R.
  apply (transform_class_without_cases ascii_only empty_class).
  - reflexivity.
  - reflexivity.
  - vm_compute. by eexists.
Defined.

(** The run on the class [A: int; B] (untyped) raises, but only after the
    constructor and the accessor of [A] have been installed: the symbol
    table binds [a] and [A-redefinition] as well, it is not what it was
    before the attempt. *)
Lemma untyped_case_leaves_partial_install :
  let c := class_with_untyped_case in
  let c' := after (_transform_class ascii_only) c in
  class_vars c = inr [mkVar 0 "A" (Some int_type); mkVar 1 "B" None] ∧
  _transform_class ascii_only c = (c', Raise (AssertionError untyped_message)) ∧
  names c !! "a" = None ∧
  generated_signature c' "a"
    = Some (accessor_signature ascii_only (mkVariant "A" int_type)) ∧
  generated_signature c' "A" =
    Some (constructor_signature (Instance "m.Expr" []) (mkVariant "A" int_type)) ∧
  dom (names c) = {[ "A"; "B" ]} ∧
  dom (names c') = {[ "A"; "B"; "a"; "A-redefinition" ]} ∧
  names c' ≠ names c.
Proof. exact (untyped_case_partial_install ascii_only). Qed.

Lemma untyped_case_aborts_witness :
  let c := class_with_untyped_case in
  let pre := [mkVar 0 "A" (Some int_type)] in
  (∃ c' e, _transform_class ascii_only c = (c', Raise e)) ∧
  (is_Instance (fill_typevars c) = false →
   _transform_class ascii_only c = (c, Raise (AssertionError ""))) ∧
  (is_Instance (fill_typevars c) = true →
   (∀ s e,
      for_each pre (transform_case ascii_only (fill_typevars c)) c = (s, Raise e) →
      _transform_class ascii_only c = (s, Raise e)) ∧
   (∀ s,
      for_each pre (transform_case ascii_only (fill_typevars c)) c = (s, Return tt) →
      _transform_class ascii_only c = (s, Raise (AssertionError untyped_message)) ∧
      ∃ vs fs,
        mapM variant_of pre = Some vs ∧ emitted c fs s ∧
        signature_of <$> fs
          = Some <$> case_signatures ascii_only (fill_typevars c) vs ∧
        receiver_of <$> fs = Some <$> case_receivers (fill_typevars c) vs) ∧
   (pre = [] →
    _transform_class ascii_only c = (c, Raise (AssertionError untyped_message)))).
Proof.
  apply (untyped_case_aborts ascii_only class_with_untyped_case
           [mkVar 0 "A" (Some int_type)] [] (mkVar 1 "B" None)).
  - reflexivity.
  - reflexivity.
Defined.

(** The run on the class [Ab: int; AB: str] returns.  The accessor of [AB]
    takes the name [ab]; the accessor of [Ab] is out of the body and bound
    to [ab-redefinition]; [match] has two handlers called [ab]. *)
Lemma folding_collision_is_accepted :
  let c := class_with_folding_collision in
  let c' := after (_transform_class ascii_only) c in
  class_vars c = inr [mkVar 0 "Ab" (Some int_type); mkVar 1 "AB" (Some str_type)] ∧
  lower ascii_only "Ab" = lower ascii_only "AB" ∧
  _transform_class ascii_only c = (c', Return tt) ∧
  (¬ ∃ c'' e, _transform_class ascii_only c = (c'', Raise e)) ∧
  generated_signature c' "ab"
    = Some (accessor_signature ascii_only (mkVariant "AB" str_type)) ∧
  generated_signature c' "ab-redefinition"
    = Some (accessor_signature ascii_only (mkVariant "Ab" int_type)) ∧
  (λ sig, p_name <$> parameters sig) <$> generated_signature c' "match"
    = Some ["ab"; "ab"] ∧
  (λ st, match st with SFuncDef f => Some (func_name f) | _ => None end) <$> body c'
    = [None; None; Some "Ab"; Some "AB"; Some "ab"; Some "match"].
Proof. exact (folding_collision_accepted ascii_only). Qed.

Lemma folding_collision_not_detected_witness :
  let c := class_with_folding_collision in
  let v := mkVar 0 "Ab" (Some int_type) in
  ∃ c' sig pv pw,
    _transform_class ascii_only c = (c', Return tt) ∧
    generated_signature c' "match" = Some sig ∧
    parameters sig !! 0 = Some pv ∧ parameters sig !! 1 = Some pw ∧
    p_name pv = lower ascii_only (var_name v) ∧ p_name pw = lower ascii_only (var_name v) ∧
    passingMode pv = ARG_NAMED ∧ passingMode pw = ARG_NAMED.
Proof.
  apply (folding_collision_not_detected ascii_only class_with_folding_collision
           [mkVar 0 "Ab" (Some int_type); mkVar 1 "AB" (Some str_type)]
           0 1 (mkVar 0 "Ab" (Some int_type)) (mkVar 1 "AB" (Some str_type))).
  - ready_by_computation.
  - apply (bool_decide_unpack _). by vm_compute.
  - lia.
  - reflexivity.
  - reflexivity.
  - reflexivity.
Defined.

Lemma get_class_vars_collects_witness :
  _get_class_vars class_with_inherited_case
  = (class_with_inherited_case,
     Return [mkVar 0 "A" (Some int_type); mkVar 1 "B" (Some str_type)]).
Proof.
  apply (get_class_vars_collects class_with_inherited_case).
  change (assigned_names (body class_with_inherited_case))
    with ["A"; "helper"; "B"].
  repeat (apply List.Forall_cons; [vm_compute; by eexists|]).
  apply List.Forall_nil.
Defined.

Lemma unbound_assigned_name_raises_witness :
  let c := class_with_unbound_name in
  _get_class_vars c = (c, Raise (KeyError "B")) ∧
  (is_Instance (fill_typevars c) = true →
   _transform_class ascii_only c = (c, Raise (KeyError "B"))) ∧
  (is_Instance (fill_typevars c) = false →
   _transform_class ascii_only c = (c, Raise (AssertionError ""))).
Proof.
  apply (unbound_assigned_name_raises ascii_only class_with_unbound_name
           ["A"] [] "B").
  - reflexivity.
  - apply List.Forall_cons; [vm_compute; by eexists | apply List.Forall_nil].
  - reflexivity.
Defined.

Lemma tuple_class_rejected_witness :
  _transform_class ascii_only tuple_class = (tuple_class, Raise (AssertionError "")).
Proof.
  apply (tuple_class_rejected ascii_only tuple_class [int_type; int_type] int_type).
  reflexivity.
Defined.

Lemma add_method_stale_function_missing_witness :
  _add_method "match" [] int_type None None false class_with_lost_match
  = (class_with_lost_match, Raise (ValueError "list.remove(x): x not in list")).
Proof.
  apply (add_method_stale_function_missing "match" [] int_type None None false
           class_with_lost_match lost_match).
  - reflexivity.
  - intros (g & Hg & _). apply list_elem_of_singleton in Hg. discriminate Hg.
Defined.

Lemma add_method_untyped_argument_witness :
  body class_with_generated_f ≠ [] ∧
  ∃ c',
    _add_method "f" [untyped_argument] int_type None None false
      class_with_generated_f
    = (c', Raise (AssertionError "All arguments must be fully typed.")) ∧
    names c' = names class_with_generated_f ∧ body c' = [].
Proof.
  split; [by vm_compute|].
  apply (add_method_untyped_argument "f" [untyped_argument] int_type None None
           false class_with_generated_f []).
  - by vm_compute.
  - constructor. reflexivity.
Defined.

Lemma add_method_binds_one_more_name_witness :
  let c := class_with_user_method in
  let c' := after (_add_method "A" [] int_type None None false) c in
  size (names c') = S (size (names c)) ∧
  dom (names c') =
    {[ "A" ]} ∪ dom (names c) ∪
    match names c !! "A" with
    | Some _ => {[ get_unique_redefinition_name "A" (names c) ]}
    | None => ∅
    end.
Proof.
  apply (add_method_binds_one_more_name "A" [] int_type None None false
           class_with_user_method).
  by vm_compute.
Defined.

Lemma transform_class_growth_witness :
  let c := abc_class in
  let c' := after (_transform_class ascii_only) c in
  size (names c) + 2 * 3 + 1 ≤ size (names c') ≤ size (names c) + 2 * 3 + 2 ∧
  (is_Some (names c !! "_MatchResult") →
   size (names c') = size (names c) + 2 * 3 + 1).
Proof.
  apply (transform_class_growth ascii_only abc_class (after (_transform_class ascii_only) abc_class)
           [mkVar 0 "A" (Some int_type); mkVar 1 "B" (Some str_type);
            mkVar 2 "C" (Some bool_type)]).
  - by vm_compute.
  - by vm_compute.
Defined.

Lemma match_result_always_rebound_witness :
  let c := class_with_own_match_result in
  let c' := after (_transform_class ascii_only) c in
  names c' !! "_MatchResult" = Some (type_variable_symbol c "_MatchResult") ∧
  plugin_generated (type_variable_symbol c "_MatchResult") = false.
Proof.
  apply (match_result_always_rebound ascii_only class_with_own_match_result).
  by vm_compute.
Defined.

(** On that class the variable the user had bound to [_MatchResult] is
    bound to no name afterwards, while the one bound to [match] is kept
    under [match-redefinition]. *)
Example own_match_result_is_lost :
  let c := class_with_own_match_result in
  let c' := after (_transform_class ascii_only) c in
  _transform_class ascii_only c = (c', Return tt) ∧
  (map_to_list (names c')).*1 = ["_MatchResult"; "match-redefinition"; "match"] ∧
  names c' !! "match-redefinition" = names c !! "match" ∧
  names c' !! "_MatchResult" ≠ names c !! "_MatchResult".
Proof.
  split; [by vm_compute|]. split; [by vm_compute|]. split; [by vm_compute|].
  vm_compute. discriminate.
Qed.

Lemma transform_class_keeps_statements_witness :
  let c := after (_transform_class ascii_only) class_with_folding_collision in
  let c' := after (_transform_class ascii_only) c in
  non_functions (body c') = non_functions (body c) ∧
  assigned_names (body c') = assigned_names (body c).
Proof.
  apply (transform_class_keeps_statements ascii_only
           (after (_transform_class ascii_only) class_with_folding_collision) _ (Return tt)).
  by vm_compute.
Defined.

Lemma transform_class_never_unbinds_witness :
  let c := class_with_untyped_case in
  let c' := after (_transform_class ascii_only) c in
  same_class c c' ∧
  dom (names c) ⊆ dom (names c') ∧
  ∀ k sym, names c !! k = Some sym → k ≠ "_MatchResult" →
    ∃ k', k' ≠ "_MatchResult" ∧ names c' !! k' = Some sym.
Proof.
  apply (transform_class_never_unbinds ascii_only class_with_untyped_case _
           (Raise (AssertionError untyped_message))).
  by vm_compute.
Defined.

Lemma constructors_and_accessors_bound_witness :
  ∃ c',
    _transform_class ascii_only abc_class = (c', Return tt) ∧
    ∀ v t,
      v ∈ [mkVar 0 "A" (Some int_type); mkVar 1 "B" (Some str_type);
           mkVar 2 "C" (Some bool_type)] →
      var_type v = Some t →
      generated_signature c' (var_name v)
        = Some (constructor_signature (fill_typevars abc_class)
                  (mkVariant (var_name v) t)) ∧
      generated_receiver c' (var_name v) = Some cls_receiver ∧
      generated_signature c' (lower ascii_only (var_name v))
        = Some (accessor_signature ascii_only (mkVariant (var_name v) t)) ∧
      generated_receiver c' (lower ascii_only (var_name v))
        = Some (self_receiver (fill_typevars abc_class)).
Proof.
  apply (constructors_and_accessors_bound ascii_only abc_class).
  - ready_by_computation.
  - apply (bool_decide_unpack _). by vm_compute.
Defined.

Lemma lowercase_case_loses_constructor_witness :
  let case := mkVar 0 "x" (Some int_type) in
  let I := Instance "m.Expr" [] in
  let c' := after (transform_case ascii_only I case) class_with_lowercase_case in
  generated_signature c' "x"
    = Some (accessor_signature ascii_only (mkVariant "x" int_type)) ∧
  generated_receiver c' "x"
    = Some (self_receiver (fill_typevars class_with_lowercase_case)) ∧
  ∃ r, contains "-" r = true ∧
       generated_signature c' r
         = Some (constructor_signature I (mkVariant "x" int_type)) ∧
       generated_receiver c' r = Some cls_receiver.
Proof.
  apply (lowercase_case_loses_constructor ascii_only (Instance "m.Expr" [])
           (mkVar 0 "x" (Some int_type)) int_type class_with_lowercase_case).
  - reflexivity.
  - reflexivity.
  - by vm_compute.
Defined.

Lemma second_run_finds_no_cases_witness :
  ∃ c' c'',
    _transform_class ascii_only abc_class = (c', Return tt) ∧
    _get_class_vars c' = (c', Return []) ∧
    _transform_class ascii_only c' = (c'', Return tt) ∧
    generated_signature c'' "match"
      = Some (match_signature ascii_only (type_variable abc_class "_MatchResult") []).
Proof.
  apply (second_run_finds_no_cases ascii_only abc_class
           [mkVar 0 "A" (Some int_type); mkVar 1 "B" (Some str_type);
            mkVar 2 "C" (Some bool_type)]).
  - ready_by_computation.
  - change (assigned_names (body abc_class)) with ["A"; "B"; "C"].
    repeat (apply List.Forall_cons; [reflexivity|]). apply List.Forall_nil.
  - change (assigned_names (body abc_class)) with ["A"; "B"; "C"].
    intros n v Hin.
    repeat (apply elem_of_cons in Hin as [->|Hin];
            [vm_compute; by intros [= <-]|]).
    by apply elem_of_nil in Hin.
Defined.

Lemma plugin_monotone_witness :
  plugin ascii_only "7.2e-1" = inr ADTPluginClass.
Proof.
  apply (plugin_monotone ascii_only "0.711" "7.2e-1" false false 711 72 (-3) (-2)).
  - reflexivity.
  - reflexivity.
  - by vm_compute.
  - reflexivity.
Defined.

Lemma plugin_rejects_dotted_versions_witness :
  Dec.of_string ascii_only "1.0.0" = None ∧ plugin ascii_only "1.0.0" = inl InvalidOperation.
Proof.
  apply (plugin_rejects_dotted_versions ascii_only "1.0.0"). simpl. lia.
Defined.

Lemma add_method_replaces_stale_function_witness :
  let c := after (_transform_class ascii_only) abc_class in
  let c' := after (_add_method "a" [] int_type None None false) c in
  ∃ f b1 g b2 f',
    stale c "a" = Some f ∧
    body c = b1 ++ SFuncDef g :: b2 ∧ func_oid g = func_oid f ∧
    Forall (λ s, is_object f s = false) b1 ∧
    body c' = b1 ++ b2 ++ [SFuncDef f'] ∧
    names c' !! "a" = Some (generated f') ∧
    length (body c') = length (body c).
Proof.
  intros c c'.
  destruct (stale c "a") as [f|] eqn:Hf; [|by vm_compute in Hf].
  exists f.
  destruct (add_method_replaces_stale_function "a" [] int_type None None false
              c c' f Hf) as (b1 & g & b2 & f' & H); [by vm_compute|].
  exists b1, g, b2, f'. split; [done | exact H].
Defined.

Lemma transform_class_keeps_consistency_witness :
  ∃ c', _transform_class ascii_only class_with_folding_collision = (c', Return tt) ∧
        consistent c' ∧
        ∀ k f, contains "-" k = false → stale c' k = Some f →
               in_body f (body c').
Proof.
  apply (transform_class_keeps_consistency ascii_only class_with_folding_collision
           [mkVar 0 "Ab" (Some int_type); mkVar 1 "AB" (Some str_type)]).
  ready_by_computation.
Defined.

Lemma match_handlers_of_repeated_cases_witness :
  let c := class_with_repeated_case in
  ∃ vs c',
    mapM variant_of
      (first_occurrences
         [mkVar 0 "A" (Some int_type); mkVar 1 "B" (Some str_type);
          mkVar 0 "A" (Some int_type)]) = Some vs ∧
    _transform_class ascii_only c = (c', Return tt) ∧
    generated_signature c' "match"
      = Some (match_signature ascii_only (type_variable c "_MatchResult") vs) ∧
    generated_receiver c' "match" = Some (self_receiver (fill_typevars c)).
Proof.
  apply (match_handlers_of_repeated_cases ascii_only class_with_repeated_case).
  - ready_by_computation.
  - intros v w Hv Hw.
    repeat (apply elem_of_cons in Hv as [->|Hv]);
      [..|by apply elem_of_nil in Hv];
      (repeat (apply elem_of_cons in Hw as [->|Hw]);
       [..|by apply elem_of_nil in Hw]); done.
Defined.

(** There [A] is declared twice: the loop runs three times, [match] has the
    two handlers [a] and [b]. *)
Example repeated_case_handlers :
  let c' := after (_transform_class ascii_only) class_with_repeated_case in
  class_vars class_with_repeated_case
    = inr [mkVar 0 "A" (Some int_type); mkVar 1 "B" (Some str_type);
           mkVar 0 "A" (Some int_type)] ∧
  (λ sig, p_name <$> parameters sig) <$> generated_signature c' "match"
    = Some ["a"; "b"] ∧
  (λ st, match st with SFuncDef f => Some (func_name f) | _ => None end) <$> body c'
    = [None; None; None; Some "B"; Some "b"; Some "A"; Some "a"; Some "match"].
Proof. by vm_compute. Qed.

(* ===================================================================== *)
(** * Characters beyond ASCII *)
(* ===================================================================== *)

(** With a database that lowercases [École] to [école], the accessor of
    the case [École] and its handler in [match] are called [école]. *)
Example accented_case_methods :
  let c := class_with_accented_case in
  let c' := after (_transform_class sample_unicode) c in
  lower sample_unicode "École" = "école" ∧
  _transform_class sample_unicode c = (c', Return tt) ∧
  generated_signature c' "École"
    = Some (constructor_signature (Instance "m.Expr" []) (mkVariant "École" int_type)) ∧
  generated_signature c' "école"
    = Some (mkSignature "école" [] int_type false []) ∧
  (λ sig, p_name <$> parameters sig) <$> generated_signature c' "match"
    = Some ["école"] ∧
  (λ st, match st with SFuncDef f => Some (func_name f) | _ => None end) <$> body c'
    = [None; Some "École"; Some "école"; Some "match"].
Proof. by vm_compute. Qed.

(** With a database in which the fullwidth digits are digits and the
    no-break space is a space, a version written with them is read by its
    value. *)
Example version_in_fullwidth_digits :
  Dec.of_string sample_unicode "０.８" = Some (Dec.Finite false 8 (-1)) ∧
  plugin sample_unicode "０.８" = inr ADTPluginClass ∧
  plugin sample_unicode " 0.8 " = inr ADTPluginClass ∧
  plugin sample_unicode "０.７" = inl (AssertionError "").
Proof. by vm_compute. Qed.
